(** * engmcp: unit-conversion closure, consistency validation, checkpointed
      conversion pipeline, duplicate detection and unit linking.

    Shallow embedding of
      - the complete-conversion generator (generateCompleteConversions,
        validateConversions, ensureCompleteConversions),
      - postprocess/generateCustomConversions (classifyUnit,
        validateConversion, loadCheckpoint, the two phases of main),
      - postprocess/cleanupDuplicates (calculateStringSimilarity,
        findSemanticDuplicates, batchDetectDuplicates),
      - postprocess/linkUnits (findUnitBySymbol, linkUnits),
      - utils/fileManager (loadMasterSpecTypes, saveSpecTypeToMaster,
        clearMasterFile),
      - utils/claude (generateUUID, the fence stripping of askClaudeJSON),
      - utils/validator (the checks of validateSpecTypes on names),
      with the records of types/schemas.

    JavaScript numbers are IEEE-754 binary64 values: they are modelled by the
    kernel's primitive floats, whose operations are the same ones.
    JavaScript strings are modelled by byte strings; [toLowerCase] and the
    white space class of [/\s+/] are the ASCII parts of the JavaScript ones.
    The Oracle (the calls to askClaudeJSON), [generateUUID], [JSON.parse] and
    the file system are parameters of the functions that use them. *)

From Stdlib Require Import Ascii String Floats.PrimFloat Floats.SpecFloat
  Floats.FloatAxioms.
From stdpp Require Import gmap strings list pretty.

Set Warnings "-clear-no-such-hyp".

(** ** JavaScript built-ins used by the sources *)
Module JS.

(** [String.prototype.toLowerCase], on ASCII letters. *)
Definition lowerChar (c : ascii) : ascii :=
  let n := nat_of_ascii c in
  if Nat.leb 65 n && Nat.leb n 90 then ascii_of_nat (n + 32) else c.

Fixpoint toLowerCase (s : string) : string :=
  match s with
  | EmptyString => EmptyString
  | String c r => String (lowerChar c) (toLowerCase r)
  end.

(** The class [\s] restricted to ASCII: tab, LF, VT, FF, CR and space. *)
Definition isSpace (c : ascii) : bool :=
  let n := nat_of_ascii c in
  (Nat.leb 9 n && Nat.leb n 13) || Nat.eqb n 32.

(** [s.split(/\s+/)]: [cur] is the token being read, [inGap] tells that the
    previous character was white space.  A leading or trailing run of white
    space gives an empty first or last token, as in JavaScript. *)
Fixpoint splitLoop (inGap : bool) (cur : string) (s : string) : list string :=
  match s with
  | EmptyString => [cur]
  | String c r =>
      if isSpace c
      then (if inGap then splitLoop true cur r
            else cur :: splitLoop true EmptyString r)
      else splitLoop false (cur +:+ String c EmptyString) r
  end.

Definition splitWhitespace (s : string) : list string :=
  splitLoop false EmptyString s.

(** [s.includes(c)] for a one-character needle. *)
Fixpoint includesChar (c : ascii) (s : string) : bool :=
  match s with
  | EmptyString => false
  | String d r => if decide (c = d) then true else includesChar c r
  end.

Fixpoint trimStart (s : string) : string :=
  match s with
  | EmptyString => EmptyString
  | String c r => if isSpace c then trimStart r else s
  end.

(** [s.trim()]. *)
Definition trim (s : string) : string :=
  String.rev (trimStart (String.rev (trimStart s))).

(** A string is truthy when it is not empty. *)
Definition truthy (s : string) : bool :=
  match s with EmptyString => false | _ => true end.

(** [a.includes(x)] on an array of strings. *)
Definition includes (l : list string) (x : string) : bool :=
  bool_decide (x ∈ l).

(** A non-negative integer as a number. *)
Fixpoint ofNat (n : nat) : float :=
  match n with
  | O => 0%float
  | S k => (ofNat k + 1)%float
  end.

(** [a.slice(i, e)]. *)
Definition slice {A} (i e : nat) (l : list A) : list A := take (e - i) (drop i l).

(** [isFinite(x)] on a number. *)
Definition isFinite (x : float) : bool :=
  negb (PrimFloat.is_nan x || PrimFloat.is_infinity x).

End JS.

(** ** types/schemas *)
Module Schema.

Record Unit := mkUnit {
  unit_id : string;
  symbol : string;
  unit_name : string;
  abbreviations : list string;
  unitGroupId : string
}.

Record ConversionEquation := mkConversion {
  conv_id : string;
  fromUnitId : string;
  toUnitId : string;
  multiplier : float;
  equation : string;
  conv_description : string
}.

Record UnitGroup := mkGroup {
  group_id : string;
  group_name : string;
  group_description : string;
  unitIds : list string;
  conversions : list ConversionEquation
}.

Inductive Domain := HVAC | ELECTRICAL | PLUMBING | FIRE_PROTECTION.

#[export] Instance Domain_eq_dec : EqDecision Domain.
Proof. solve_decision. Defined.

Record SpecType := mkSpecType {
  spec_id : string;
  primaryName : string;
  alternateNames : list string;
  spec_description : string;
  domain : Domain
}.

(** What the JavaScript run time supplies: the successive results of
    [generateUUID] (a random source in the program) and the decimal
    rendering of a number inside a template string. *)
Record Runtime := mkRuntime {
  uuid : nat -> string;
  numberToString : float -> string
}.

End Schema.
Import Schema.

(** ** The complete-conversion generator: closure and consistency validation *)
Module Closure.

Definition arrow : string := "→".

(** The first byte of the arrow; an identifier made by [generateUUID]
    (hexadecimal digits and dashes) does not contain it. *)
Definition arrowLead : ascii := "226"%char.

Definition arrowFree (s : string) : Prop := JS.includesChar arrowLead s = false.

(** The template [`${from}→${to}`]. *)
Definition convKey (fromId toId : string) : string :=
  fromId +:+ arrow +:+ toId.

(** "Initialize with direct conversions". *)
Definition seedDirect (existingConversions : list ConversionEquation)
    (multipliers : gmap string float) : gmap string float :=
  fold_left
    (fun m conv => <[convKey (fromUnitId conv) (toUnitId conv) := multiplier conv]> m)
    existingConversions multipliers.

(** "Self-conversions (identity)". *)
Definition seedIdentity (units : list Unit)
    (multipliers : gmap string float) : gmap string float :=
  fold_left
    (fun m unit => <[convKey (unit_id unit) (unit_id unit) := 1%float]> m)
    units multipliers.

(** The body of the triple loop for the intermediate unit [k] and the
    pair [i], [j]. *)
Definition relaxStep (k i j : Unit) (multipliers : gmap string float)
    : gmap string float :=
  let ikKey := convKey (unit_id i) (unit_id k) in
  let kjKey := convKey (unit_id k) (unit_id j) in
  let ijKey := convKey (unit_id i) (unit_id j) in
  match multipliers !! ikKey, multipliers !! kjKey with
  | Some ikMult, Some kjMult =>
      let transitiveMultiplier := (ikMult * kjMult)%float in
      match multipliers !! ijKey with
      | Some _ => multipliers
      | None => <[ijKey := transitiveMultiplier]> multipliers
      end
  | _, _ => multipliers
  end.

(** "Find all paths through intermediate units": for k, for i, for j. *)
Definition relax (units : list Unit) (multipliers : gmap string float)
    : gmap string float :=
  fold_left
    (fun m k =>
       fold_left
         (fun m i => fold_left (fun m j => relaxStep k i j m) units m)
         units m)
    units multipliers.

(** The iterations of the triple loop, in the order in which they run. *)
Definition triples (units : list Unit) : list (Unit * Unit * Unit) :=
  k ← units; i ← units; j ← units; [(k, i, j)].

Definition relaxTriple (m : gmap string float) (t : Unit * Unit * Unit)
    : gmap string float :=
  relaxStep t.1.1 t.1.2 t.2 m.

(** The table when the triple loop starts. *)
Definition seedTable (units : list Unit)
    (existingConversions : list ConversionEquation) : gmap string float :=
  seedIdentity units (seedDirect existingConversions ∅).

(** The multiplier table at the end of the triple loop. *)
Definition closureTable (units : list Unit)
    (existingConversions : list ConversionEquation) : gmap string float :=
  relax units (seedTable units existingConversions).

(** The writes and iterations of one run, in the order in which they
    happen: the seeds of the direct edges, the identities, the triple loop. *)
Inductive Step :=
| SeedDirect (conv : ConversionEquation)
| SeedIdentity (unit : Unit)
| Relax (k i j : Unit).

Definition applyStep (m : gmap string float) (s : Step) : gmap string float :=
  match s with
  | SeedDirect conv =>
      <[convKey (fromUnitId conv) (toUnitId conv) := multiplier conv]> m
  | SeedIdentity unit => <[convKey (unit_id unit) (unit_id unit) := 1%float]> m
  | Relax k i j => relaxStep k i j m
  end.

Definition closureSteps (units : list Unit)
    (existingConversions : list ConversionEquation) : list Step :=
  (SeedDirect <$> existingConversions) ++ (SeedIdentity <$> units) ++
  ((fun t : Unit * Unit * Unit => Relax t.1.1 t.1.2 t.2) <$> triples units).

Definition samePair (fromId toId : string) (c : ConversionEquation) : bool :=
  bool_decide (fromUnitId c = fromId) && bool_decide (toUnitId c = toId).

Definition pairOf (c : ConversionEquation) : string * string :=
  (fromUnitId c, toUnitId c).

(** The data model's invariant of a group's conversion list: at most one
    equation per ordered (fromUnitId, toUnitId) pair. *)
Definition uniquePairs (cs : list ConversionEquation) : Prop :=
  NoDup (pairOf <$> cs).

(** Identifiers as [generateUUID] makes them: without the arrow. *)
Definition plainUnits (units : list Unit) : Prop :=
  Forall (fun u => arrowFree (unit_id u)) units.

Definition plainConversions (cs : list ConversionEquation) : Prop :=
  Forall (fun c => arrowFree (fromUnitId c) /\ arrowFree (toUnitId c)) cs.

(** Direct edges relate two different units. *)
Definition noSelfEdges (cs : list ConversionEquation) : Prop :=
  Forall (fun c => fromUnitId c <> toUnitId c) cs.

(** [e] is an edge from [a] to [b] with multiplier [m]. *)
Definition edge (e : ConversionEquation) (a b : string) (m : float) : Prop :=
  fromUnitId e = a /\ toUnitId e = b /\ multiplier e = m.

(** The equation built for a pair without a persisted one; [n] is the
    position in the stream of identifiers. *)
Definition derivedConversion (rt : Runtime) (n : nat) (fromUnit toUnit : Unit)
    (m : float) : ConversionEquation :=
  {| conv_id := uuid rt n;
     fromUnitId := unit_id fromUnit;
     toUnitId := unit_id toUnit;
     multiplier := m;
     equation := "x * " +:+ numberToString rt m;
     conv_description := symbol fromUnit +:+ " to " +:+ symbol toUnit |}.

(** The body of the output loop; the state is the number of identifiers
    drawn so far and [allConversions]. *)
Definition emitPair (rt : Runtime) (existingConversions : list ConversionEquation)
    (multipliers : gmap string float) (fromUnit toUnit : Unit)
    (st : nat * list ConversionEquation) : nat * list ConversionEquation :=
  if bool_decide (unit_id fromUnit = unit_id toUnit) then st
  else
    match multipliers !! convKey (unit_id fromUnit) (unit_id toUnit) with
    | None => st
    | Some m =>
        match find (samePair (unit_id fromUnit) (unit_id toUnit)) existingConversions with
        | Some existing => (st.1, st.2 ++ [existing])
        | None => (S st.1, st.2 ++ [derivedConversion rt st.1 fromUnit toUnit m])
        end
    end.

Definition emitRow (rt : Runtime) (existingConversions : list ConversionEquation)
    (multipliers : gmap string float) (units : list Unit) (fromUnit : Unit)
    (st : nat * list ConversionEquation) : nat * list ConversionEquation :=
  fold_left
    (fun st toUnit => emitPair rt existingConversions multipliers fromUnit toUnit st)
    units st.

Definition emitAll (rt : Runtime) (existingConversions : list ConversionEquation)
    (multipliers : gmap string float) (units : list Unit)
    (st : nat * list ConversionEquation) : nat * list ConversionEquation :=
  fold_left
    (fun st fromUnit => emitRow rt existingConversions multipliers units fromUnit st)
    units st.

(** [generateCompleteConversions], with the position [next] in the stream
    of identifiers; the result is the position afterwards and the list. *)
Definition generateCompleteConversionsFrom (rt : Runtime) (next : nat)
    (units : list Unit) (existingConversions : list ConversionEquation)
    : nat * list ConversionEquation :=
  if Nat.ltb (length units) 2 then (next, existingConversions)
  else
    emitAll rt existingConversions (closureTable units existingConversions)
      units (next, []).

Definition generateCompleteConversions (rt : Runtime) (next : nat)
    (units : list Unit) (existingConversions : list ConversionEquation)
    : list ConversionEquation :=
  (generateCompleteConversionsFrom rt next units existingConversions).2.

(** [conversions.find(c => c.fromUnitId === conv.toUnitId && c.toUnitId === conv.fromUnitId)]. *)
Definition findReverse (conversions : list ConversionEquation)
    (conv : ConversionEquation) : option ConversionEquation :=
  find (samePair (toUnitId conv) (fromUnitId conv)) conversions.

(** [Math.abs(product - 1.0) < 0.01]. *)
Definition nearOne (product : float) : bool :=
  PrimFloat.ltb (PrimFloat.abs (product - 1)%float) 0x1.47ae147ae147bp-7%float.

Record ValidationResult := mkValidation { valid : nat; issues : nat }.

(** The two warnings written to the console. *)
Inductive Warning :=
| InverseMismatch (fromId toId : string) (product : float)
| MissingReverse (fromId toId : string).

(** The body of the loop of [validateConversions]; the state is the two
    counters and the warnings written so far. *)
Definition validateStep (conversions : list ConversionEquation)
    (st : ValidationResult * list Warning) (conv : ConversionEquation)
    : ValidationResult * list Warning :=
  match findReverse conversions conv with
  | Some reverse =>
      let product := (multiplier conv * multiplier reverse)%float in
      if nearOne product
      then ({| valid := S (valid st.1); issues := issues st.1 |}, st.2)
      else ({| valid := valid st.1; issues := S (issues st.1) |},
            st.2 ++ [InverseMismatch (fromUnitId conv) (toUnitId conv) product])
  | None =>
      ({| valid := valid st.1; issues := S (issues st.1) |},
       st.2 ++ [MissingReverse (fromUnitId conv) (toUnitId conv)])
  end.

Definition validateConversionsLog (conversions : list ConversionEquation)
    : ValidationResult * list Warning :=
  fold_left (validateStep conversions) conversions
    ({| valid := 0; issues := 0 |}, []).

Definition validateConversions (conversions : list ConversionEquation)
    : ValidationResult :=
  (validateConversionsLog conversions).1.

(** [c] is a reverse edge of [conv]. *)
Definition reverseOf (conv c : ConversionEquation) : Prop :=
  fromUnitId c = toUnitId conv /\ toUnitId c = fromUnitId conv.

Definition hasReverse (conversions : list ConversionEquation)
    (conv : ConversionEquation) : Prop :=
  exists c, c ∈ conversions /\ reverseOf conv c.

(** The warning that one edge gets, if any. *)
Definition verdict (conversions : list ConversionEquation)
    (conv : ConversionEquation) : option Warning :=
  match findReverse conversions conv with
  | Some reverse =>
      let product := (multiplier conv * multiplier reverse)%float in
      if nearOne product then None
      else Some (InverseMismatch (fromUnitId conv) (toUnitId conv) product)
  | None => Some (MissingReverse (fromUnitId conv) (toUnitId conv))
  end.

(** [allUnits.filter(u => group.unitIds.includes(u.id))]. *)
Definition groupUnitsOf (allUnits : list Unit) (group : UnitGroup) : list Unit :=
  filter (fun u => JS.includes (unitIds group) (unit_id u) = true) allUnits.

Definition withConversions (group : UnitGroup) (cs : list ConversionEquation)
    : UnitGroup :=
  {| group_id := group_id group; group_name := group_name group;
     group_description := group_description group;
     unitIds := unitIds group; conversions := cs |}.

(** [groupUnits.length * (groupUnits.length - 1)]. *)
Definition expectedCount (n : nat) : Z := (Z.of_nat n * (Z.of_nat n - 1))%Z.

(** The body of the loop of [ensureCompleteConversions] for one group: the
    group afterwards, the position in the identifier stream and, when the
    closure ran, the validation counts that are logged. *)
Definition ensureGroup (rt : Runtime) (next : nat) (allUnits : list Unit)
    (group : UnitGroup) : UnitGroup * nat * option ValidationResult :=
  let groupUnits := groupUnitsOf allUnits group in
  let originalCount := Z.of_nat (length (conversions group)) in
  if bool_decide (originalCount < expectedCount (length groupUnits))%Z then
    let r := generateCompleteConversionsFrom rt next groupUnits (conversions group) in
    (withConversions group r.2, r.1, Some (validateConversions r.2))
  else (group, next, None).

(** The loop of [ensureCompleteConversions] over the groups. *)
Definition ensureCompleteConversions (rt : Runtime) (allUnits : list Unit)
    (unitGroups : list UnitGroup) : list UnitGroup :=
  (fold_left
     (fun (acc : list UnitGroup * nat) group =>
        let r := ensureGroup rt acc.2 allUnits group in
        (acc.1 ++ [r.1.1], r.1.2))
     unitGroups ([], 0)).1.

(** What an equation of the output is: either the first persisted equation
    of its pair, or the derived one for a pair without persisted equation. *)
Definition produced (rt : Runtime) (ex : list ConversionEquation)
    (T : gmap string float) (units : list Unit) (e : ConversionEquation) : Prop :=
  exists f t, f ∈ units /\ t ∈ units /\ unit_id f <> unit_id t /\
    exists m, T !! convKey (unit_id f) (unit_id t) = Some m /\
      (find (samePair (unit_id f) (unit_id t)) ex = Some e \/
       (find (samePair (unit_id f) (unit_id t)) ex = None /\
        exists n, e = derivedConversion rt n f t m)).

(** The part of the table that concerns the pair (a, c) when [b] is the
    only other unit: both factors are known and the pair is unknown or is
    their product. *)
Definition through (a b c : string) (x y : float) (m : gmap string float) : Prop :=
  m !! convKey a b = Some x /\ m !! convKey b c = Some y /\
  (m !! convKey a c = None \/ m !! convKey a c = Some (x * y)%float).

(** The unit is one of the three. *)
Definition among (a b c : string) (u : Unit) : Prop :=
  unit_id u = a \/ unit_id u = b \/ unit_id u = c.

(** *** The closure example *)

Definition unitA : Unit :=
  {| unit_id := "1c9e4f70-2a3b-4c5d-8e6f-0a1b2c3d4e5f"; symbol := "A"; unit_name := "A";
     abbreviations := []; unitGroupId := "ug-example" |}.

Definition unitB : Unit :=
  {| unit_id := "2d0f5a81-3b4c-4d6e-9f70-1b2c3d4e5f6a"; symbol := "B"; unit_name := "B";
     abbreviations := []; unitGroupId := "ug-example" |}.

Definition unitC : Unit :=
  {| unit_id := "3e1a6b92-4c5d-4e7f-8a81-2c3d4e5f6a7b"; symbol := "C"; unit_name := "C";
     abbreviations := []; unitGroupId := "ug-example" |}.

Definition directEdge (n : string) (f t : Unit) (m : float) (text : string)
    : ConversionEquation :=
  {| conv_id := n; fromUnitId := unit_id f; toUnitId := unit_id t; multiplier := m;
     equation := text; conv_description := symbol f +:+ " to " +:+ symbol t |}.

Definition edgeAB : ConversionEquation :=
  directEdge "6f4d9e25-7f80-4b2c-8db4-5f6a7b8c9d0e" unitA unitB 2 "x * 2".

Definition edgeBC : ConversionEquation :=
  directEdge "705e0f36-8091-4c3d-9ec5-6a7b8c9d0e1f" unitB unitC 3 "x * 3".

(** A second equation for the pair (A, B), and an equation from A to
    itself. *)
Definition edgeAB5 : ConversionEquation :=
  directEdge "927a2b58-a2b3-4e5f-90e7-8c9d0e1f2a3b" unitA unitB 5 "x * 5".

Definition selfEdgeA : ConversionEquation :=
  directEdge "a38b3c69-b3c4-4f60-a1f8-9d0e1f2a3b4c" unitA unitA 5 "x * 5".

Definition exampleRuntime : Runtime :=
  {| uuid := fun n => "00000000-0000-4000-8000-" +:+ pretty n;
     numberToString := fun x => if PrimFloat.eqb x 6 then "6" else "0.16666666666666666" |}.

End Closure.

(** ** postprocess/linkUnits: the unit linker *)
Module Linker.

Definition sameIgnoringCase (a b : string) : bool :=
  bool_decide (JS.toLowerCase a = JS.toLowerCase b).

(** The predicate given to [units.find]. *)
Definition matchesUnit (symbol : string) (u : Unit) : bool :=
  bool_decide (Schema.symbol u = symbol)
  || sameIgnoringCase (Schema.symbol u) symbol
  || existsb (fun abbr => bool_decide (abbr = symbol) || sameIgnoringCase abbr symbol)
       (abbreviations u).

Definition findUnitBySymbol (symbol : string) (units : list Unit) : option Unit :=
  if negb (JS.truthy symbol) then None
  else find (matchesUnit symbol) units.

(** The lookup as the specification words it: four passes over the whole
    list, one per criterion, the first pass that finds a unit decides. *)
Definition findUnitBySymbol_tiered (symbol : string) (units : list Unit)
    : option Unit :=
  match find (fun u => bool_decide (Schema.symbol u = symbol)) units with
  | Some u => Some u
  | None =>
  match find (fun u => sameIgnoringCase (Schema.symbol u) symbol) units with
  | Some u => Some u
  | None =>
  match find (fun u => existsb (fun abbr => bool_decide (abbr = symbol))
                         (abbreviations u)) units with
  | Some u => Some u
  | None =>
      find (fun u => existsb (fun abbr => sameIgnoringCase abbr symbol)
                       (abbreviations u)) units
  end end end.

(** The four criteria as a proposition. *)
Definition matches (symbol : string) (u : Unit) : Prop :=
  Schema.symbol u = symbol \/
  JS.toLowerCase (Schema.symbol u) = JS.toLowerCase symbol \/
  exists abbr, abbr ∈ abbreviations u /\
    (abbr = symbol \/ JS.toLowerCase abbr = JS.toLowerCase symbol).

Definition gpm : Unit :=
  {| unit_id := "0b7c1d9e-55aa-4c1e-9f00-3a2b1c4d5e6f"; symbol := "GPM";
     unit_name := "GPM"; abbreviations := ["gal/min"]; unitGroupId := "" |}.

Definition gpmLower : Unit :=
  {| unit_id := "7d3e0a41-1b2c-4d5e-8f90-a1b2c3d4e5f6"; symbol := "gpm";
     unit_name := "gpm"; abbreviations := ["gpm"]; unitGroupId := "" |}.

End Linker.

(** ** postprocess/cleanupDuplicates: duplicate detection *)
Module Duplicates.

(** [new Set(str.toLowerCase().split(/\s+/))]. *)
Definition wordSet (str : string) : gset string :=
  list_to_set (JS.splitWhitespace (JS.toLowerCase str)).

Definition calculateStringSimilarity (str1 str2 : string) : float :=
  let words1 := wordSet str1 in
  let words2 := wordSet str2 in
  let intersection := words1 ∩ words2 in
  let union := words1 ∪ words2 in
  (JS.ofNat (size intersection) / JS.ofNat (size union) * 100)%float.

Record Candidate := mkCandidate {
  spec1 : SpecType;
  spec2 : SpecType;
  stringSimilarity : float
}.

(** [byDomain[spec.domain].push(spec)], the keys in insertion order. *)
Fixpoint pushSpec (byDomain : list (Domain * list SpecType)) (spec : SpecType)
    : list (Domain * list SpecType) :=
  match byDomain with
  | [] => [(domain spec, [spec])]
  | (d, specs) :: rest =>
      if decide (d = domain spec) then (d, specs ++ [spec]) :: rest
      else (d, specs) :: pushSpec rest spec
  end.

Definition groupByDomain (specTypes : list SpecType) : list (Domain * list SpecType) :=
  fold_left pushSpec specTypes [].

(** The body of the loops over [i] and [j > i]. *)
Definition considerPair (si sj : SpecType) (candidates : list Candidate)
    : list Candidate :=
  let similarity := calculateStringSimilarity (primaryName si) (primaryName sj) in
  if PrimFloat.leb 30 similarity
  then candidates ++ [ {| spec1 := si; spec2 := sj; stringSimilarity := similarity |} ]
  else candidates.

(** [for i; for j = i + 1] over the specs of one domain. *)
Fixpoint domainCandidates (specs : list SpecType) (candidates : list Candidate)
    : list Candidate :=
  match specs with
  | [] => candidates
  | si :: rest =>
      domainCandidates rest
        (fold_left (fun cands sj => considerPair si sj cands) rest candidates)
  end.

(** Step 2 of [findSemanticDuplicates]. *)
Definition findCandidates (specTypes : list SpecType) : list Candidate :=
  fold_left (fun cands entry => domainCandidates entry.2 cands)
    (groupByDomain specTypes) [].

(** [x] stands before [y] in the list. *)
Definition before {A} (l : list A) (x y : A) : Prop :=
  exists l1 l2 l3, l = l1 ++ x :: l2 ++ y :: l3.

Definition candidateOf (si sj : SpecType) : Candidate :=
  {| spec1 := si; spec2 := sj;
     stringSimilarity := calculateStringSimilarity (primaryName si) (primaryName sj) |}.

(** The lexical test of stage 1: the similarity is at least 30. *)
Definition similarEnough (si sj : SpecType) : bool :=
  PrimFloat.leb 30 (calculateStringSimilarity (primaryName si) (primaryName sj)).

(** One element of the Oracle's answer. *)
Record Verdict := mkVerdict {
  pairIndex : nat;
  areDuplicates : bool;
  similarity : float;
  reason : string
}.

Record DuplicateGroup := mkDuplicateGroup {
  dup_similarity : float;
  dup_reason : string;
  specTypes : list SpecType
}.

(** [result.areDuplicates || result.similarity >= 85]. *)
Definition accepted (result : Verdict) : bool :=
  areDuplicates result || PrimFloat.leb 85 (similarity result).

Definition groupOf (cand : Candidate) (result : Verdict) : DuplicateGroup :=
  {| dup_similarity := similarity result; dup_reason := reason result;
     specTypes := [spec1 cand; spec2 cand] |}.

(** The loop over the results inside the [try]: an accepted result whose
    index is outside the batch raises a TypeError, which ends the loop; the
    groups pushed before stay. *)
Fixpoint recordVerdicts (batch : list Candidate) (results : list Verdict)
    (duplicateGroups : list DuplicateGroup) : list DuplicateGroup :=
  match results with
  | [] => duplicateGroups
  | result :: rest =>
      if accepted result then
        match batch !! pairIndex result with
        | Some cand => recordVerdicts batch rest (duplicateGroups ++ [groupOf cand result])
        | None => duplicateGroups
        end
      else recordVerdicts batch rest duplicateGroups
  end.

(** The Oracle for a batch: its answer, or [None] when the call or the
    parsing of the answer fails. *)
Definition DuplicateOracle := list Candidate -> option (list Verdict).

Definition verdictsOf (oracle : DuplicateOracle) (batch : list Candidate)
    : list Verdict :=
  default [] (oracle batch).

Definition processBatch (oracle : DuplicateOracle) (batch : list Candidate)
    (duplicateGroups : list DuplicateGroup) : list DuplicateGroup :=
  match oracle batch with
  | Some results => recordVerdicts batch results duplicateGroups
  | None => duplicateGroups
  end.

Definition batchSize : nat := 10.

Definition batchAt (candidates : list Candidate) (i : nat) : list Candidate :=
  JS.slice i (Nat.min (i + batchSize) (length candidates)) candidates.

(** [for (i = 0; i < candidates.length; i += batchSize)]; [fuel] bounds the
    number of iterations. *)
Fixpoint batchLoop (fuel : nat) (oracle : DuplicateOracle)
    (candidates : list Candidate) (i : nat)
    (duplicateGroups : list DuplicateGroup) : list DuplicateGroup :=
  match fuel with
  | O => duplicateGroups
  | S fuel' =>
      if Nat.ltb i (length candidates) then
        batchLoop fuel' oracle candidates (i + batchSize)
          (processBatch oracle (batchAt candidates i) duplicateGroups)
      else duplicateGroups
  end.

Definition batchDetectDuplicates (oracle : DuplicateOracle)
    (candidates : list Candidate) : list DuplicateGroup :=
  batchLoop (length candidates) oracle candidates 0 [].

(** The grouping by domain: each domain of the list once, with the specs of
    that domain in the order of the list. *)
Definition grouped (byDomain : list (Domain * list SpecType))
    (seen : list SpecType) : Prop :=
  NoDup byDomain.*1 /\
  (forall d l, (d, l) ∈ byDomain -> l = filter (fun s => domain s = d) seen) /\
  (forall s, s ∈ seen -> domain s ∈ byDomain.*1).

(** An answer is well indexed when every accepted result points into the
    batch it answers. *)
Definition wellIndexed (oracle : DuplicateOracle) : Prop :=
  forall batch r, r ∈ verdictsOf oracle batch -> accepted r = true ->
    pairIndex r < length batch.

Definition coolingCapacity : SpecType :=
  {| spec_id := "5a1e7c30-0f4b-4a8e-9d21-6c3b2a1f0e9d"; primaryName := "Cooling Capacity";
     alternateNames := []; spec_description := "Rated cooling output"; domain := HVAC |}.

Definition totalCoolingCapacity : SpecType :=
  {| spec_id := "c94d2b18-7e6f-4d3a-8b5c-1f0e9d8c7b6a"; primaryName := "Total Cooling Capacity";
     alternateNames := []; spec_description := "Total rated cooling output";
     domain := HVAC |}.

(** An Oracle that confirms the first pair of every batch with score 90. *)
Definition confirmingOracle : DuplicateOracle :=
  fun batch =>
    match batch with
    | [] => Some []
    | _ => Some [ {| pairIndex := 0; areDuplicates := false; similarity := 90;
                     reason := "same property" |} ]
    end.

(** An Oracle whose first result is accepted and points outside the batch,
    and whose second result confirms the first pair with score 90. *)
Definition strayVerdict (batch : list Candidate) : Verdict :=
  {| pairIndex := length batch; areDuplicates := true; similarity := 95;
     reason := "another pair" |}.

Definition confirmingVerdict : Verdict :=
  {| pairIndex := 0; areDuplicates := true; similarity := 90;
     reason := "same property" |}.

Definition strayOracle : DuplicateOracle :=
  fun batch => Some [strayVerdict batch; confirmingVerdict].

(** The group [g] is recorded for the answer [results] to [batch]: it is
    the group of an accepted result that points into the batch, and no
    accepted result before it in the answer points outside the batch. *)
Definition recordedFor (batch : list Candidate) (results : list Verdict)
    (g : DuplicateGroup) : Prop :=
  exists l1 r l2 cand,
    results = l1 ++ r :: l2 /\
    Forall (fun r' => accepted r' = true -> pairIndex r' < length batch) l1 /\
    accepted r = true /\
    batch !! pairIndex r = Some cand /\
    g = groupOf cand r.

Definition findSemanticDuplicates (oracle : DuplicateOracle)
    (specTypes : list SpecType) : list DuplicateGroup :=
  let candidates := findCandidates specTypes in
  if Nat.eqb (length candidates) 0 then []
  else batchDetectDuplicates oracle candidates.

End Duplicates.

(** ** postprocess/generateCustomConversions: the checkpointed pipeline *)
Module Collector.

(** *** The Oracle *)

(** One element of the answer to a conversion request, as parsed from
    JSON: a field is a string (a number for [multiplier]) or is absent. *)
Record RawConversion := mkRaw {
  raw_from : option string;
  raw_to : option string;
  raw_multiplier : option float;
  raw_equation : option string
}.

Record ConversionData := mkData {
  cd_from : string;
  cd_to : string;
  cd_multiplier : float;
  cd_equation : string
}.

(** [askClaudeJSON] for the two prompts: [None] when the call fails (the
    caller then falls back to "Uncategorized", or to no conversion). *)
Record Oracle := mkOracle {
  askClassify : Unit -> list string -> option string;
  askConversions : Unit -> list Unit -> string -> option (list RawConversion)
}.

Definition classifyUnit (o : Oracle) (unit : Unit) (existingGroups : list string)
    : string :=
  match askClassify o unit existingGroups with
  | Some groupName => JS.trim groupName
  | None => "Uncategorized"
  end.

Definition symbolIs (s : string) (u : Unit) : bool := bool_decide (symbol u = s).

Definition validateConversion (conv : RawConversion) (fromUnit : Unit)
    (allUnits : list Unit) : option ConversionData :=
  match raw_from conv, raw_to conv, raw_multiplier conv, raw_equation conv with
  | Some from, Some to, Some m, Some eqn =>
      if negb (JS.truthy from) || negb (JS.truthy to) || negb (JS.truthy eqn)
      then None
      else if negb (bool_decide (from = symbol fromUnit))
              || negb (bool_decide (is_Some (find (symbolIs to) allUnits)))
      then None
      else if PrimFloat.leb m 0 || negb (JS.isFinite m)
              || negb (JS.includesChar "x"%char eqn)
      then None
      else Some {| cd_from := from; cd_to := to; cd_multiplier := m;
                   cd_equation := JS.trim eqn |}
  | _, _, _, _ => None
  end.

Definition generateConversionsFromUnit (o : Oracle) (fromUnit : Unit)
    (toUnits : list Unit) (groupName : string) : list RawConversion :=
  default [] (askConversions o fromUnit toUnits groupName).

(** *** The checkpoint *)

(** [lastUpdated] is written by [saveCheckpoint] and never read. *)
Record Checkpoint := mkCheckpoint {
  classificationComplete : bool;
  groupsClassified : list (string * list string);
  conversionsGroupsCompleted : list string;
  currentConversionGroupId : option string;
  unitsCompleted : list string
}.

Definition freshCheckpoint : Checkpoint :=
  {| classificationComplete := false; groupsClassified := [];
     conversionsGroupsCompleted := []; currentConversionGroupId := None;
     unitsCompleted := [] |}.

(** Parsed JSON. *)
#[local] Set Warnings "-register-all".
Inductive Json :=
| JNull
| JBool (b : bool)
| JNumber (x : float)
| JString (s : string)
| JArray (items : list Json)
| JObject (fields : list (string * Json)).

(** What [existsSync] and [readFileSync] find at the checkpoint path. *)
Inductive FileState :=
| Missing
| Unreadable
| Content (text : string).

(** A computation that may throw. *)
Inductive Result (A : Type) :=
| Ok (a : A)
| Throw.
Arguments Ok {A} a.
Arguments Throw {A}.

Definition bindResult {A B} (r : Result A) (k : A -> Result B) : Result B :=
  match r with Ok a => k a | Throw => Throw end.

Fixpoint lookupField (key : string) (fields : list (string * Json)) : option Json :=
  match fields with
  | [] => None
  | (k, v) :: rest => if decide (k = key) then Some v else lookupField key rest
  end.

(** [data.classificationComplete]: a TypeError on [null], [undefined]
    ([None]) on a value without that property. *)
Definition getProperty (data : Json) (key : string) : Result (option Json) :=
  match data with
  | JNull => Throw
  | JObject fields => Ok (lookupField key fields)
  | _ => Ok None
  end.

Definition readFileSync (file : FileState) : Result string :=
  match file with
  | Content text => Ok text
  | _ => Throw
  end.

Definition existsSync (file : FileState) : bool :=
  match file with Missing => false | _ => true end.

(** The state returned when nothing usable was loaded. *)
Definition freshJson (now : string) : Json :=
  JObject [("classificationComplete", JBool false);
           ("groupsClassified", JObject []);
           ("conversionsGroupsCompleted", JArray []);
           ("currentConversionGroupId", JNull);
           ("unitsCompleted", JArray []);
           ("lastUpdated", JString now)].

(** The [try] block of [loadCheckpoint]: [Ok (Some data)] when it returns
    [data], [Ok None] when it falls through. *)
Definition loadCheckpointTry (JSON_parse : string -> Result Json)
    (file : FileState) : Result (option Json) :=
  bindResult (readFileSync file) (fun text =>
  bindResult (JSON_parse text) (fun data =>
  bindResult (getProperty data "classificationComplete") (fun field =>
  match field with
  | Some _ => Ok (Some data)
  | None => Ok None
  end))).

Definition loadCheckpoint (JSON_parse : string -> Result Json) (now : string)
    (file : FileState) : Json :=
  if existsSync file then
    match loadCheckpointTry JSON_parse file with
    | Ok (Some data) => data
    | Ok None => freshJson now
    | Throw => freshJson now
    end
  else freshJson now.

(** The reads that [main] makes of the loaded object. *)
Definition jsonTruthy (v : Json) : bool :=
  match v with
  | JNull => false
  | JBool b => b
  | JNumber x => negb (PrimFloat.eqb x 0 || PrimFloat.is_nan x)
  | JString s => JS.truthy s
  | _ => true
  end.

(** The strings of an array of strings; [None] for any other value. *)
Definition jsonStrings (v : Json) : option (list string) :=
  match v with
  | JArray items =>
      mapM (fun i => match i with JString s => Some s | _ => None end) items
  | _ => None
  end.

(** The checkpoint object as [main] reads it.  [classificationComplete] is
    tested for truth and [currentConversionGroupId] is compared with a group
    identifier, so that any value can stand there; [groupsClassified] is
    given to [Object.entries] and its values to [push],
    [conversionsGroupsCompleted] and [unitsCompleted] are used with
    [includes] and [push]: [main] throws when one of them is absent, and the
    record is [None] when one of them is absent or is not a table of arrays
    of strings, or an array of strings. *)
Definition checkpointOfJson (data : Json) : option Checkpoint :=
  match data with
  | JObject fields =>
      groups ← match lookupField "groupsClassified" fields with
               | Some (JObject groups) =>
                   mapM (fun g : string * Json =>
                           ids ← jsonStrings g.2; Some (g.1, ids)) groups
               | _ => None
               end;
      completed ← lookupField "conversionsGroupsCompleted" fields ≫= jsonStrings;
      units ← lookupField "unitsCompleted" fields ≫= jsonStrings;
      Some {| classificationComplete :=
                from_option jsonTruthy false
                  (lookupField "classificationComplete" fields);
              groupsClassified := groups;
              conversionsGroupsCompleted := completed;
              currentConversionGroupId :=
                match lookupField "currentConversionGroupId" fields with
                | Some (JString s) => Some s
                | _ => None
                end;
              unitsCompleted := units |}
  | _ => None
  end.

(** *** Phase 1: classification *)

(** [if (!groups[name]) groups[name] = []; groups[name].push(id)], the keys
    in insertion order. *)
Fixpoint pushUnit (groups : list (string * list string)) (groupName unitId : string)
    : list (string * list string) :=
  match groups with
  | [] => [(groupName, [unitId])]
  | (g, ids) :: rest =>
      if decide (g = groupName) then (g, ids ++ [unitId]) :: rest
      else (g, ids) :: pushUnit rest groupName unitId
  end.

Definition withGroupsClassified (cp : Checkpoint)
    (groups : list (string * list string)) : Checkpoint :=
  {| classificationComplete := classificationComplete cp;
     groupsClassified := groups;
     conversionsGroupsCompleted := conversionsGroupsCompleted cp;
     currentConversionGroupId := currentConversionGroupId cp;
     unitsCompleted := unitsCompleted cp |}.

Definition withClassificationComplete (cp : Checkpoint) : Checkpoint :=
  {| classificationComplete := true;
     groupsClassified := groupsClassified cp;
     conversionsGroupsCompleted := conversionsGroupsCompleted cp;
     currentConversionGroupId := currentConversionGroupId cp;
     unitsCompleted := unitsCompleted cp |}.

(** One batch: every unit of the batch is sent to the Oracle with the group
    names known before the batch, then the answers are recorded in order. *)
Definition classifyBatch (o : Oracle) (cp : Checkpoint) (batch : list Unit)
    : Checkpoint :=
  let existingGroups := (groupsClassified cp).*1 in
  let groupNames := (fun u => classifyUnit o u existingGroups) <$> batch in
  withGroupsClassified cp
    (fold_left (fun groups p => pushUnit groups p.2 (unit_id p.1))
       (zip batch groupNames) (groupsClassified cp)).

Definition classifyBatchSize : nat := 20.

(** The loop over the batches; the state is the checkpoint and the units
    sent to the Oracle so far. *)
Fixpoint classifyLoop (fuel : nat) (o : Oracle) (unmapped : list Unit) (i : nat)
    (st : Checkpoint * list Unit) : Checkpoint * list Unit :=
  match fuel with
  | O => st
  | S fuel' =>
      if Nat.ltb i (length unmapped) then
        let batch :=
          JS.slice i (Nat.min (i + classifyBatchSize) (length unmapped)) unmapped in
        classifyLoop fuel' o unmapped (i + classifyBatchSize)
          (classifyBatch o st.1 batch, st.2 ++ batch)
      else st
  end.

Definition unmappedUnits (allUnits : list Unit) : list Unit :=
  filter (fun u => JS.truthy (unitGroupId u) = false) allUnits.

(** Phase 1 of [main]: the checkpoint afterwards and the units that were
    sent to the Oracle for classification. *)
Definition phase1 (o : Oracle) (allUnits : list Unit) (cp : Checkpoint)
    : Checkpoint * list Unit :=
  let unmapped := unmappedUnits allUnits in
  if negb (classificationComplete cp) && Nat.ltb 0 (length unmapped) then
    let st := classifyLoop (length unmapped) o unmapped 0 (cp, []) in
    (withClassificationComplete st.1, st.2)
  else (cp, []).

(** *** Phase 2: conversions *)

(** [groupUnits.length * (groupUnits.length - 1)] and the filter of the
    groups that need conversions. *)
Definition needsConversions (cp : Checkpoint) (allUnits : list Unit)
    (g : UnitGroup) : bool :=
  if JS.includes (conversionsGroupsCompleted cp) (group_id g) then false
  else
    let units := Closure.groupUnitsOf allUnits g in
    bool_decide (Z.of_nat (length (conversions g))
                 < Closure.expectedCount (length units))%Z
    && Nat.leb 2 (length units).

Definition unitsToProcess (cp : Checkpoint) (group : UnitGroup)
    (groupUnits : list Unit) : list Unit :=
  if bool_decide (currentConversionGroupId cp = Some (group_id group))
  then filter (fun u => JS.includes (unitsCompleted cp) (unit_id u) = false) groupUnits
  else groupUnits.

(** The state of the processing of one group. *)
Record Progress := mkProgress {
  checkpoint : Checkpoint;
  groupConversions : list ConversionEquation;
  nextId : nat;
  requested : list Unit;
  generated : nat
}.

(** The body of the loop over the validated conversions of one unit. *)
Definition mergeConversion (rt : Runtime) (groupUnits : list Unit) (fromUnit : Unit)
    (st : nat * list ConversionEquation * nat) (convData : ConversionData)
    : nat * list ConversionEquation * nat :=
  match find (symbolIs (cd_to convData)) groupUnits with
  | None => st
  | Some toUnit =>
      if existsb (Closure.samePair (unit_id fromUnit) (unit_id toUnit)) st.1.2
      then st
      else (S st.1.1,
            st.1.2 ++ [ {| conv_id := uuid rt st.1.1;
                           fromUnitId := unit_id fromUnit;
                           toUnitId := unit_id toUnit;
                           multiplier := cd_multiplier convData;
                           equation := cd_equation convData;
                           conv_description :=
                             symbol fromUnit +:+ " to " +:+ symbol toUnit |} ],
            S st.2)
  end.

(** The request for one unit of a batch and the validation of the answer. *)
Definition requestConversions (o : Oracle) (group : UnitGroup)
    (groupUnits : list Unit) (fromUnit : Unit) : Unit * list ConversionData :=
  let toUnits := filter (fun u => unit_id u <> unit_id fromUnit) groupUnits in
  let conversions := generateConversionsFromUnit o fromUnit toUnits (group_name group) in
  (fromUnit, omap (fun c => validateConversion c fromUnit groupUnits) conversions).

(** The body of the loop over the results of a batch. *)
Definition mergeResult (rt : Runtime) (group : UnitGroup) (groupUnits : list Unit)
    (p : Progress) (result : Unit * list ConversionData) : Progress :=
  let st := fold_left (mergeConversion rt groupUnits result.1) result.2
              (nextId p, groupConversions p, generated p) in
  {| checkpoint :=
       {| classificationComplete := classificationComplete (checkpoint p);
          groupsClassified := groupsClassified (checkpoint p);
          conversionsGroupsCompleted := conversionsGroupsCompleted (checkpoint p);
          currentConversionGroupId := Some (group_id group);
          unitsCompleted := unitsCompleted (checkpoint p) ++ [unit_id result.1] |};
     groupConversions := st.1.2;
     nextId := st.1.1;
     requested := requested p;
     generated := st.2 |}.

Definition conversionBatchSize : nat := 20.

Definition processBatch (rt : Runtime) (o : Oracle) (group : UnitGroup)
    (groupUnits : list Unit) (batch : list Unit) (p : Progress) : Progress :=
  let results := requestConversions o group groupUnits <$> batch in
  let p' := fold_left (mergeResult rt group groupUnits) results p in
  {| checkpoint := checkpoint p'; groupConversions := groupConversions p';
     nextId := nextId p'; requested := requested p ++ batch;
     generated := generated p' |}.

Fixpoint conversionLoop (fuel : nat) (rt : Runtime) (o : Oracle)
    (group : UnitGroup) (groupUnits todo : list Unit) (i : nat) (p : Progress)
    : Progress :=
  match fuel with
  | O => p
  | S fuel' =>
      if Nat.ltb i (length todo) then
        let batch :=
          JS.slice i (Nat.min (i + conversionBatchSize) (length todo)) todo in
        conversionLoop fuel' rt o group groupUnits todo (i + conversionBatchSize)
          (processBatch rt o group groupUnits batch p)
      else p
  end.

(** The processing of one unit: its request, the merge of the validated
    answer and the update of the checkpoint. *)
Definition mergeUnit (rt : Runtime) (o : Oracle) (group : UnitGroup)
    (groupUnits : list Unit) (p : Progress) (fromUnit : Unit) : Progress :=
  mergeResult rt group groupUnits p (requestConversions o group groupUnits fromUnit).

(** What is saved after every unit: the checkpoint, the conversions of the
    group and the position in the stream of identifiers. *)
Definition saved (p : Progress) : Checkpoint * list ConversionEquation * nat :=
  (checkpoint p, groupConversions p, nextId p).

(** The state in which a run finds a group: the saved checkpoint and
    conversions, no request made yet. *)
Definition startFrom (cp : Checkpoint) (cs : list ConversionEquation) (next : nat)
    : Progress :=
  {| checkpoint := cp; groupConversions := cs; nextId := next;
     requested := []; generated := 0 |}.

(** The end of the processing of a group. *)
Definition completeGroup (group : UnitGroup) (p : Progress) : Progress :=
  {| checkpoint :=
       {| classificationComplete := classificationComplete (checkpoint p);
          groupsClassified := groupsClassified (checkpoint p);
          conversionsGroupsCompleted :=
            conversionsGroupsCompleted (checkpoint p) ++ [group_id group];
          currentConversionGroupId := None;
          unitsCompleted := [] |};
     groupConversions := groupConversions p;
     nextId := nextId p; requested := requested p; generated := generated p |}.

(** The body of the loop over the groups that need conversions, for one
    group: [None] when there is nothing to process ("Complete"). *)
Definition processGroup (rt : Runtime) (o : Oracle) (allUnits : list Unit)
    (cp : Checkpoint) (next : nat) (group : UnitGroup) : option Progress :=
  let groupUnits := Closure.groupUnitsOf allUnits group in
  let todo := unitsToProcess cp group groupUnits in
  if Nat.eqb (length todo) 0 then None
  else
    Some (completeGroup group
            (conversionLoop (length todo) rt o group groupUnits todo 0
               (startFrom cp (conversions group) next))).

(** [unitGroups.filter(...)], computed before the loop over the groups. *)
Definition groupsNeedingConversions (cp : Checkpoint) (allUnits : list Unit)
    (unitGroups : list UnitGroup) : list UnitGroup :=
  filter (fun g => needsConversions cp allUnits g = true) unitGroups.

(** The state of the loop over the groups that need conversions: the
    checkpoint, the position in the stream of identifiers, the number of
    groups processed, the groups with their new conversions, the requests made
    (group identifier and unit) and whether the loop was left by [break]. *)
Record Phase2 := mkPhase2 {
  p2_checkpoint : Checkpoint;
  p2_nextId : nat;
  groupsProcessed : nat;
  p2_groups : list UnitGroup;
  p2_requests : list (string * Unit);
  p2_stopped : bool
}.

(** [batchGroupLimit && groupsProcessed >= batchGroupLimit]. *)
Definition limitReached (batchGroupLimit : option nat) (processed : nat) : bool :=
  match batchGroupLimit with
  | Some limit => negb (Nat.eqb limit 0) && Nat.leb limit processed
  | None => false
  end.

Definition phase2Step (rt : Runtime) (o : Oracle) (allUnits : list Unit)
    (batchGroupLimit : option nat) (st : Phase2) (group : UnitGroup) : Phase2 :=
  if p2_stopped st then st
  else if limitReached batchGroupLimit (groupsProcessed st) then
    {| p2_checkpoint := p2_checkpoint st; p2_nextId := p2_nextId st;
       groupsProcessed := groupsProcessed st; p2_groups := p2_groups st;
       p2_requests := p2_requests st; p2_stopped := true |}
  else
    match processGroup rt o allUnits (p2_checkpoint st) (p2_nextId st) group with
    | None => st
    | Some p =>
        {| p2_checkpoint := checkpoint p; p2_nextId := nextId p;
           groupsProcessed := S (groupsProcessed st);
           p2_groups :=
             p2_groups st ++ [Closure.withConversions group (groupConversions p)];
           p2_requests :=
             p2_requests st ++ ((fun u => (group_id group, u)) <$> requested p);
           p2_stopped := false |}
    end.

(** Phase 2 of [main], after the groups of the checkpoint are registered. *)
Definition phase2 (rt : Runtime) (o : Oracle) (allUnits : list Unit)
    (batchGroupLimit : option nat) (cp : Checkpoint) (next : nat)
    (unitGroups : list UnitGroup) : Phase2 :=
  fold_left (phase2Step rt o allUnits batchGroupLimit)
    (groupsNeedingConversions cp allUnits unitGroups)
    {| p2_checkpoint := cp; p2_nextId := next; groupsProcessed := 0;
       p2_groups := []; p2_requests := []; p2_stopped := false |}.

(** The loaded value has the field that [loadCheckpoint] tests. *)
Definition hasClassificationComplete (data : Json) : Prop :=
  match data with
  | JObject fields => is_Some (lookupField "classificationComplete" fields)
  | _ => False
  end.

(** *** A small registry for the examples *)

Definition litersPerSecond : Unit :=
  {| unit_id := "e2a9c4d7-3b1f-4e6a-9c8d-7f5e4d3c2b1a"; symbol := "L/s";
     unit_name := "L/s"; abbreviations := ["l/s"]; unitGroupId := "" |}.

Definition flowGroup : UnitGroup :=
  {| group_id := "ug-flow"; group_name := "Flow"; group_description := "Custom MEP Flow";
     unitIds := [unit_id Linker.gpm; unit_id litersPerSecond]; conversions := [] |}.

(** An answer with an edge from the unit to itself. *)
Definition selfEdge (u : Unit) : RawConversion :=
  {| raw_from := Some (symbol u); raw_to := Some (symbol u);
     raw_multiplier := Some 1%float; raw_equation := Some "x * 1" |}.

(** An Oracle that answers every request with the edge from the unit to
    itself followed by one edge to each requested unit, and classifies every
    unit as "Flow". *)
Definition selfAnsweringOracle : Oracle :=
  {| askClassify := fun _ _ => Some "Flow";
     askConversions := fun fromUnit toUnits _ =>
       Some (selfEdge fromUnit ::
             ((fun t => {| raw_from := Some (symbol fromUnit);
                           raw_to := Some (symbol t);
                           raw_multiplier := Some 2%float;
                           raw_equation := Some "x * 2" |}) <$> toUnits)) |}.

(** Twenty-one units without group. *)
Definition customUnit (n : nat) : Unit :=
  {| unit_id := "a0000000-0000-4000-8000-" +:+ pretty n; symbol := "U" +:+ pretty n;
     unit_name := "U" +:+ pretty n; abbreviations := []; unitGroupId := "" |}.

Definition customUnits : list Unit := customUnit <$> seq 0 21.

(** The checkpoint that the first run saves after its first batch. *)
Definition checkpointAfterFirstBatch : Checkpoint :=
  (classifyLoop 1 selfAnsweringOracle (unmappedUnits customUnits) 0
     (freshCheckpoint, [])).1.

End Collector.

(** ** More JavaScript built-ins *)
Module Builtins.

(** [set.add(x)] on a [Set] of strings, kept in insertion order. *)
Definition setAdd (x : string) (s : list string) : list string :=
  if bool_decide (x ∈ s) then s else s ++ [x].

(** [Array.from(new Set(l))]. *)
Definition setOfList (l : list string) : list string :=
  fold_left (fun s x => setAdd x s) l [].

(** [s || undefined]. *)
Definition orUndefined (s : string) : option string :=
  if JS.truthy s then Some s else None.

(** Every character of [s] is in the class [P]. *)
Fixpoint allChars (P : ascii -> bool) (s : string) : bool :=
  match s with
  | EmptyString => true
  | String c r => P c && allChars P r
  end.

End Builtins.

(** ** The conversion graph of a group *)
Module Graph.
Import Closure.

(** A chain of persisted equations, every unit on the way being one of the
    list. *)
Inductive chain (units : list Unit) (cs : list ConversionEquation)
    : string -> string -> Prop :=
| chain_edge e :
    e ∈ cs -> fromUnitId e ∈ unit_id <$> units -> toUnitId e ∈ unit_id <$> units ->
    chain units cs (fromUnitId e) (toUnitId e)
| chain_trans a b c :
    chain units cs a b -> chain units cs b c -> chain units cs a c.

(** The table has a multiplier for the pair. *)
Definition known (m : gmap string float) (a b : string) : Prop :=
  is_Some (m !! convKey a b).

(** The pairs of listed units for which the table has a multiplier when the
    triple loop starts. *)
Definition seeded (units : list Unit) (cs : list ConversionEquation)
    (a b : string) : Prop :=
  a ∈ unit_id <$> units /\ b ∈ unit_id <$> units /\ known (seedTable units cs) a b.

(** A path of seeded pairs whose intermediate units are among [via]. *)
Inductive path (D : string -> string -> Prop) (via : list string)
    : string -> string -> Prop :=
| path_one a b : D a b -> path D via a b
| path_via a k b : k ∈ via -> path D via a k -> path D via k b -> path D via a b.

(** The iterations of the output loop, in the order in which they run. *)
Definition orderedPairs (units : list Unit) : list (Unit * Unit) :=
  fromUnit ← units; toUnit ← units; [(fromUnit, toUnit)].

Definition idPair (p : Unit * Unit) : string * string := (unit_id p.1, unit_id p.2).

(** The test of the output loop: the pair is not a unit with itself and the
    table has a multiplier for it. *)
Definition emitted (T : gmap string float) (p : Unit * Unit) : bool :=
  negb (bool_decide (unit_id p.1 = unit_id p.2))
  && bool_decide (is_Some (T !! convKey (unit_id p.1) (unit_id p.2))).

(** One iteration of the [k] loop. *)
Definition relaxThrough (units : list Unit) (k : Unit) (m : gmap string float)
    : gmap string float :=
  fold_left (fun m i => fold_left (fun m j => relaxStep k i j m) units m) units m.

(** The table knows, among the listed units, only pairs joined by a path of
    seeded pairs. *)
Definition sound (units : list Unit) (cs : list ConversionEquation)
    (m : gmap string float) : Prop :=
  forall a b, a ∈ unit_id <$> units -> b ∈ unit_id <$> units ->
    known m a b -> path (seeded units cs) (unit_id <$> units) a b.

(** *** Examples *)

Definition edgeBA : ConversionEquation :=
  directEdge "816f1a47-91a2-4d4e-8fd6-7b8c9d0e1f2a" unitB unitA 0.5 "x * 0.5".

Definition exampleGroup : UnitGroup :=
  {| group_id := "ug-example"; group_name := "Example"; group_description := "";
     unitIds := [unit_id unitA; unit_id unitB; unit_id unitC];
     conversions := [edgeAB; edgeBC] |}.

End Graph.

(** ** postprocess/linkUnits: the linking loop *)
Module Linking.
Import Linker Builtins.

(** The unit fields of a spec type, the only ones that [linkUnits] reads or
    writes; a property that is absent is [None]. *)
Record UnitRefs := mkUnitRefs {
  primaryUnit : option string;
  primaryUnitId : option string;
  primaryUnitGroupId : option string;
  alternateUnits : option (list string);
  alternateUnitIds : option (list string)
}.

(** The counters of [linkUnits] and the set [unmatchedUnits], in insertion
    order. *)
Record Tally := mkTally {
  linked : nat;
  unmatched : nat;
  unmatchedUnits : list string
}.

Definition countLinked (t : Tally) : Tally :=
  {| linked := S (linked t); unmatched := unmatched t;
     unmatchedUnits := unmatchedUnits t |}.

Definition countUnmatched (ref : string) (t : Tally) : Tally :=
  {| linked := linked t; unmatched := S (unmatched t);
     unmatchedUnits := setAdd ref (unmatchedUnits t) |}.

(** "Link primary unit". *)
Definition linkPrimary (units : list Unit) (st : UnitRefs * Tally)
    : UnitRefs * Tally :=
  match primaryUnit st.1 with
  | Some ref =>
      if JS.truthy ref then
        match findUnitBySymbol ref units with
        | Some unit =>
            ({| primaryUnit := primaryUnit st.1;
                primaryUnitId := Some (unit_id unit);
                primaryUnitGroupId := orUndefined (unitGroupId unit);
                alternateUnits := alternateUnits st.1;
                alternateUnitIds := alternateUnitIds st.1 |},
             countLinked st.2)
        | None => (st.1, countUnmatched ref st.2)
        end
      else st
  | None => st
  end.

(** The body of the loop over the alternate units; the state is
    [alternateUnitIds] and the tally. *)
Definition linkAlternate (units : list Unit) (st : list string * Tally)
    (altUnit : string) : list string * Tally :=
  match findUnitBySymbol altUnit units with
  | Some unit => (st.1 ++ [unit_id unit], countLinked st.2)
  | None => (st.1, countUnmatched altUnit st.2)
  end.

(** "Link alternate units". *)
Definition linkAlternates (units : list Unit) (st : UnitRefs * Tally)
    : UnitRefs * Tally :=
  match alternateUnits st.1 with
  | Some alts =>
      if Nat.ltb 0 (length alts) then
        let r := fold_left (linkAlternate units) alts ([], st.2) in
        ({| primaryUnit := primaryUnit st.1;
            primaryUnitId := primaryUnitId st.1;
            primaryUnitGroupId := primaryUnitGroupId st.1;
            alternateUnits := alternateUnits st.1;
            alternateUnitIds := Some r.1 |},
         r.2)
      else st
  | None => st
  end.

(** The body of the loop over the spec types. *)
Definition linkSpec (units : list Unit) (st : UnitRefs * Tally)
    : UnitRefs * Tally :=
  linkAlternates units (linkPrimary units st).

Definition emptyTally : Tally :=
  {| linked := 0; unmatched := 0; unmatchedUnits := [] |}.

(** The loop of [linkUnits] from a given tally: the spec types afterwards and
    the tally. *)
Definition linkUnitsFrom (units : list Unit) (specs : list UnitRefs) (t : Tally)
    : list UnitRefs * Tally :=
  fold_left
    (fun (acc : list UnitRefs * Tally) spec =>
       let r := linkSpec units (spec, acc.2) in (acc.1 ++ [r.1], r.2))
    specs ([], t).

Definition linkUnits (units : list Unit) (specs : list UnitRefs)
    : list UnitRefs * Tally :=
  linkUnitsFrom units specs emptyTally.

(** The unit references of a spec type that the loop looks up. *)
Definition references (spec : UnitRefs) : list string :=
  match primaryUnit spec with
  | Some ref => if JS.truthy ref then [ref] else []
  | None => []
  end ++ default [] (alternateUnits spec).

(** The spec type after linking; the tally plays no part in it. *)
Definition linkedSpec (units : list Unit) (spec : UnitRefs) : UnitRefs :=
  (linkSpec units (spec, emptyTally)).1.

(** What one looked-up reference does to the tally. *)
Definition tallyRef (units : list Unit) (t : Tally) (ref : string) : Tally :=
  match findUnitBySymbol ref units with
  | Some _ => countLinked t
  | None => countUnmatched ref t
  end.

(** The reference resolves to a unit. *)
Definition resolves (units : list Unit) (ref : string) : Prop :=
  is_Some (findUnitBySymbol ref units).

End Linking.

(** ** postprocess/generateCustomConversions: the registration of the
       classified groups *)
Module Registration.
Import Builtins Collector.

(** The class [a-z0-9]. *)
Definition isSlugChar (c : ascii) : bool :=
  let n := nat_of_ascii c in
  (Nat.leb 97 n && Nat.leb n 122) || (Nat.leb 48 n && Nat.leb n 57).

(** [s.replace(/[^a-z0-9]+/g, '-')]: [inRun] tells that the previous
    character was outside the class, so that the run it belongs to has
    already given its dash. *)
Fixpoint replaceRuns (inRun : bool) (s : string) : string :=
  match s with
  | EmptyString => EmptyString
  | String c r =>
      if isSlugChar c then String c (replaceRuns false r)
      else if inRun then replaceRuns true r
      else String "-"%char (replaceRuns true r)
  end.

(** ['ug-' + groupName.toLowerCase().replace(/[^a-z0-9]+/g, '-')]. *)
Definition groupIdOf (groupName : string) : string :=
  "ug-" +:+ replaceRuns false (JS.toLowerCase groupName).

Definition withUnitIds (g : UnitGroup) (ids : list string) : UnitGroup :=
  {| group_id := group_id g; group_name := group_name g;
     group_description := group_description g;
     unitIds := ids; conversions := conversions g |}.

Definition withGroupId (u : Unit) (groupId : string) : Unit :=
  {| unit_id := unit_id u; symbol := symbol u; unit_name := unit_name u;
     abbreviations := abbreviations u; unitGroupId := groupId |}.

(** [unitGroups.find(g => g.id === groupId)], then the new group pushed or
    the union of the identifiers stored in the group found. *)
Fixpoint registerGroup (groupId groupName : string) (ids : list string)
    (unitGroups : list UnitGroup) : list UnitGroup :=
  match unitGroups with
  | [] =>
      [ {| group_id := groupId; group_name := groupName;
           group_description := "Custom MEP " +:+ groupName;
           unitIds := ids; conversions := [] |} ]
  | g :: rest =>
      if decide (group_id g = groupId)
      then withUnitIds g (setOfList (unitIds g ++ ids)) :: rest
      else g :: registerGroup groupId groupName ids rest
  end.

(** [unit = allUnits.find(u => u.id === unitId); if (unit) unit.unitGroupId
    = groupId]. *)
Fixpoint assignUnit (groupId unitId : string) (allUnits : list Unit) : list Unit :=
  match allUnits with
  | [] => []
  | u :: rest =>
      if decide (unit_id u = unitId) then withGroupId u groupId :: rest
      else u :: assignUnit groupId unitId rest
  end.

(** The body of the loop over the entries of [groupsClassified]. *)
Definition registerEntry (st : list Unit * list UnitGroup)
    (entry : string * list string) : list Unit * list UnitGroup :=
  let groupId := groupIdOf entry.1 in
  (fold_left (fun us unitId => assignUnit groupId unitId us) entry.2 st.1,
   registerGroup groupId entry.1 entry.2 st.2).

(** The start of phase 2: the units and the groups after the loop. *)
Definition registerGroups (cp : Checkpoint) (allUnits : list Unit)
    (unitGroups : list UnitGroup) : list Unit * list UnitGroup :=
  fold_left registerEntry (groupsClassified cp) (allUnits, unitGroups).

(** The identifiers recorded by the classification. *)
Definition classifiedIds (cp : Checkpoint) : list string :=
  concat (groupsClassified cp).*2.

(** A character of a group identifier. *)
Definition isIdChar (c : ascii) : bool := isSlugChar c || bool_decide (c = "-"%char).

(** A group after the registration: the same group, with more unit
    identifiers at most. *)
Definition extends (g g' : UnitGroup) : Prop :=
  group_id g' = group_id g /\ group_name g' = group_name g /\
  group_description g' = group_description g /\
  conversions g' = conversions g /\
  unitIds g ⊆ unitIds g'.

(** A unit after the registration: the same unit, or the unit with the same
    identifier, symbol, name and abbreviations and with the group identifier
    derived from one of the classified names. *)
Definition relabelled (names : list string) (u u' : Unit) : Prop :=
  u' = u \/
  exists name, name ∈ names /\
    u' = {| unit_id := unit_id u; symbol := symbol u; unit_name := unit_name u;
            abbreviations := abbreviations u; unitGroupId := groupIdOf name |}.

(** An equation that the merge loop may push for [fromUnit]: it starts at
    that unit, ends at a unit of the group, and carries validated data. *)
Definition mergedEdge (groupUnits : list Unit) (e : ConversionEquation) : Prop :=
  exists fromUnit toUnit,
    fromUnit ∈ groupUnits /\ toUnit ∈ groupUnits /\
    fromUnitId e = unit_id fromUnit /\ toUnitId e = unit_id toUnit /\
    conv_description e = symbol fromUnit +:+ " to " +:+ symbol toUnit /\
    PrimFloat.leb (multiplier e) 0 = false /\
    JS.isFinite (multiplier e) = true /\
    JS.includesChar "x"%char (equation e) = true.

(** What the merge did between two states of a group. *)
Definition mergedInto (groupUnits : list Unit)
    (before after : nat * list ConversionEquation) : Prop :=
  exists added,
    after.2 = before.2 ++ added /\
    after.1 = before.1 + length added /\
    Forall (mergedEdge groupUnits) added /\
    (Closure.uniquePairs before.2 -> Closure.uniquePairs after.2).

End Registration.

(** ** postprocess/cleanupDuplicates: the batches sent to the Oracle *)
Module DuplicateBatches.
Import Duplicates.

(** The batches that the loop of [batchDetectDuplicates] sends, in order;
    [fuel] bounds their number. *)
Fixpoint batchesFrom (fuel : nat) (candidates : list Candidate) (i : nat)
    : list (list Candidate) :=
  match fuel with
  | O => []
  | S fuel' =>
      if Nat.ltb i (length candidates)
      then batchAt candidates i :: batchesFrom fuel' candidates (i + batchSize)
      else []
  end.

Definition batches (candidates : list Candidate) : list (list Candidate) :=
  batchesFrom (length candidates) candidates 0.

End DuplicateBatches.

(** ** utils/fileManager: the master file of the spec types *)
Module MasterFile.
Import Collector.

(** [data.specTypes || []]. *)
Definition specTypesOf (data : Json) : Result Json :=
  bindResult (getProperty data "specTypes") (fun field =>
    match field with
    | Some v => if jsonTruthy v then Ok v else Ok (JArray [])
    | None => Ok (JArray [])
    end).

(** The [try] block of [loadMasterSpecTypes]. *)
Definition loadMasterTry (JSON_parse : string -> Result Json) (file : FileState)
    : Result Json :=
  bindResult (readFileSync file) (fun content =>
  bindResult (JSON_parse content) specTypesOf).

Definition loadMasterSpecTypes (JSON_parse : string -> Result Json)
    (file : FileState) : Json :=
  if existsSync file then
    match loadMasterTry JSON_parse file with
    | Ok specTypes => specTypes
    | Throw => JArray []
    end
  else JArray [].

(** The object that is written to the master file. *)
Definition masterData (now : string) (specTypes : list Json) : Json :=
  JObject [("specTypes", JArray specTypes);
           ("metadata",
            JObject [("lastUpdated", JString now);
                     ("totalCount", JNumber (JS.ofNat (length specTypes)))])].

(** [saveSpecTypeToMaster]: the file afterwards and how the call ends.
    [existing.push] throws when the loaded value is not an array, before
    anything is written; the message of the last line reads
    [specType.primaryName], after the file is written. *)
Definition saveSpecTypeToMaster (JSON_parse : string -> Result Json)
    (JSON_stringify : Json -> string) (now : string) (specType : Json)
    (file : FileState) : FileState * Result unit :=
  match loadMasterSpecTypes JSON_parse file with
  | JArray existing =>
      (Content (JSON_stringify (masterData now (existing ++ [specType]))),
       bindResult (getProperty specType "primaryName") (fun _ => Ok tt))
  | _ => (file, Throw)
  end.

(** [clearMasterFile]. *)
Definition clearMasterFile (JSON_stringify : Json -> string) (now : string)
    (file : FileState) : FileState :=
  if existsSync file then Content (JSON_stringify (masterData now []))
  else file.

(** The parsed file holds a usable list under [specTypes]. *)
Definition holdsSpecTypes (data : Json) (v : Json) : Prop :=
  match data with
  | JObject fields => lookupField "specTypes" fields = Some v /\ jsonTruthy v = true
  | _ => False
  end.

(** *** Example *)

Definition airflow : Json := JObject [("primaryName", JString "Airflow")].

(** A parser that reads the text written for the first save. *)
Definition firstSaveParser (text : string) : Result Json :=
  Ok (masterData "2025-01-01T00:00:00.000Z" [airflow]).

End MasterFile.

(** ** utils/claude: generateUUID *)
Module Uuid.
Import Builtins.

(** The digit of a value below sixteen. *)
Definition hexDigit (v : nat) : ascii :=
  match v with
  | 0 => "0" | 1 => "1" | 2 => "2" | 3 => "3" | 4 => "4" | 5 => "5" | 6 => "6"
  | 7 => "7" | 8 => "8" | 9 => "9" | 10 => "a" | 11 => "b" | 12 => "c"
  | 13 => "d" | 14 => "e" | _ => "f"
  end%char.

(** [v.toString(16)] for a non-negative integer; [fuel] bounds the number of
    digits. *)
Fixpoint toHex (fuel v : nat) (acc : string) : string :=
  match fuel with
  | O => acc
  | S fuel' =>
      let acc' := String (hexDigit (v mod 16)) acc in
      if Nat.eqb (v / 16) 0 then acc' else toHex fuel' (v / 16) acc'
  end.

Definition toString16 (v : nat) : string := toHex (S v) v EmptyString.

Definition template : string := "xxxxxxxx-xxxx-4xxx-yxxx-xxxxxxxxxxxx".

(** The callback of [replace]: [r] is [(Math.random() * 16) | 0]. *)
Definition digitFor (c : ascii) (r : nat) : string :=
  let v := if decide (c = "x"%char) then r else Nat.lor (Nat.land r 3) 8 in
  toString16 v.

(** [t.replace(/[xy]/g, callback)]: [draw k] is the value of
    [(Math.random() * 16) | 0] at the [k]-th call of [Math.random]; the
    result is the text and the number of calls made so far. *)
Fixpoint fill (draw : nat -> nat) (k : nat) (t : string) : string * nat :=
  match t with
  | EmptyString => (EmptyString, k)
  | String c rest =>
      if decide (c = "x"%char \/ c = "y"%char) then
        let r := fill draw (S k) rest in
        (digitFor c (draw k) +:+ r.1, r.2)
      else
        let r := fill draw k rest in
        (String c r.1, r.2)
  end.

Definition generateUUID (draw : nat -> nat) (k : nat) : string * nat :=
  fill draw k template.

(** A character of an identifier: a hexadecimal digit or a dash. *)
Definition isUuidChar (c : ascii) : bool :=
  let n := nat_of_ascii c in
  (Nat.leb 48 n && Nat.leb n 57) || (Nat.leb 97 n && Nat.leb n 102)
  || Nat.eqb n 45.

(** The number of placeholders among the first [i] characters of [t]: the
    number of draws made before the position [i] is reached. *)
Fixpoint placeholdersBefore (i : nat) (t : string) : nat :=
  match i, t with
  | S i', String c rest =>
      (if decide (c = "x"%char \/ c = "y"%char) then 1 else 0)
      + placeholdersBefore i' rest
  | _, _ => 0
  end.

(** The run time whose identifiers come from [generateUUID]. *)
Definition uuidStream (draw : nat -> nat) (n : nat) : string :=
  (generateUUID draw (31 * n)).1.

End Uuid.

(** ** utils/claude: askClaudeJSON *)
Module Fences.
Import Collector.

Definition fence : string := "```".
Definition jsonFence : string := "```json".
Definition backtick : ascii := "`"%char.

(** The text after [p] when [s] starts with [p]. *)
Fixpoint afterPrefix (p s : string) : option string :=
  match p, s with
  | EmptyString, _ => Some s
  | String a p', String b s' => if decide (a = b) then afterPrefix p' s' else None
  | String _ _, EmptyString => None
  end.

(** [s.startsWith(p)]. *)
Definition startsWith (p s : string) : bool :=
  match afterPrefix p s with Some _ => true | None => false end.

Fixpoint allSpace (s : string) : bool :=
  match s with
  | EmptyString => true
  | String c r => JS.isSpace c && allSpace r
  end.

(** [s.replace(/^p\s*/, '')] for a literal [p]. *)
Definition stripOpening (p s : string) : string :=
  match afterPrefix p s with
  | Some rest => JS.trimStart rest
  | None => s
  end.

(** The pattern [/```\s*$/] matches at the start of [s]. *)
Definition closes (s : string) : bool :=
  match afterPrefix fence s with
  | Some rest => allSpace rest
  | None => false
  end.

(** [s.replace(/```\s*$/, '')]: the leftmost match is removed. *)
Fixpoint stripClosing (s : string) : string :=
  match s with
  | EmptyString => EmptyString
  | String c r => if closes s then EmptyString else String c (stripClosing r)
  end.

(** "Remove markdown code blocks if present". *)
Definition unfence (jsonText : string) : string :=
  if startsWith jsonFence jsonText
  then stripClosing (stripOpening jsonFence jsonText)
  else if startsWith fence jsonText
  then stripClosing (stripOpening fence jsonText)
  else jsonText.

(** [askClaudeJSON] on the text that [askClaude] returned; a failure of
    [JSON.parse] is thrown again. *)
Definition askClaudeJSON (JSON_parse : string -> Result Json) (response : string)
    : Result Json :=
  let jsonText := unfence (JS.trim response) in
  match JSON_parse jsonText with
  | Ok v => Ok v
  | Throw => Throw
  end.

End Fences.

(** ** utils/validator: the checks of validateSpecTypes on the names *)
Module Validator.

Definition lowerName (spec : SpecType) : string :=
  JS.toLowerCase (primaryName spec).

(** The body of the loop "Check for exact name duplicates"; the state is
    [nameMap] and [report.exactDuplicates]. *)
Definition checkName (st : gmap string SpecType * list (string * string))
    (spec : SpecType) : gmap string SpecType * list (string * string) :=
  match st.1 !! lowerName spec with
  | Some first => (st.1, st.2 ++ [(primaryName first, primaryName spec)])
  | None => (<[lowerName spec := spec]> st.1, st.2)
  end.

Definition checkNames (specTypes : list SpecType)
    : gmap string SpecType * list (string * string) :=
  fold_left checkName specTypes (∅, []).

(** [report.exactDuplicates]: the pairs (specType1, specType2). *)
Definition exactDuplicates (specTypes : list SpecType) : list (string * string) :=
  (checkNames specTypes).2.

(** [report.missingAlternateNames]. *)
Definition missingAlternateNames (specTypes : list SpecType) : list string :=
  primaryName <$>
    filter (fun spec => length (alternateNames spec) = 0) specTypes.

Definition sameLower (k : string) (spec : SpecType) : bool :=
  bool_decide (lowerName spec = k).

(** *** The semantic check *)

(** An entry of [report.semanticDuplicates]. *)
Record NamedDuplicate := mkNamedDuplicate {
  specType1 : string;
  specType2 : string;
  nd_similarity : float;
  nd_reason : string
}.

(** The Oracle for one pair: the parsed answer, or [None] when the call or
    the parsing fails. *)
Definition PairOracle := SpecType -> SpecType -> option Duplicates.Verdict.

(** The body of the inner loop of [detectSemanticDuplicates]; the state is
    [duplicates] and the pairs sent to the Oracle so far. *)
Definition comparePair (oracle : PairOracle) (spec1 spec2 : SpecType)
    (st : list NamedDuplicate * list (SpecType * SpecType))
    : list NamedDuplicate * list (SpecType * SpecType) :=
  (match oracle spec1 spec2 with
   | Some result =>
       if Duplicates.accepted result
       then st.1 ++ [ {| specType1 := primaryName spec1;
                         specType2 := primaryName spec2;
                         nd_similarity := Duplicates.similarity result;
                         nd_reason := Duplicates.reason result |} ]
       else st.1
   | None => st.1
   end,
   st.2 ++ [(spec1, spec2)]).

(** "Compare all pairs": [for i], [for j = i + 1]. *)
Fixpoint compareAll (oracle : PairOracle) (specTypes : list SpecType)
    (st : list NamedDuplicate * list (SpecType * SpecType))
    : list NamedDuplicate * list (SpecType * SpecType) :=
  match specTypes with
  | [] => st
  | spec1 :: rest =>
      compareAll oracle rest
        (fold_left (fun st spec2 => comparePair oracle spec1 spec2 st) rest st)
  end.

Definition detectSemanticDuplicates (oracle : PairOracle)
    (specTypes : list SpecType)
    : list NamedDuplicate * list (SpecType * SpecType) :=
  compareAll oracle specTypes ([], []).

(** [report.semanticDuplicates] and the requests made for it. *)
Definition semanticDuplicates (oracle : PairOracle) (specTypes : list SpecType)
    : list NamedDuplicate * list (SpecType * SpecType) :=
  if Nat.ltb 1 (length specTypes) then detectSemanticDuplicates oracle specTypes
  else ([], []).

(** The pairs of a list, each spec type with the later ones. *)
Fixpoint pairs (l : list SpecType) : list (SpecType * SpecType) :=
  match l with
  | [] => []
  | a :: rest => ((fun b => (a, b)) <$> rest) ++ pairs rest
  end.

(** The entry that a pair gets, if any. *)
Definition reportOf (oracle : PairOracle) (p : SpecType * SpecType)
    : option NamedDuplicate :=
  match oracle p.1 p.2 with
  | Some result =>
      if Duplicates.accepted result
      then Some {| specType1 := primaryName p.1; specType2 := primaryName p.2;
                   nd_similarity := Duplicates.similarity result;
                   nd_reason := Duplicates.reason result |}
      else None
  | None => None
  end.

End Validator.

(** ** Facts about lists and loops *)
Module ListFacts.

Lemma fold_left_bind {A B C} (f : C -> B -> C) (g : A -> list B) l c :
  fold_left f (l ≫= g) c = fold_left (fun c x => fold_left f (g x) c) l c.
Proof.
  revert c. induction l as [|x l IH]; intros c; [done|].
  rewrite bind_cons, fold_left_app. apply IH.
Qed.

Lemma fold_left_ext_in {A B} (f g : B -> A -> B) l b :
  (forall b x, x ∈ l -> f b x = g b x) -> fold_left f l b = fold_left g l b.
Proof.
  revert b. induction l as [|x l IH]; intros b H; [done|].
  simpl. rewrite H by left. apply IH. intros; apply H. by right.
Qed.

Lemma find_first {A} (P : A -> bool) (l : list A) x :
  find P l = Some x <->
  exists l1 l2, l = l1 ++ x :: l2 /\ P x = true /\ forall y, y ∈ l1 -> P y = false.
Proof.
  split.
  - induction l as [|a l IH]; [done|]. simpl.
    destruct (P a) eqn:Ha.
    + intros [= ->]. exists [], l. split; [done|]. split; [done|].
      intros y Hy. by apply elem_of_nil in Hy.
    + intros H. destruct (IH H) as (l1 & l2 & -> & Hx & Hl1).
      exists (a :: l1), l2. split; [done|]. split; [done|].
      intros y Hy. apply elem_of_cons in Hy as [->|Hy]; auto.
  - intros (l1 & l2 & -> & Hx & Hl1).
    induction l1 as [|a l1 IH]; simpl.
    + by rewrite Hx.
    + rewrite (Hl1 a) by left. apply IH. intros y Hy. apply Hl1. by right.
Qed.

Lemma find_nothing {A} (P : A -> bool) (l : list A) :
  find P l = None <-> forall y, y ∈ l -> P y = false.
Proof.
  split.
  - intros H y Hy. apply (find_none _ _ H). by apply list_elem_of_In.
  - intros H. induction l as [|a l IH]; [done|]. simpl.
    rewrite (H a) by left. apply IH. intros y Hy. apply H. by right.
Qed.

Lemma filter_none {A} (P : A -> Prop) `{!forall x, Decision (P x)} (l : list A) :
  (forall x, x ∈ l -> ~ P x) -> filter P l = [].
Proof.
  intros Hno. destruct (filter P l) as [|x k] eqn:Heq; [done|].
  assert (Hx : x ∈ filter P l) by (rewrite Heq; left).
  apply list_elem_of_filter in Hx as [HP Hx]. by destruct (Hno x).
Qed.

Lemma find_Some_elem {A} (P : A -> bool) (l : list A) e :
  find P l = Some e -> e ∈ l /\ P e = true.
Proof. intros H. apply find_some in H as [H1 H2]. by apply list_elem_of_In in H1. Qed.

Lemma find_None_elem {A} (P : A -> bool) (l : list A) e :
  find P l = None -> e ∈ l -> P e = false.
Proof. intros H Hin. apply (find_none _ _ H). by apply list_elem_of_In. Qed.

End ListFacts.

(** ** Facts about the closure *)
Module ClosureFacts.
Import Closure ListFacts.

Lemma convKey_inj a b c d :
  arrowFree a -> arrowFree c -> convKey a b = convKey c d -> a = c /\ b = d.
Proof.
  unfold convKey, arrowFree. revert c.
  induction a as [|x a IH]; intros [|y c] Ha Hc Heq;
    cbv [String.append arrow] in Heq; simpl in Ha, Hc.
  - injection Heq as ->. done.
  - injection Heq as <- _. by rewrite decide_True in Hc.
  - injection Heq as -> _. by rewrite decide_True in Ha.
  - injection Heq as -> Heq.
    destruct (decide (arrowLead = y)); [done|].
    destruct (IH c Ha Hc Heq) as [-> ->]. done.
Qed.

Lemma seedDirect_app l1 l2 m :
  seedDirect (l1 ++ l2) m = seedDirect l2 (seedDirect l1 m).
Proof. apply fold_left_app. Qed.

Lemma seedDirect_other l m key :
  (forall e, e ∈ l -> convKey (fromUnitId e) (toUnitId e) <> key) ->
  seedDirect l m !! key = m !! key.
Proof.
  revert m. induction l as [|e l IH]; intros m Hne; [done|].
  simpl. rewrite IH.
  - apply lookup_insert_ne. apply Hne. left.
  - intros e' He'. apply Hne. by right.
Qed.

Lemma seedDirect_is_Some l m key :
  is_Some (m !! key) -> is_Some (seedDirect l m !! key).
Proof.
  revert m. induction l as [|e l IH]; intros m Hm; [done|].
  simpl. apply IH. rewrite lookup_insert. case_decide; [by eexists|done].
Qed.

Lemma seedIdentity_other units m key :
  (forall u, u ∈ units -> convKey (unit_id u) (unit_id u) <> key) ->
  seedIdentity units m !! key = m !! key.
Proof.
  revert m. induction units as [|u units IH]; intros m Hne; [done|].
  simpl. rewrite IH.
  - apply lookup_insert_ne. apply Hne. left.
  - intros u' Hu'. apply Hne. by right.
Qed.

Lemma seedIdentity_keep_one units m key :
  m !! key = Some 1%float -> seedIdentity units m !! key = Some 1%float.
Proof.
  revert m. induction units as [|u units IH]; intros m Hm; [done|].
  simpl. apply IH. rewrite lookup_insert. by case_decide.
Qed.

Lemma seedIdentity_unit units m u :
  u ∈ units ->
  seedIdentity units m !! convKey (unit_id u) (unit_id u) = Some 1%float.
Proof.
  revert m. induction units as [|v units IH]; intros m Hu.
  - by apply elem_of_nil in Hu.
  - simpl. apply elem_of_cons in Hu as [->|Hu].
    + apply seedIdentity_keep_one, lookup_insert_eq.
    + by apply IH.
Qed.

(** *** The triple loop *)

Lemma relax_triples units m :
  relax units m = fold_left relaxTriple (triples units) m.
Proof.
  unfold relax, triples. rewrite fold_left_bind.
  apply fold_left_ext_in. intros m1 k _.
  rewrite fold_left_bind. apply fold_left_ext_in. intros m2 i _.
  rewrite fold_left_bind. apply fold_left_ext_in. intros m3 j _. done.
Qed.

Lemma elem_of_triples units k i j :
  (k, i, j) ∈ triples units <-> k ∈ units /\ i ∈ units /\ j ∈ units.
Proof.
  unfold triples. rewrite list_elem_of_bind. split.
  - intros (k' & H & Hk). apply list_elem_of_bind in H as (i' & H & Hi).
    apply list_elem_of_bind in H as (j' & H & Hj).
    apply list_elem_of_singleton in H. by simplify_eq.
  - intros (Hk & Hi & Hj). exists k. split; [|done].
    apply list_elem_of_bind. exists i. split; [|done].
    apply list_elem_of_bind. exists j. split; [|done].
    by apply list_elem_of_singleton.
Qed.

(** What one iteration does to the table. *)
Lemma relaxStep_cases k i j (m : gmap string float) :
  relaxStep k i j m = m \/
  exists ikMult kjMult,
    m !! convKey (unit_id i) (unit_id k) = Some ikMult /\
    m !! convKey (unit_id k) (unit_id j) = Some kjMult /\
    m !! convKey (unit_id i) (unit_id j) = None /\
    relaxStep k i j m =
      <[convKey (unit_id i) (unit_id j) := (ikMult * kjMult)%float]> m.
Proof.
  unfold relaxStep.
  destruct (m !! convKey (unit_id i) (unit_id k)) as [a|] eqn:Hik; [|by left].
  destruct (m !! convKey (unit_id k) (unit_id j)) as [b|] eqn:Hkj; [|by left].
  destruct (m !! convKey (unit_id i) (unit_id j)) as [c|] eqn:Hij; [by left|].
  right. by exists a, b.
Qed.

Lemma relaxStep_keep k i j (m : gmap string float) key v :
  m !! key = Some v -> relaxStep k i j m !! key = Some v.
Proof.
  intros Hm. destruct (relaxStep_cases k i j m) as [->|(a & b & _ & _ & Hij & ->)].
  - done.
  - rewrite lookup_insert_ne; [done|]. intros <-. congruence.
Qed.

Lemma relaxTriples_keep ts (m : gmap string float) key v :
  m !! key = Some v -> fold_left relaxTriple ts m !! key = Some v.
Proof.
  revert m. induction ts as [|t ts IH]; intros m Hm; [done|].
  simpl. apply IH. by apply relaxStep_keep.
Qed.

(** When both factors are known the pair is known after the iteration. *)
Lemma relaxStep_known k i j (m : gmap string float) a b :
  m !! convKey (unit_id i) (unit_id k) = Some a ->
  m !! convKey (unit_id k) (unit_id j) = Some b ->
  is_Some (relaxStep k i j m !! convKey (unit_id i) (unit_id j)).
Proof.
  intros Hik Hkj. unfold relaxStep. rewrite Hik, Hkj.
  destruct (m !! convKey (unit_id i) (unit_id j)) as [c|] eqn:Hij.
  - rewrite Hij. by eexists.
  - rewrite lookup_insert_eq. by eexists.
Qed.

(** With three identifiers [a], [b], [c] the pair (a, c), unknown when the
    loop starts, can only be derived through [b]. *)
Section ThreeUnits.
Variables (a b c : string) (x y : float).
Hypothesis Ha : arrowFree a.
Hypothesis Hb : arrowFree b.
Hypothesis Hc : arrowFree c.

Lemma among_arrowFree u : among a b c u -> arrowFree (unit_id u).
Proof. by intros [->|[->| ->]]. Qed.

Lemma through_step k i j m :
  among a b c k -> among a b c i -> among a b c j ->
  through a b c x y m -> through a b c x y (relaxStep k i j m).
Proof.
  intros Hk Hi Hj (H1 & H2 & H3).
  split; [by apply relaxStep_keep|]. split; [by apply relaxStep_keep|].
  destruct (relaxStep_cases k i j m) as [->|(p & q & Hik & Hkj & Hij & ->)]; [done|].
  destruct (decide (convKey (unit_id i) (unit_id j) = convKey a c)) as [Heq|Hne].
  - apply convKey_inj in Heq as [Hia Hjc]; [|by apply among_arrowFree|done].
    rewrite Hia, Hjc in *. right. rewrite lookup_insert_eq.
    destruct Hk as [Hk|[Hk|Hk]]; rewrite Hk in *; congruence.
  - rewrite lookup_insert_ne by done. done.
Qed.

Lemma through_steps ts m :
  Forall (fun t => among a b c t.1.1 /\ among a b c t.1.2 /\ among a b c t.2) ts ->
  through a b c x y m -> through a b c x y (fold_left relaxTriple ts m).
Proof.
  revert m. induction ts as [|t ts IH]; intros m Hts Hm; [done|].
  apply Forall_cons in Hts as [(Hk & Hi & Hj) Hts].
  simpl. apply IH; [done|]. by apply through_step.
Qed.

Lemma relax_through units m uA uB uC :
  Forall (among a b c) units ->
  uA ∈ units -> uB ∈ units -> uC ∈ units ->
  unit_id uA = a -> unit_id uB = b -> unit_id uC = c ->
  m !! convKey a b = Some x -> m !! convKey b c = Some y ->
  m !! convKey a c = None ->
  relax units m !! convKey a c = Some (x * y)%float.
Proof.
  intros Hall HA HB HC Hida Hidb Hidc H1 H2 H3.
  rewrite relax_triples.
  assert (Hts : Forall (fun t => among a b c t.1.1 /\ among a b c t.1.2 /\ among a b c t.2)
                  (triples units)).
  { apply Forall_forall. intros [[k i] j] Hin.
    apply elem_of_triples in Hin as (Hk & Hi & Hj).
    rewrite Forall_forall in Hall. simpl. auto. }
  assert (Hin : (uB, uA, uC) ∈ triples units) by by apply elem_of_triples.
  apply list_elem_of_split in Hin as (ts1 & ts2 & Heq). rewrite Heq in *.
  apply Forall_app in Hts as [Hts1 Hts2].
  apply Forall_cons in Hts2 as [(Hk & Hi & Hj) Hts2].
  rewrite fold_left_app. simpl.
  assert (Hm1 : through a b c x y (fold_left relaxTriple ts1 m)).
  { apply through_steps; [done|]. unfold through. auto. }
  pose proof (through_step uB uA uC _ Hk Hi Hj Hm1) as (G1 & G2 & G3).
  apply relaxTriples_keep. unfold relaxTriple at 1. simpl.
  destruct Hm1 as (F1 & F2 & _).
  destruct (relaxStep_known uB uA uC (fold_left relaxTriple ts1 m) x y) as [v Hv].
  { by rewrite Hida, Hidb. }
  { by rewrite Hidb, Hidc. }
  rewrite Hida, Hidc in Hv. destruct G3 as [G3|G3]; congruence.
Qed.
End ThreeUnits.

(** *** The output loop *)

Lemma samePair_true a b e :
  samePair a b e = true <-> fromUnitId e = a /\ toUnitId e = b.
Proof.
  unfold samePair. rewrite andb_true_iff, !bool_decide_eq_true. done.
Qed.

Lemma emitPair_cases rt ex T f t st :
  emitPair rt ex T f t st = st \/
  (unit_id f <> unit_id t /\
   exists m, T !! convKey (unit_id f) (unit_id t) = Some m /\
     ((exists e, find (samePair (unit_id f) (unit_id t)) ex = Some e /\
                 emitPair rt ex T f t st = (st.1, st.2 ++ [e])) \/
      (find (samePair (unit_id f) (unit_id t)) ex = None /\
       emitPair rt ex T f t st =
         (S st.1, st.2 ++ [derivedConversion rt st.1 f t m])))).
Proof.
  unfold emitPair. case_bool_decide as Hid; [by left|].
  destruct (T !! convKey (unit_id f) (unit_id t)) as [m|]; [|by left].
  right. split; [done|]. exists m. split; [done|].
  destruct (find _ ex) as [e|]; [left|right]; eauto.
Qed.

Lemma emitRow_elem rt ex T units f ts st e :
  f ∈ units -> ts ⊆ units ->
  e ∈ (emitRow rt ex T ts f st).2 -> e ∈ st.2 \/ produced rt ex T units e.
Proof.
  intros Hf. unfold emitRow. revert st.
  induction ts as [|t ts IH]; intros st Hsub He; [by left|].
  simpl in He. apply IH in He; [|set_solver].
  destruct He as [He|He]; [|by right].
  destruct (emitPair_cases rt ex T f t st)
    as [Heq|(Hid & m & Hm & [(e' & Hfind & Heq)|(Hfind & Heq)])];
    rewrite Heq in He; [by left| |]; simpl in He;
    apply elem_of_app in He as [He|He]; [by left| |by left|];
    apply list_elem_of_singleton in He as ->; right;
    exists f, t; (split; [done|]); (split; [set_solver|]); (split; [done|]);
    exists m; (split; [done|]); [by left|right; eauto].
Qed.

Lemma emitRows_elem rt ex T units fs st e :
  fs ⊆ units ->
  e ∈ (fold_left (fun st f => emitRow rt ex T units f st) fs st).2 ->
  e ∈ st.2 \/ produced rt ex T units e.
Proof.
  revert st. induction fs as [|f fs IH]; intros st Hsub He; [by left|].
  simpl in He. apply IH in He; [|set_solver].
  destruct He as [He|He]; [|by right].
  apply (emitRow_elem rt ex T units) in He; [done|set_solver|done].
Qed.

Lemma emitPair_keep rt ex T f t st e :
  e ∈ st.2 -> e ∈ (emitPair rt ex T f t st).2.
Proof.
  intros He. destruct (emitPair_cases rt ex T f t st)
    as [->|(_ & m & _ & [(e' & _ & ->)|(_ & ->)])]; [done| |];
    simpl; apply elem_of_app; by left.
Qed.

Lemma emitRow_keep rt ex T ts f st e :
  e ∈ st.2 -> e ∈ (emitRow rt ex T ts f st).2.
Proof.
  unfold emitRow. revert st. induction ts as [|t ts IH]; intros st He; [done|].
  simpl. apply IH. by apply emitPair_keep.
Qed.

Lemma emitRows_keep rt ex T units fs st e :
  e ∈ st.2 -> e ∈ (fold_left (fun st f => emitRow rt ex T units f st) fs st).2.
Proof.
  revert st. induction fs as [|f fs IH]; intros st He; [done|].
  simpl. apply IH. by apply emitRow_keep.
Qed.

Lemma emitRow_complete rt ex T ts f t st m :
  t ∈ ts -> unit_id f <> unit_id t ->
  T !! convKey (unit_id f) (unit_id t) = Some m ->
  exists e, e ∈ (emitRow rt ex T ts f st).2 /\
    (find (samePair (unit_id f) (unit_id t)) ex = Some e \/
     (find (samePair (unit_id f) (unit_id t)) ex = None /\
      exists n, e = derivedConversion rt n f t m)).
Proof.
  intros Ht Hid Hm. revert st. induction ts as [|t' ts IH]; intros st.
  - by apply elem_of_nil in Ht.
  - apply elem_of_cons in Ht as [<-|Ht]; [|by apply IH].
    unfold emitRow. simpl. fold (emitRow rt ex T ts f).
    destruct (emitPair_cases rt ex T f t st)
      as [Heq|(_ & m' & Hm' & [(e' & Hfind & Heq)|(Hfind & Heq)])].
    + exfalso. unfold emitPair in Heq.
      rewrite bool_decide_eq_false_2, Hm in Heq by done.
      destruct (find _ ex); apply (f_equal (fun p => length p.2)) in Heq;
        simpl in Heq; rewrite length_app in Heq; simpl in Heq; lia.
    + exists e'. split; [|by left].
      apply emitRow_keep. rewrite Heq. simpl. apply elem_of_app. right. left.
    + exists (derivedConversion rt st.1 f t m). split; [|right; eauto].
      apply emitRow_keep. rewrite Heq. simpl. apply elem_of_app. right.
      replace m' with m by congruence. left.
Qed.

Lemma emitRows_complete rt ex T units fs f t st m :
  f ∈ fs -> t ∈ units -> unit_id f <> unit_id t ->
  T !! convKey (unit_id f) (unit_id t) = Some m ->
  exists e,
    e ∈ (fold_left (fun st f => emitRow rt ex T units f st) fs st).2 /\
    (find (samePair (unit_id f) (unit_id t)) ex = Some e \/
     (find (samePair (unit_id f) (unit_id t)) ex = None /\
      exists n, e = derivedConversion rt n f t m)).
Proof.
  intros Hf Ht Hid Hm. revert st. induction fs as [|f' fs IH]; intros st.
  - by apply elem_of_nil in Hf.
  - apply elem_of_cons in Hf as [<-|Hf]; [|by apply IH].
    destruct (emitRow_complete rt ex T units f t st m Ht Hid Hm) as (e & He & Hcase).
    exists e. split; [|done]. simpl. by apply emitRows_keep.
Qed.

(** Every pair of distinct identifiers with a known multiplier has an
    equation in the output. *)
Lemma emitAll_complete rt ex T units f t st m :
  f ∈ units -> t ∈ units -> unit_id f <> unit_id t ->
  T !! convKey (unit_id f) (unit_id t) = Some m ->
  exists e, e ∈ (emitAll rt ex T units st).2 /\
    (find (samePair (unit_id f) (unit_id t)) ex = Some e \/
     (find (samePair (unit_id f) (unit_id t)) ex = None /\
      exists n, e = derivedConversion rt n f t m)).
Proof. apply emitRows_complete. Qed.

Lemma emitAll_elem rt ex T units st e :
  e ∈ (emitAll rt ex T units st).2 -> e ∈ st.2 \/ produced rt ex T units e.
Proof. by apply emitRows_elem. Qed.

(** *** Seeding from the persisted equations *)

(** The data model's invariant of a group's conversion list: at most one
    equation per ordered pair. *)
Lemma uniquePairs_eq cs e1 e2 :
  uniquePairs cs -> e1 ∈ cs -> e2 ∈ cs ->
  fromUnitId e1 = fromUnitId e2 -> toUnitId e1 = toUnitId e2 -> e1 = e2.
Proof.
  unfold uniquePairs. induction cs as [|c cs IH]; intros Hnd H1 H2 Hf Ht.
  - by apply elem_of_nil in H1.
  - rewrite fmap_cons in Hnd. apply NoDup_cons in Hnd as [Hc Hnd].
    apply elem_of_cons in H1 as [->|H1]; apply elem_of_cons in H2 as [->|H2].
    + done.
    + exfalso. apply Hc. apply list_elem_of_fmap. exists e2.
      unfold pairOf. by rewrite Hf, Ht.
    + exfalso. apply Hc. apply list_elem_of_fmap. exists e1.
      unfold pairOf. by rewrite Hf, Ht.
    + by apply IH.
Qed.

Lemma find_samePair_unique cs e :
  uniquePairs cs -> e ∈ cs ->
  find (samePair (fromUnitId e) (toUnitId e)) cs = Some e.
Proof.
  intros Hu He.
  destruct (find _ cs) as [e'|] eqn:Hfind.
  - apply find_Some_elem in Hfind as [He' Hp]. apply samePair_true in Hp as [Hf Ht].
    f_equal. by apply (uniquePairs_eq cs).
  - apply (find_None_elem _ _ e) in Hfind; [|done].
    assert (samePair (fromUnitId e) (toUnitId e) e = true) by by apply samePair_true.
    congruence.
Qed.

Lemma seedDirect_elem_is_Some cs m e :
  e ∈ cs -> is_Some (seedDirect cs m !! convKey (fromUnitId e) (toUnitId e)).
Proof.
  intros He. apply list_elem_of_split in He as (l1 & l2 & ->).
  rewrite seedDirect_app. simpl. apply seedDirect_is_Some.
  rewrite lookup_insert_eq. by eexists.
Qed.

Lemma seedIdentity_is_Some units m key :
  is_Some (m !! key) -> is_Some (seedIdentity units m !! key).
Proof.
  revert m. induction units as [|u units IH]; intros m Hm; [done|].
  simpl. apply IH. rewrite lookup_insert. case_decide; [by eexists|done].
Qed.

Lemma relax_keep units (m : gmap string float) key v :
  m !! key = Some v -> relax units m !! key = Some v.
Proof. rewrite relax_triples. apply relaxTriples_keep. Qed.

Lemma closureTable_direct_is_Some units cs e :
  e ∈ cs ->
  is_Some (closureTable units cs !! convKey (fromUnitId e) (toUnitId e)).
Proof.
  intros He. unfold closureTable, seedTable.
  destruct (seedIdentity_is_Some units (seedDirect cs ∅)
              (convKey (fromUnitId e) (toUnitId e))) as [v Hv].
  { by apply seedDirect_elem_is_Some. }
  exists v. by apply relax_keep.
Qed.

(** The first persisted equation of a pair of distinct units of the list is
    in the output, as it is. *)
Lemma generate_keeps_first rt next units cs e :
  e ∈ cs -> fromUnitId e <> toUnitId e ->
  fromUnitId e ∈ unit_id <$> units -> toUnitId e ∈ unit_id <$> units ->
  find (samePair (fromUnitId e) (toUnitId e)) cs = Some e ->
  e ∈ generateCompleteConversions rt next units cs.
Proof.
  intros He Hne Hf Ht Hfind.
  unfold generateCompleteConversions, generateCompleteConversionsFrom.
  destruct (Nat.ltb (length units) 2); [done|].
  apply list_elem_of_fmap in Hf as (f & Hf & Hfin).
  apply list_elem_of_fmap in Ht as (t & Ht & Htin).
  destruct (closureTable_direct_is_Some units cs e He) as [m Hm].
  rewrite Hf, Ht in Hm, Hne.
  destruct (emitAll_complete rt cs (closureTable units cs) units f t (next, []) m
              Hfin Htin Hne Hm) as (e' & He' & [Hc|[Hc _]]);
    rewrite <- Hf, <- Ht in Hc; congruence.
Qed.

Lemma seedDirect_unique cs m e :
  plainConversions cs -> uniquePairs cs -> e ∈ cs ->
  seedDirect cs m !! convKey (fromUnitId e) (toUnitId e) = Some (multiplier e).
Proof.
  intros Hplain Hu He.
  apply list_elem_of_split in He as (l1 & l2 & ->).
  rewrite seedDirect_app. simpl. rewrite seedDirect_other.
  - apply lookup_insert_eq.
  - intros e' He' Hkey.
    unfold plainConversions in Hplain. rewrite Forall_forall in Hplain.
    apply convKey_inj in Hkey as [Hf Ht].
    2: { apply Hplain. apply elem_of_app. right. by right. }
    2: { apply Hplain. apply elem_of_app. right. left. }
    unfold uniquePairs in Hu. rewrite fmap_app, fmap_cons in Hu.
    apply NoDup_app in Hu as (_ & _ & Hu). apply NoDup_cons in Hu as [Hu _].
    apply Hu. apply list_elem_of_fmap. exists e'. split; [|done].
    unfold pairOf. by rewrite Hf, Ht.
Qed.

(** The seed of a direct edge between different units. *)
Lemma seedTable_direct units cs e :
  plainUnits units -> plainConversions cs -> uniquePairs cs ->
  e ∈ cs -> fromUnitId e <> toUnitId e ->
  seedTable units cs !! convKey (fromUnitId e) (toUnitId e) = Some (multiplier e).
Proof.
  intros Hpu Hpc Hu He Hne. unfold seedTable.
  rewrite seedIdentity_other; [by apply seedDirect_unique|].
  intros u Hin Hkey. unfold plainUnits in Hpu. rewrite Forall_forall in Hpu.
  apply convKey_inj in Hkey as [Hf Ht]; [congruence|by apply Hpu|].
  unfold plainConversions in Hpc. rewrite Forall_forall in Hpc. by apply Hpc.
Qed.

(** The seed of an identity. *)
Lemma seedTable_identity units cs u :
  u ∈ units -> seedTable units cs !! convKey (unit_id u) (unit_id u) = Some 1%float.
Proof. apply seedIdentity_unit. Qed.

(** A pair of different identifiers without direct edge has no seed. *)
Lemma seedTable_none units cs a c :
  plainUnits units -> plainConversions cs -> arrowFree a -> a <> c ->
  (forall e, e ∈ cs -> pairOf e <> (a, c)) ->
  seedTable units cs !! convKey a c = None.
Proof.
  intros Hpu Hpc Ha Hac Hno. unfold seedTable.
  unfold plainUnits in Hpu. rewrite Forall_forall in Hpu.
  unfold plainConversions in Hpc. rewrite Forall_forall in Hpc.
  rewrite seedIdentity_other, seedDirect_other; [apply lookup_empty| |].
  - intros e He Hkey. apply convKey_inj in Hkey as [Hf Ht]; [|by apply Hpc|done].
    apply (Hno e He). unfold pairOf. by rewrite Hf, Ht.
  - intros u Hu Hkey. apply convKey_inj in Hkey as [Hf Ht]; [congruence|by apply Hpu|done].
Qed.

(** A pair derived through the only possible intermediate unit. *)
Lemma generate_derived rt next units cs a b c x y uA uB uC :
  arrowFree a -> arrowFree b -> arrowFree c -> a <> c ->
  Forall (among a b c) units ->
  uA ∈ units -> uB ∈ units -> uC ∈ units ->
  unit_id uA = a -> unit_id uB = b -> unit_id uC = c ->
  seedTable units cs !! convKey a b = Some x ->
  seedTable units cs !! convKey b c = Some y ->
  seedTable units cs !! convKey a c = None ->
  (forall e, e ∈ cs -> pairOf e <> (a, c)) ->
  (exists e, e ∈ generateCompleteConversions rt next units cs /\
             edge e a c (x * y)%float) /\
  (forall e, e ∈ generateCompleteConversions rt next units cs ->
             fromUnitId e = a -> toUnitId e = c -> multiplier e = (x * y)%float).
Proof.
  intros Ha Hb Hc Hac Hall HA HB HC Hida Hidb Hidc Hx Hy Hnone Hno.
  assert (HT : closureTable units cs !! convKey a c = Some (x * y)%float).
  { unfold closureTable.
    by apply (relax_through a b c x y Ha Hb Hc units _ uA uB uC). }
  assert (Hfind : find (samePair a c) cs = None).
  { destruct (find (samePair a c) cs) as [e|] eqn:Hfind; [|done].
    apply find_Some_elem in Hfind as [He Hp]. apply samePair_true in Hp as [Hf Ht].
    exfalso. apply (Hno e He). unfold pairOf. by rewrite Hf, Ht. }
  assert (Hlen : Nat.ltb (length units) 2 = false).
  { apply Nat.ltb_ge.
    apply list_elem_of_split in HA as (l1 & l2 & ->).
    rewrite length_app. simpl.
    destruct l1 as [|v l1]; [|simpl; lia]. destruct l2 as [|v l2]; [|simpl; lia].
    apply list_elem_of_singleton in HC. congruence. }
  unfold generateCompleteConversions, generateCompleteConversionsFrom.
  rewrite Hlen. split.
  - destruct (emitAll_complete rt cs (closureTable units cs) units uA uC (next, [])
                (x * y)%float) as (e & He & Hcase); [done|done|congruence|by rewrite Hida, Hidc|].
    exists e. split; [done|]. rewrite Hida, Hidc in Hcase.
    destruct Hcase as [Hsome|[_ [n ->]]]; [congruence|].
    unfold edge. simpl. by rewrite Hida, Hidc.
  - intros e He Hfrom Hto. apply emitAll_elem in He as [He|He]; [by apply elem_of_nil in He|].
    destruct He as (f & t & Hf & Ht & Hne & m & Hm & [Hsome|[_ [n ->]]]).
    + apply find_Some_elem in Hsome as [He Hp]. apply samePair_true in Hp as [Hf' Ht'].
      exfalso. apply (Hno e He). unfold pairOf. by rewrite Hfrom, Hto.
    + simpl in *. rewrite Hfrom, Hto in Hm. congruence.
Qed.

(** *** The closure example *)

Ltac split_edges :=
  repeat match goal with
         | H : edge _ _ _ _ |- _ => destruct H as (? & ? & ?)
         end.

Ltac elem_cases H :=
  repeat (apply elem_of_cons in H as [->|H]); [..|by apply elem_of_nil in H].

Lemma three_ids (uA uB uC : Unit) :
  NoDup [unit_id uA; unit_id uB; unit_id uC] ->
  unit_id uA <> unit_id uB /\ unit_id uB <> unit_id uC /\ unit_id uA <> unit_id uC.
Proof.
  intros Hnd. apply NoDup_cons in Hnd as [H1 Hnd]. apply NoDup_cons in Hnd as [H2 _].
  rewrite !elem_of_cons in H1. rewrite elem_of_cons in H2. naive_solver.
Qed.

(** The three units in any order, with the direct edges in any order. *)
Lemma closure_example_edges rt next (uA uB uC : Unit) units existing rest eAB eBC x y :
  arrowFree (unit_id uA) -> arrowFree (unit_id uB) -> arrowFree (unit_id uC) ->
  unit_id uA <> unit_id uC ->
  units ≡ₚ [uA; uB; uC] ->
  existing ≡ₚ eAB :: eBC :: rest ->
  plainConversions existing -> uniquePairs existing ->
  edge eAB (unit_id uA) (unit_id uB) x ->
  edge eBC (unit_id uB) (unit_id uC) y ->
  unit_id uA <> unit_id uB -> unit_id uB <> unit_id uC ->
  (forall e, e ∈ existing -> pairOf e <> (unit_id uA, unit_id uC)) ->
  (exists e, e ∈ generateCompleteConversions rt next units existing /\
             edge e (unit_id uA) (unit_id uC) (x * y)%float) /\
  (forall e, e ∈ generateCompleteConversions rt next units existing ->
             fromUnitId e = unit_id uA -> toUnitId e = unit_id uC ->
             multiplier e = (x * y)%float).
Proof.
  intros Ha Hb Hc Hac Hperm Hex Hpc Hu HAB HBC Hab Hbc Hno.
  destruct HAB as (F1 & T1 & M1). destruct HBC as (F2 & T2 & M2).
  assert (Hpu : plainUnits units).
  { unfold plainUnits. rewrite Hperm. by repeat constructor. }
  assert (Hall : Forall (among (unit_id uA) (unit_id uB) (unit_id uC)) units).
  { rewrite Hperm. unfold among.
    repeat (apply Forall_cons; split); [..|apply Forall_nil_2]; auto. }
  assert (HA : uA ∈ units) by (rewrite Hperm; set_solver).
  assert (HB : uB ∈ units) by (rewrite Hperm; set_solver).
  assert (HC : uC ∈ units) by (rewrite Hperm; set_solver).
  assert (H1 : eAB ∈ existing) by (rewrite Hex; set_solver).
  assert (H2 : eBC ∈ existing) by (rewrite Hex; set_solver).
  apply (generate_derived rt next units existing _ (unit_id uB) _ x y uA uB uC);
    try done.
  - rewrite <- F1 at 1. rewrite <- T1, <- M1.
    apply seedTable_direct; try done. congruence.
  - rewrite <- F2 at 1. rewrite <- T2, <- M2.
    apply seedTable_direct; try done. congruence.
  - by apply seedTable_none.
Qed.

(** C1. Units A, B and C (in any order in the unit list, with identifiers
    as [generateUUID] makes them) and the direct edges A→B (×2) and B→C (×3)
    only (in any order): the closure yields an edge A→C with multiplier 6.
    With the direct edges B→A (×0.5) and C→B (×1/3) also supplied, it also
    yields an edge C→A, and every yielded edge C→A has multiplier 1/6. *)
Theorem C1_closure_example rt next (uA uB uC : Unit) units :
  arrowFree (unit_id uA) -> arrowFree (unit_id uB) -> arrowFree (unit_id uC) ->
  NoDup [unit_id uA; unit_id uB; unit_id uC] ->
  units ≡ₚ [uA; uB; uC] ->
  (forall eAB eBC existing,
      edge eAB (unit_id uA) (unit_id uB) 2 ->
      edge eBC (unit_id uB) (unit_id uC) 3 ->
      existing ≡ₚ [eAB; eBC] ->
      exists e, e ∈ generateCompleteConversions rt next units existing /\
                edge e (unit_id uA) (unit_id uC) 6) /\
  (forall eAB eBC eBA eCB existing,
      edge eAB (unit_id uA) (unit_id uB) 2 ->
      edge eBC (unit_id uB) (unit_id uC) 3 ->
      edge eBA (unit_id uB) (unit_id uA) 0.5 ->
      edge eCB (unit_id uC) (unit_id uB) (1 / 3) ->
      existing ≡ₚ [eAB; eBC; eBA; eCB] ->
      (exists e, e ∈ generateCompleteConversions rt next units existing /\
                 edge e (unit_id uA) (unit_id uC) 6) /\
      (exists e, e ∈ generateCompleteConversions rt next units existing /\
                 edge e (unit_id uC) (unit_id uA) (1 / 6)) /\
      (forall e, e ∈ generateCompleteConversions rt next units existing ->
                 fromUnitId e = unit_id uC -> toUnitId e = unit_id uA ->
                 multiplier e = (1 / 6)%float)).
Proof.
  intros Ha Hb Hc Hnd Hperm.
  destruct (three_ids uA uB uC Hnd) as (Hab & Hbc & Hac).
  split.
  - intros eAB eBC existing HAB HBC Hex.
    assert (Hpc : plainConversions existing).
    { unfold plainConversions. rewrite Hex. split_edges.
      repeat constructor; congruence. }
    assert (Hu : uniquePairs existing).
    { unfold uniquePairs. rewrite Hex. split_edges. unfold pairOf. simpl.
      repeat (apply NoDup_cons; split); [|apply not_elem_of_nil|apply NoDup_nil_2].
      rewrite list_elem_of_singleton. congruence. }
    destruct (closure_example_edges rt next uA uB uC units existing [] eAB eBC 2 3)
      as [He _]; try done.
    intros e He. rewrite Hex in He. split_edges. unfold pairOf.
    elem_cases He; congruence.
  - intros eAB eBC eBA eCB existing HAB HBC HBA HCB Hex.
    assert (Hpc : plainConversions existing).
    { unfold plainConversions. rewrite Hex. split_edges.
      repeat constructor; congruence. }
    assert (Hu : uniquePairs existing).
    { unfold uniquePairs. rewrite Hex. split_edges. unfold pairOf. simpl.
      repeat (apply NoDup_cons; split); try apply NoDup_nil_2;
        rewrite ?elem_of_cons, ?elem_of_nil; intros Hin;
        repeat destruct Hin as [Hin|Hin]; congruence. }
    split; [|].
    + destruct (closure_example_edges rt next uA uB uC units existing [eBA; eCB]
                  eAB eBC 2 3) as [He _]; try done.
      intros e He. rewrite Hex in He. split_edges. unfold pairOf.
      elem_cases He; congruence.
    + assert (Hperm' : units ≡ₚ [uC; uB; uA]).
      { rewrite Hperm. apply Permutation_rev. }
      assert (Hex' : existing ≡ₚ [eCB; eBA; eAB; eBC]).
      { rewrite Hex. solve_Permutation. }
      apply (closure_example_edges rt next uC uB uA units existing [eAB; eBC]
               eCB eBA (1 / 3) 0.5); try done; try congruence.
      intros e He. rewrite Hex in He. split_edges. unfold pairOf.
      elem_cases He; congruence.
Qed.

(** *** Persisted equations are kept *)

(** For a pair that has equations in the input, the result holds the first
    of them and nothing else. *)
Lemma generate_first_only rt next units cs e first :
  2 <= length units ->
  e ∈ generateCompleteConversions rt next units cs ->
  find (samePair (fromUnitId e) (toUnitId e)) cs = Some first ->
  e = first.
Proof.
  intros Hn He Hfirst.
  unfold generateCompleteConversions, generateCompleteConversionsFrom in He.
  destruct (Nat.ltb_spec (length units) 2) as [|_]; [lia|].
  apply emitAll_elem in He as [He|He]; [by apply elem_of_nil in He|].
  destruct He as (f & t & _ & _ & _ & m & _ & [Hsome|[Hnone [n ->]]]).
  - destruct (find_Some_elem _ _ _ Hsome) as [_ [Hf Ht]%samePair_true].
    rewrite Hf, Ht in Hfirst. congruence.
  - simpl in Hfirst. congruence.
Qed.

(** C10 as stated fails on the code: an equation of the input between two
    different listed units is not in the result when an earlier equation of
    the input has the same pair, as [existingConversions.find] returns the
    first one.
    With A→B (×2), A→B (×5) and B→C (×3) the result is the first equation,
    a derived equation A→C and the third equation; the second one is
    dropped, although the derived multiplier 15 is its multiplier times 3. *)
Lemma C10_later_edge_is_dropped :
  edgeAB5 ∈ [edgeAB; edgeAB5; edgeBC] /\
  fromUnitId edgeAB5 <> toUnitId edgeAB5 /\
  fromUnitId edgeAB5 ∈ unit_id <$> [unitA; unitB; unitC] /\
  toUnitId edgeAB5 ∈ unit_id <$> [unitA; unitB; unitC] /\
  (fun e => (conv_id e, pairOf e, multiplier e)) <$>
    generateCompleteConversions exampleRuntime 0 [unitA; unitB; unitC]
      [edgeAB; edgeAB5; edgeBC]
  = [(conv_id edgeAB, (unit_id unitA, unit_id unitB), 2%float);
     ("00000000-0000-4000-8000-0", (unit_id unitA, unit_id unitC), 15%float);
     (conv_id edgeBC, (unit_id unitB, unit_id unitC), 3%float)] /\
  (edgeAB5 ∉ generateCompleteConversions exampleRuntime 0 [unitA; unitB; unitC]
               [edgeAB; edgeAB5; edgeBC]) /\
  ~ (forall rt next units existing e,
       e ∈ existing -> fromUnitId e <> toUnitId e ->
       fromUnitId e ∈ unit_id <$> units -> toUnitId e ∈ unit_id <$> units ->
       e ∈ generateCompleteConversions rt next units existing).
Proof.
  assert (edgeAB5 ∉ generateCompleteConversions exampleRuntime 0 [unitA; unitB; unitC]
                      [edgeAB; edgeAB5; edgeBC]) as Hout.
  { intros Hin.
    assert (edgeAB5 = edgeAB) as Heq; [|discriminate Heq].
    by apply (generate_first_only exampleRuntime 0 [unitA; unitB; unitC]
                [edgeAB; edgeAB5; edgeBC]); [simpl; lia| |]. }
  split; [right; left|]. split; [discriminate|]. split; [left|].
  split; [right; left|]. split; [by vm_compute|]. split; [exact Hout|].
  intros Hall. apply Hout, Hall.
  - right; left.
  - discriminate.
  - left.
  - right; left.
Qed.

(** C10, amended. An equation of the input whose two units are different and
    both in the unit list, and which is the first equation of the input for
    its ordered pair, is in the result of [generateCompleteConversions] as
    the same record; a later equation for the same pair is not kept: for a
    pair that has equations in the input the result holds the first of them
    and nothing else.  Every equation of the result is either an equation of
    the input or an equation for a pair that had none in the input.  Hence,
    on an input with at most one equation per ordered pair, every equation
    between two different listed units is kept; and with fewer than two
    units the input is returned as it is. *)
Theorem C10_closure_keeps_direct_edges rt next units existing :
  (forall e, e ∈ existing ->
     fromUnitId e <> toUnitId e ->
     fromUnitId e ∈ unit_id <$> units -> toUnitId e ∈ unit_id <$> units ->
     find (samePair (fromUnitId e) (toUnitId e)) existing = Some e ->
     e ∈ generateCompleteConversions rt next units existing) /\
  (forall e first,
     2 <= length units ->
     e ∈ generateCompleteConversions rt next units existing ->
     find (samePair (fromUnitId e) (toUnitId e)) existing = Some first ->
     e = first) /\
  (forall e, e ∈ generateCompleteConversions rt next units existing ->
     e ∈ existing \/ (forall c, c ∈ existing -> pairOf c <> pairOf e)) /\
  (uniquePairs existing ->
   forall e, e ∈ existing ->
     fromUnitId e <> toUnitId e ->
     fromUnitId e ∈ unit_id <$> units -> toUnitId e ∈ unit_id <$> units ->
     e ∈ generateCompleteConversions rt next units existing) /\
  (length units < 2 ->
   generateCompleteConversions rt next units existing = existing).
Proof.
  split; [|split; [|split; [|split]]].
  - intros e He Hne Hf Ht Hfind. by apply generate_keeps_first.
  - intros e first. apply generate_first_only.
  - intros e He. unfold generateCompleteConversions, generateCompleteConversionsFrom in He.
    destruct (Nat.ltb (length units) 2); [by left|].
    apply emitAll_elem in He as [He|He]; [by apply elem_of_nil in He|].
    destruct He as (f & t & _ & _ & _ & m & _ & [Hsome|[Hnone [n ->]]]).
    + left. by apply find_Some_elem in Hsome as [? _].
    + right. intros c Hc Heq. unfold pairOf in Heq. simpl in Heq.
      apply (find_None_elem _ _ c) in Hnone; [|done].
      assert (samePair (unit_id f) (unit_id t) c = true).
      { apply samePair_true. by simplify_eq. }
      congruence.
  - intros Hu e He Hne Hf Ht. apply generate_keeps_first; try done.
    by apply find_samePair_unique.
  - intros Hlt. unfold generateCompleteConversions, generateCompleteConversionsFrom.
    apply Nat.ltb_lt in Hlt. by rewrite Hlt.
Qed.

(** *** The run as a sequence of steps *)

Lemma steps_direct cs m :
  fold_left applyStep (SeedDirect <$> cs) m = seedDirect cs m.
Proof. revert m. induction cs as [|e cs IH]; intros m; [done|]. apply IH. Qed.

Lemma steps_identity units m :
  fold_left applyStep (SeedIdentity <$> units) m = seedIdentity units m.
Proof. revert m. induction units as [|u units IH]; intros m; [done|]. apply IH. Qed.

Lemma steps_relax ts m :
  fold_left applyStep ((fun t : Unit * Unit * Unit => Relax t.1.1 t.1.2 t.2) <$> ts) m
  = fold_left relaxTriple ts m.
Proof. revert m. induction ts as [|t ts IH]; intros m; [done|]. apply IH. Qed.

Lemma closureTable_steps units cs :
  closureTable units cs = fold_left applyStep (closureSteps units cs) ∅.
Proof.
  unfold closureSteps. rewrite !fold_left_app, steps_direct, steps_identity, steps_relax.
  unfold closureTable. by rewrite relax_triples.
Qed.

(** A known pair stays known. *)
Lemma steps_known l (m : gmap string float) key :
  is_Some (m !! key) -> is_Some (fold_left applyStep l m !! key).
Proof.
  revert m. induction l as [|s l IH]; intros m Hm; [done|].
  simpl. apply IH. destruct s as [conv|unit|k i j]; simpl.
  - rewrite lookup_insert. case_decide; [by eexists|done].
  - rewrite lookup_insert. case_decide; [by eexists|done].
  - destruct Hm as [v Hv]. exists v. by apply relaxStep_keep.
Qed.

(** A value in the table during the seeding was written by a seed. *)
Lemma seedDirect_origin cs key v :
  seedDirect cs ∅ !! key = Some v ->
  exists e, e ∈ cs /\ key = convKey (fromUnitId e) (toUnitId e) /\ v = multiplier e.
Proof.
  induction cs as [|e cs IH] using rev_ind; intros H.
  - unfold seedDirect in H. simpl in H. by rewrite lookup_empty in H.
  - rewrite seedDirect_app in H. simpl in H. rewrite lookup_insert in H.
    case_decide as Hk.
    + exists e. split; [apply elem_of_app; right; left|]. by simplify_eq.
    + destruct (IH H) as (e' & He' & Hrest). exists e'.
      split; [apply elem_of_app; by left|done].
Qed.

Lemma seedIdentity_origin units m key v :
  seedIdentity units m !! key = Some v ->
  m !! key = Some v \/
  exists u, u ∈ units /\ key = convKey (unit_id u) (unit_id u) /\ v = 1%float.
Proof.
  revert m. induction units as [|u units IH] using rev_ind; intros m H; [by left|].
  unfold seedIdentity in H. rewrite fold_left_app in H. simpl in H.
  rewrite lookup_insert in H. case_decide as Hk.
  - right. exists u. split; [apply elem_of_app; right; left|]. by simplify_eq.
  - apply IH in H as [H|(u' & Hu' & Hrest)]; [by left|]. right.
    exists u'. split; [apply elem_of_app; by left|done].
Qed.

Section Stability.
Variables (units : list Unit) (existing : list ConversionEquation).
Hypothesis Hpu : plainUnits units.
Hypothesis Hpc : plainConversions existing.
Hypothesis Hu : uniquePairs existing.
Hypothesis Hns : noSelfEdges existing.

Lemma seedTable_all_direct e :
  e ∈ existing ->
  seedTable units existing !! convKey (fromUnitId e) (toUnitId e)
  = Some (multiplier e).
Proof.
  intros He. apply seedTable_direct; try done.
  unfold noSelfEdges in Hns. rewrite Forall_forall in Hns. by apply Hns.
Qed.

(** Stability from any point of the seeding of the direct edges. *)
Lemma stable_direct l1 l2 key v :
  existing = l1 ++ l2 ->
  seedDirect l1 ∅ !! key = Some v ->
  seedTable units existing !! key = Some v.
Proof.
  intros Heq H. apply seedDirect_origin in H as (e & He & -> & ->).
  apply seedTable_all_direct. rewrite Heq. apply elem_of_app. by left.
Qed.

(** Stability from any point of the seeding of the identities. *)
Lemma stable_identity us1 us2 key v :
  units = us1 ++ us2 ->
  seedIdentity us1 (seedDirect existing ∅) !! key = Some v ->
  seedTable units existing !! key = Some v.
Proof.
  intros Heq H. apply seedIdentity_origin in H as [H|(u & Hin & -> & ->)].
  - by apply (stable_direct existing []); [rewrite app_nil_r|].
  - apply seedTable_identity. rewrite Heq. apply elem_of_app. by left.
Qed.

Lemma stable_run done rest key v :
  closureSteps units existing = done ++ rest ->
  fold_left applyStep done ∅ !! key = Some v ->
  closureTable units existing !! key = Some v.
Proof.
  unfold closureSteps. intros Heq H.
  apply app_eq_app in Heq as [l [[Hd Hr]|[Hd Hr]]].
  - (* the prefix ends within the seeds of the direct edges *)
    apply fmap_app_inv in Hd as (l1 & l2 & -> & -> & Hex).
    rewrite steps_direct in H. unfold closureTable. apply relax_keep.
    by apply (stable_direct l1 l2).
  - subst done. rewrite fold_left_app, steps_direct in H.
    apply app_eq_app in Hr as [l' [[Hd Hr]|[Hd Hr]]].
    + (* within the identities *)
      apply fmap_app_inv in Hd as (us1 & us2 & -> & -> & Hus).
      rewrite steps_identity in H. unfold closureTable. apply relax_keep.
      by apply (stable_identity us1 us2).
    + (* within the triple loop *)
      subst l. rewrite fold_left_app, steps_identity in H.
      apply fmap_app_inv in Hr as (ts1 & ts2 & -> & -> & Hts).
      rewrite steps_relax in H.
      unfold closureTable. rewrite relax_triples, Hts, fold_left_app.
      by apply relaxTriples_keep.
Qed.
End Stability.

(** The seeding of the direct edges: of the equations with one key, the last
    one of the list counts. *)
Lemma seedDirect_last l1 e l2 m :
  (forall e', e' ∈ l2 ->
     convKey (fromUnitId e') (toUnitId e') <> convKey (fromUnitId e) (toUnitId e)) ->
  seedDirect (l1 ++ e :: l2) m !! convKey (fromUnitId e) (toUnitId e)
  = Some (multiplier e).
Proof.
  intros Hl2. rewrite seedDirect_app. cbn [seedDirect fold_left].
  fold (seedDirect l2). rewrite seedDirect_other by done. apply lookup_insert_eq.
Qed.

(** C8 as stated fails on the code: a multiplier set by a seed can be
    overwritten, because the seeds are written with [Map.set].  With the
    equations A→B (×2) and A→B (×5) the pair (A, B) holds 2 after the first
    seed and 5 at the end of the run; with an equation A→A (×5) the pair
    (A, A) holds 5 after the first seed and 1 at the end of the run. *)
Lemma C8_seed_is_overwritten :
  (fold_left applyStep (take 1 (closureSteps [unitA; unitB] [edgeAB; edgeAB5])) ∅
     !! convKey (unit_id unitA) (unit_id unitB) = Some 2%float /\
   closureTable [unitA; unitB] [edgeAB; edgeAB5]
     !! convKey (unit_id unitA) (unit_id unitB) = Some 5%float) /\
  (fold_left applyStep (take 1 (closureSteps [unitA; unitB] [selfEdgeA])) ∅
     !! convKey (unit_id unitA) (unit_id unitA) = Some 5%float /\
   closureTable [unitA; unitB] [selfEdgeA]
     !! convKey (unit_id unitA) (unit_id unitA) = Some 1%float) /\
  ~ (forall units existing done later rest key v,
       closureSteps units existing = done ++ later ++ rest ->
       fold_left applyStep done ∅ !! key = Some v ->
       fold_left applyStep (done ++ later) ∅ !! key = Some v).
Proof.
  assert (fold_left applyStep (take 1 (closureSteps [unitA; unitB] [edgeAB; edgeAB5])) ∅
            !! convKey (unit_id unitA) (unit_id unitB) = Some 2%float) as H1.
  { apply lookup_insert_eq. }
  assert (fold_left applyStep (take 2 (closureSteps [unitA; unitB] [edgeAB; edgeAB5])) ∅
            !! convKey (unit_id unitA) (unit_id unitB) = Some 5%float) as H2.
  { apply lookup_insert_eq. }
  split; [split; [exact H1|]|split; [split|]].
  - apply relax_keep. unfold seedTable. rewrite seedIdentity_other.
    + apply (seedDirect_last [edgeAB] edgeAB5 []). by intros e' ?%elem_of_nil.
    + intros u Hu Hkey.
      apply elem_of_cons in Hu as [->|Hu];
        [|apply list_elem_of_singleton in Hu as ->];
        by apply convKey_inj in Hkey as [Hf Ht].
  - apply lookup_insert_eq.
  - apply relax_keep, seedTable_identity. left.
  - intros Hstable.
    specialize (Hstable [unitA; unitB] [edgeAB; edgeAB5]
                  (take 1 (closureSteps [unitA; unitB] [edgeAB; edgeAB5]))
                  [SeedDirect edgeAB5]
                  (drop 2 (closureSteps [unitA; unitB] [edgeAB; edgeAB5]))
                  (convKey (unit_id unitA) (unit_id unitB)) 2%float eq_refl H1).
    change (take 1 (closureSteps [unitA; unitB] [edgeAB; edgeAB5]) ++ [SeedDirect edgeAB5])
      with (take 2 (closureSteps [unitA; unitB] [edgeAB; edgeAB5])) in Hstable.
    rewrite H2 in Hstable.
    apply (f_equal (fun o => match o with
                             | Some x => PrimFloat.eqb x 2
                             | None => false
                             end)) in Hstable.
    by vm_compute in Hstable.
Qed.

(** C8, amended. The table is seeded with every direct edge in the order of
    the list and then with 1 for every unit; a seed replaces an earlier seed
    of the same key, so that of the direct edges with one key the last one
    counts and an edge from a listed unit to itself is replaced by 1; the
    table holds nothing else when the triple loop starts.  An iteration
    (i, k, j) of the triple loop either leaves the table as it is or, when
    both factors are known and (i, j) is not, sets (i, j) to their product.
    From the end of the seeding on nothing is overwritten: a multiplier that
    the table holds at any point of the triple loop, seeded or derived, is
    the one it holds at every later point and at the end of the run.  On a
    conversion list with one equation per ordered pair and no edge from a
    unit to itself, and identifiers without the arrow, this holds from the
    first seed on. *)
Theorem C8_first_assignment_wins units existing :
  closureTable units existing
    = fold_left applyStep (closureSteps units existing) ∅ /\
  closureTable units existing
    = fold_left relaxTriple (triples units) (seedTable units existing) /\
  (forall u, u ∈ units ->
     seedTable units existing !! convKey (unit_id u) (unit_id u) = Some 1%float) /\
  (forall l1 e l2, existing = l1 ++ e :: l2 ->
     (forall e', e' ∈ l2 ->
        convKey (fromUnitId e') (toUnitId e') <> convKey (fromUnitId e) (toUnitId e)) ->
     (forall u, u ∈ units ->
        convKey (unit_id u) (unit_id u) <> convKey (fromUnitId e) (toUnitId e)) ->
     seedTable units existing !! convKey (fromUnitId e) (toUnitId e)
     = Some (multiplier e)) /\
  (forall key v, seedTable units existing !! key = Some v ->
     (exists u, u ∈ units /\ key = convKey (unit_id u) (unit_id u) /\ v = 1%float) \/
     (exists e, e ∈ existing /\ key = convKey (fromUnitId e) (toUnitId e) /\
                v = multiplier e)) /\
  (forall k i j (m : gmap string float),
     relaxStep k i j m = m \/
     exists ikMult kjMult,
       m !! convKey (unit_id i) (unit_id k) = Some ikMult /\
       m !! convKey (unit_id k) (unit_id j) = Some kjMult /\
       m !! convKey (unit_id i) (unit_id j) = None /\
       relaxStep k i j m =
         <[convKey (unit_id i) (unit_id j) := (ikMult * kjMult)%float]> m) /\
  (forall k i j (m : gmap string float) ikMult kjMult,
     m !! convKey (unit_id i) (unit_id k) = Some ikMult ->
     m !! convKey (unit_id k) (unit_id j) = Some kjMult ->
     m !! convKey (unit_id i) (unit_id j) = None ->
     relaxStep k i j m =
       <[convKey (unit_id i) (unit_id j) := (ikMult * kjMult)%float]> m) /\
  (forall (m : gmap string float) key v,
     m !! key = Some v -> relax units m !! key = Some v) /\
  (forall before later rest key v,
     triples units = before ++ later ++ rest ->
     fold_left relaxTriple before (seedTable units existing) !! key = Some v ->
     fold_left relaxTriple (before ++ later) (seedTable units existing) !! key = Some v /\
     closureTable units existing !! key = Some v) /\
  (plainUnits units -> plainConversions existing ->
   uniquePairs existing -> noSelfEdges existing ->
   (forall e, e ∈ existing ->
      seedTable units existing !! convKey (fromUnitId e) (toUnitId e)
      = Some (multiplier e)) /\
   (forall done later rest key v,
      closureSteps units existing = done ++ later ++ rest ->
      fold_left applyStep done ∅ !! key = Some v ->
      fold_left applyStep (done ++ later) ∅ !! key = Some v)).
Proof.
  split; [apply closureTable_steps|]. split; [apply relax_triples|].
  split; [intros u Hin; by apply seedTable_identity|].
  split; [|split; [|split; [apply relaxStep_cases|split; [|split; [|split]]]]].
  - intros l1 e l2 -> Hl2 Hid. unfold seedTable.
    rewrite seedIdentity_other by done. by apply seedDirect_last.
  - intros key v Hv. unfold seedTable in Hv.
    apply seedIdentity_origin in Hv as [Hv|(u & Hu & -> & ->)]; [|left; by exists u].
    right. by apply seedDirect_origin.
  - intros k i j m a b Hik Hkj Hij. unfold relaxStep. by rewrite Hik, Hkj, Hij.
  - intros m key v. apply relax_keep.
  - intros before later rest key v Heq Hv. split.
    + rewrite fold_left_app. by apply relaxTriples_keep.
    + unfold closureTable. rewrite relax_triples, Heq, fold_left_app.
      by apply relaxTriples_keep.
  - intros Hpu Hpc Hu Hns. split; [intros e He; by apply seedTable_all_direct|].
    intros done later rest key v Heq Hv.
    destruct (steps_known later (fold_left applyStep done ∅) key) as [v' Hv'];
      [by eexists|].
    rewrite <- fold_left_app in Hv'. rewrite Hv'. f_equal.
    assert (H1 : closureTable units existing !! key = Some v).
    { apply (stable_run units existing Hpu Hpc Hu Hns done (later ++ rest)); done. }
    assert (H2 : closureTable units existing !! key = Some v').
    { apply (stable_run units existing Hpu Hpc Hu Hns (done ++ later) rest);
        [by rewrite <- app_assoc|done]. }
    congruence.
Qed.

(** *** The consistency validator *)

Lemma findReverse_Some conversions conv rev :
  findReverse conversions conv = Some rev ->
  rev ∈ conversions /\ reverseOf conv rev.
Proof.
  intros H. apply find_Some_elem in H as [Hin Hp].
  by apply samePair_true in Hp.
Qed.

Lemma findReverse_None conversions conv :
  findReverse conversions conv = None <-> ~ hasReverse conversions conv.
Proof.
  split.
  - intros H (c & Hc & Hrev). apply (find_None_elem _ _ c) in H; [|done].
    assert (samePair (toUnitId conv) (fromUnitId conv) c = true)
      by by apply samePair_true.
    congruence.
  - intros H. destruct (findReverse conversions conv) as [rev|] eqn:Hfind; [|done].
    exfalso. apply H. exists rev. by apply findReverse_Some.
Qed.

Lemma validateStep_verdict conversions st conv :
  validateStep conversions st conv =
  match verdict conversions conv with
  | None => ({| valid := S (valid st.1); issues := issues st.1 |}, st.2)
  | Some w => ({| valid := valid st.1; issues := S (issues st.1) |}, st.2 ++ [w])
  end.
Proof.
  unfold validateStep, verdict.
  destruct (findReverse conversions conv) as [rev|]; [|done].
  simpl. by destruct (nearOne _).
Qed.

Lemma validate_fold conversions l st :
  fold_left (validateStep conversions) l st =
  ({| valid := valid st.1 + length (filter (fun conv => verdict conversions conv = None) l);
      issues := issues st.1 + length (omap (verdict conversions) l) |},
   st.2 ++ omap (verdict conversions) l).
Proof.
  revert st. induction l as [|conv l IH]; intros [[v i] log].
  - simpl. rewrite app_nil_r. do 2 f_equal; lia.
  - simpl fold_left. rewrite IH, validateStep_verdict, filter_cons. simpl omap.
    destruct (verdict conversions conv) as [w|] eqn:Hv; simpl.
    + by rewrite <- app_assoc, Nat.add_succ_r.
    + by rewrite Nat.add_succ_r.
Qed.






(** *** The size of the output *)

Lemma emitPair_length rt ex T f t st :
  length (emitPair rt ex T f t st).2 <=
  length st.2 + length (filter (fun t => unit_id t <> unit_id f) [t]).
Proof.
  rewrite filter_cons, filter_nil.
  destruct (emitPair_cases rt ex T f t st)
    as [->|(Hne & m & _ & [(e & _ & ->)|(_ & ->)])]; [lia| |];
    rewrite decide_True by done; simpl; rewrite length_app; simpl; lia.
Qed.

Lemma emitRow_length rt ex T ts f st :
  length (emitRow rt ex T ts f st).2 <=
  length st.2 + length (filter (fun t => unit_id t <> unit_id f) ts).
Proof.
  unfold emitRow. revert st. induction ts as [|t ts IH]; intros st; simpl; [lia|].
  etrans; [apply IH|]. pose proof (emitPair_length rt ex T f t st) as H.
  rewrite (filter_cons _ t ts). rewrite filter_cons, filter_nil in H.
  destruct (decide (unit_id t <> unit_id f)); simpl in *; lia.
Qed.

Lemma emitRows_length rt ex T units fs st :
  fs ⊆ units ->
  length (fold_left (fun st f => emitRow rt ex T units f st) fs st).2 <=
  length st.2 + length fs * (length units - 1).
Proof.
  revert st. induction fs as [|f fs IH]; intros st Hsub; simpl; [lia|].
  etrans; [apply IH; set_solver|].
  pose proof (emitRow_length rt ex T units f st) as H.
  assert (Hf : f ∈ units) by set_solver.
  pose proof (length_filter_lt (fun t => unit_id t <> unit_id f) units f Hf) as Hlt.
  assert (length (filter (fun t => unit_id t <> unit_id f) units) < length units)
    by (apply Hlt; naive_solver).
  lia.
Qed.

(** The closure of two or more units returns at most N × (N − 1) equations. *)
Lemma closure_count_bound rt next units existing :
  2 <= length units ->
  (Z.of_nat (length (generateCompleteConversions rt next units existing))
   <= expectedCount (length units))%Z.
Proof.
  intros Hlen. unfold generateCompleteConversions, generateCompleteConversionsFrom.
  destruct (Nat.ltb (length units) 2) eqn:Hlt; [apply Nat.ltb_lt in Hlt; lia|].
  pose proof (emitRows_length rt existing (closureTable units existing) units units
                (next, []) ltac:(done)) as H.
  unfold emitAll, expectedCount. simpl in H. nia.
Qed.

(** A group that already has N × (N − 1) equations, or more, is left as it
    is by [ensureCompleteConversions]. *)
Lemma ensureGroup_complete_unchanged rt next allUnits group :
  (expectedCount (length (groupUnitsOf allUnits group))
   <= Z.of_nat (length (conversions group)))%Z ->
  ensureGroup rt next allUnits group = (group, next, None).
Proof.
  intros H. unfold ensureGroup. rewrite bool_decide_eq_false_2; [done|lia].
Qed.

(** [ensureCompleteConversions] keeps the bound. *)
Lemma ensureGroup_keeps_bound rt next allUnits group :
  (Z.of_nat (length (conversions group))
   <= expectedCount (length (groupUnitsOf allUnits group)))%Z ->
  (Z.of_nat (length (conversions (ensureGroup rt next allUnits group).1.1))
   <= expectedCount (length (groupUnitsOf allUnits (ensureGroup rt next allUnits group).1.1)))%Z.
Proof.
  intros H. unfold ensureGroup. case_bool_decide as Hlt; [|done]. simpl.
  apply closure_count_bound.
  unfold expectedCount in Hlt. unfold groupUnitsOf in *. simpl.
  destruct (length (filter _ allUnits)) as [|[|n]]; lia.
Qed.

(** *** Instances of the theorems on the example *)

Lemma C1_closure_example_witness :
  exists e,
    e ∈ generateCompleteConversions exampleRuntime 0 [unitC; unitA; unitB] [edgeBC; edgeAB] /\
    edge e (unit_id unitA) (unit_id unitC) 6.
Proof.
  refine (proj1 (C1_closure_example exampleRuntime 0 unitA unitB unitC
                   [unitC; unitA; unitB] _ _ _ _ _) edgeAB edgeBC [edgeBC; edgeAB] _ _ _).
  - reflexivity.
  - reflexivity.
  - reflexivity.
  - refine (bool_decide_unpack _ _). vm_compute. exact I.
  - solve_Permutation.
  - repeat split.
  - repeat split.
  - apply Permutation_swap.
Defined.

Lemma C8_first_assignment_wins_witness :
  seedTable [unitA; unitB; unitC] [edgeAB; edgeBC]
    !! convKey (unit_id unitA) (unit_id unitB) = Some 2%float.
Proof.
  refine (proj1 (proj2 (proj2 (proj2 (proj2 (proj2 (proj2 (proj2 (proj2 (proj2
            (C8_first_assignment_wins [unitA; unitB; unitC] [edgeAB; edgeBC])))))))))
            _ _ _ _) edgeAB _).
  - repeat constructor.
  - repeat constructor.
  - refine (bool_decide_unpack _ _). vm_compute. exact I.
  - repeat constructor; discriminate.
  - left.
Defined.

Lemma C10_closure_keeps_direct_edges_witness :
  edgeAB ∈ generateCompleteConversions exampleRuntime 0 [unitA; unitB; unitC] [edgeAB; edgeBC].
Proof.
  refine (proj1 (C10_closure_keeps_direct_edges exampleRuntime 0 [unitA; unitB; unitC]
                   [edgeAB; edgeBC]) edgeAB _ _ _ _ _).
  - left.
  - discriminate.
  - left.
  - right. left.
  - reflexivity.
Defined.

End ClosureFacts.

(** ** Facts about the unit linker *)
Module LinkerFacts.
Import Linker ListFacts.

Lemma matchesUnit_matches symbol u :
  matchesUnit symbol u = true <-> matches symbol u.
Proof.
  unfold matchesUnit, matches, sameIgnoringCase.
  rewrite !orb_true_iff, !bool_decide_eq_true, existsb_exists.
  split.
  - intros [[H|H]|(abbr & Hin & H)]; [by left|by right; left|].
    right; right. exists abbr. apply list_elem_of_In in Hin.
    rewrite orb_true_iff, !bool_decide_eq_true in H. done.
  - intros [H|[H|(abbr & Hin & H)]]; [by left; left|by left; right|].
    right. exists abbr. apply list_elem_of_In in Hin.
    rewrite orb_true_iff, !bool_decide_eq_true. done.
Qed.

Lemma matchesUnit_not symbol u :
  matchesUnit symbol u = false <-> ~ matches symbol u.
Proof.
  rewrite <- matchesUnit_matches. destruct (matchesUnit symbol u); naive_solver.
Qed.

(** The specification's four passes differ from the single pass of the
    code: with the units "gpm" and "GPM" in this order, the reference "GPM"
    resolves to the first one, which matches it ignoring case, although the
    second one has exactly this symbol. *)
Lemma C7_tiered_lookup_refuted :
  findUnitBySymbol "GPM" [gpmLower; gpm] = Some gpmLower /\
  findUnitBySymbol_tiered "GPM" [gpmLower; gpm] = Some gpm /\
  findUnitBySymbol "GPM" [gpmLower; gpm] <> findUnitBySymbol_tiered "GPM" [gpmLower; gpm].
Proof. split; [|split]; [reflexivity..|]. by vm_compute. Qed.

(** C7, amended. An empty reference resolves to none.  Otherwise
    [findUnitBySymbol] returns the first unit of the list that matches the
    reference by any of the four criteria (symbol exactly, symbol ignoring
    case, an abbreviation exactly, an abbreviation ignoring case), and none
    when no unit matches.  For the unit with symbol "GPM" and abbreviation
    "gal/min" alone, "gpm", "GPM" and "gal/min" resolve to it and "L/min"
    to none. *)
Theorem C7_linker_first_match :
  (forall units, findUnitBySymbol "" units = None) /\
  (forall symbol units u, symbol <> "" ->
     (findUnitBySymbol symbol units = Some u <->
      exists l1 l2, units = l1 ++ u :: l2 /\ matches symbol u /\
                    forall v, v ∈ l1 -> ~ matches symbol v)) /\
  (forall symbol units,
     findUnitBySymbol symbol units = None <->
     symbol = "" \/ forall u, u ∈ units -> ~ matches symbol u) /\
  findUnitBySymbol "gpm" [gpm] = Some gpm /\
  findUnitBySymbol "GPM" [gpm] = Some gpm /\
  findUnitBySymbol "gal/min" [gpm] = Some gpm /\
  findUnitBySymbol "L/min" [gpm] = None.
Proof.
  split; [done|]. split; [|split; [|by repeat split]].
  - intros symbol units u Hne. unfold findUnitBySymbol.
    destruct symbol as [|c symbol]; [done|]. simpl negb. cbv iota.
    rewrite find_first. split.
    + intros (l1 & l2 & -> & Hu & Hl1). exists l1, l2. split; [done|].
      split; [by apply matchesUnit_matches|].
      intros v Hv. apply matchesUnit_not. by apply Hl1.
    + intros (l1 & l2 & -> & Hu & Hl1). exists l1, l2. split; [done|].
      split; [by apply matchesUnit_matches|].
      intros v Hv. apply matchesUnit_not. by apply Hl1.
  - intros symbol units. unfold findUnitBySymbol.
    destruct symbol as [|c symbol]; [by split; [left|]|]. simpl negb. cbv iota.
    rewrite find_nothing. split.
    + intros H. right. intros u Hu. apply matchesUnit_not. by apply H.
    + intros [H|H] u Hu; [done|]. apply matchesUnit_not. by apply H.
Qed.

End LinkerFacts.

(** ** Facts about the duplicate detection *)
Module DuplicatesFacts.
Import Duplicates ListFacts.

(** *** Stage 1 *)

Lemma before_cons {A} (a : A) l x y :
  before (a :: l) x y <-> (x = a /\ y ∈ l) \/ before l x y.
Proof.
  unfold before. split.
  - intros (l1 & l2 & l3 & Heq). destruct l1 as [|b l1]; simplify_eq/=.
    + left. split; [done|]. apply elem_of_app. right. left.
    + right. by exists l1, l2, l3.
  - intros [[-> Hy]|(l1 & l2 & l3 & ->)].
    + apply list_elem_of_split in Hy as (l2 & l3 & ->). by exists [], l2, l3.
    + by exists (a :: l1), l2, l3.
Qed.

Lemma before_nil {A} (x y : A) : ~ before [] x y.
Proof. intros (l1 & l2 & l3 & Heq). by destruct l1. Qed.

Lemma before_filter {A} (P : A -> Prop) `{!forall x, Decision (P x)} l x y :
  before (filter P l) x y <-> before l x y /\ P x /\ P y.
Proof.
  induction l as [|a l IH].
  - split; [by intros ?%before_nil|by intros [?%before_nil _]].
  - rewrite filter_cons. destruct (decide (P a)) as [Ha|Ha].
    + rewrite !before_cons, IH, list_elem_of_filter. naive_solver.
    + rewrite before_cons, IH. naive_solver.
Qed.

Lemma considerPair_eq si sj cands :
  considerPair si sj cands =
  cands ++ (if similarEnough si sj then [candidateOf si sj] else []).
Proof.
  unfold considerPair, similarEnough, candidateOf.
  destruct (PrimFloat.leb _ _); [done|]. by rewrite app_nil_r.
Qed.

Lemma row_elem si rest cands c :
  c ∈ fold_left (fun cands sj => considerPair si sj cands) rest cands <->
  c ∈ cands \/ exists sj, sj ∈ rest /\ similarEnough si sj = true /\ c = candidateOf si sj.
Proof.
  revert cands. induction rest as [|sj rest IH]; intros cands; simpl.
  - split; [by left|]. intros [H|(sj & H & _)]; [done|]. by apply elem_of_nil in H.
  - rewrite IH, considerPair_eq, elem_of_app. split.
    + intros [[H|H]|(sj' & Hin & Hs & ->)].
      * by left.
      * destruct (similarEnough si sj) eqn:Hs; [|by apply elem_of_nil in H].
        apply list_elem_of_singleton in H as ->. right. exists sj.
        split; [left|done].
      * right. exists sj'. split; [by right|done].
    + intros [H|(sj' & Hin & Hs & ->)]; [by left; left|].
      apply elem_of_cons in Hin as [->|Hin].
      * left; right. rewrite Hs. left.
      * right. by exists sj'.
Qed.

Lemma domainCandidates_elem specs cands c :
  c ∈ domainCandidates specs cands <->
  c ∈ cands \/
  exists si sj, before specs si sj /\ similarEnough si sj = true /\ c = candidateOf si sj.
Proof.
  revert cands. induction specs as [|si rest IH]; intros cands; simpl.
  - split; [by left|]. intros [H|(si & sj & H & _)]; [done|]. by apply before_nil in H.
  - rewrite IH, row_elem. split.
    + intros [[H|(sj & Hin & Hs & ->)]|(si' & sj & Hb & Hs & ->)].
      * by left.
      * right. exists si, sj. split; [|done]. apply before_cons. by left.
      * right. exists si', sj. split; [|done]. apply before_cons. by right.
    + intros [H|(si' & sj & Hb & Hs & ->)]; [by left; left|].
      apply before_cons in Hb as [[-> Hin]|Hb].
      * left; right. by exists sj.
      * right. by exists si', sj.
Qed.

Lemma pushSpec_keys byDomain spec :
  (pushSpec byDomain spec).*1 =
  if decide (domain spec ∈ byDomain.*1) then byDomain.*1
  else byDomain.*1 ++ [domain spec].
Proof.
  induction byDomain as [|[d l] rest IH]; [done|].
  cbn [pushSpec]. destruct (decide (d = domain spec)) as [->|Hne];
    rewrite !fmap_cons; cbn [fst].
  - rewrite decide_True; [done|left].
  - rewrite IH. destruct (decide (domain spec ∈ rest.*1)) as [Hin|Hnin].
    + rewrite decide_True; [done|by right].
    + rewrite decide_False; [done|]. rewrite elem_of_cons. naive_solver.
Qed.

Lemma pushSpec_other byDomain spec d l :
  d <> domain spec -> ((d, l) ∈ pushSpec byDomain spec <-> (d, l) ∈ byDomain).
Proof.
  intros Hne. induction byDomain as [|[d0 l0] rest IH]; cbn [pushSpec].
  - rewrite list_elem_of_singleton. split; [by intros [= -> ->]|by intros ?%elem_of_nil].
  - destruct (decide (d0 = domain spec)) as [->|Hne0].
    + rewrite !elem_of_cons. split; (intros [[= -> ->]|H]; [done|by right]).
    + rewrite !elem_of_cons, IH. done.
Qed.

Lemma pushSpec_new byDomain spec :
  domain spec ∉ byDomain.*1 ->
  pushSpec byDomain spec = byDomain ++ [(domain spec, [spec])].
Proof.
  induction byDomain as [|[d0 l0] rest IH]; intros Hnin; cbn [pushSpec]; [done|].
  rewrite fmap_cons, not_elem_of_cons in Hnin. destruct Hnin as [Hne Hnin].
  cbn [fst] in Hne. rewrite decide_False by done. by rewrite IH.
Qed.

Lemma pushSpec_known byDomain spec l0 l :
  NoDup byDomain.*1 -> (domain spec, l0) ∈ byDomain ->
  ((domain spec, l) ∈ pushSpec byDomain spec <-> l = l0 ++ [spec]).
Proof.
  induction byDomain as [|[d1 l1] rest IH]; intros Hnd Hin; cbn [pushSpec].
  - by apply elem_of_nil in Hin.
  - rewrite fmap_cons in Hnd. apply NoDup_cons in Hnd as [Hd1 Hnd]. cbn [fst] in Hd1.
    assert (Hkey : forall k, (d1, k) ∈ rest -> False).
    { intros k Hk. apply Hd1. apply list_elem_of_fmap. by exists (d1, k). }
    destruct (decide (d1 = domain spec)) as [->|Hne].
    + apply elem_of_cons in Hin as [[= ->]|Hin]; [|by destruct (Hkey l0)].
      rewrite elem_of_cons. split.
      * intros [[= ->]|H]; [done|by destruct (Hkey l)].
      * intros ->. by left.
    + apply elem_of_cons in Hin as [[= Hd Hl0]|Hin]; [congruence|].
      rewrite elem_of_cons, (IH Hnd Hin). split; [|by right].
      intros [[= Hd Hl]|H]; [congruence|done].
Qed.

Lemma grouped_push byDomain seen spec :
  grouped byDomain seen -> grouped (pushSpec byDomain spec) (seen ++ [spec]).
Proof.
  intros (Hnd & Hl & Hk). split; [|split].
  - rewrite pushSpec_keys. case_decide as Hin; [done|].
    apply NoDup_app. split; [done|]. split; [|apply NoDup_singleton].
    intros d Hd ->%list_elem_of_singleton. done.
  - intros d l Hin. rewrite filter_app, filter_cons, filter_nil.
    destruct (decide (d = domain spec)) as [->|Hne].
    + rewrite decide_True by done.
      destruct (decide (domain spec ∈ byDomain.*1)) as [Hkey|Hkey].
      * apply list_elem_of_fmap in Hkey as ([d0 l0] & Hd0 & Hin0). cbn [fst] in Hd0.
        subst d0. apply (pushSpec_known _ _ l0) in Hin; [|done..].
        subst l. f_equal. by apply Hl.
      * rewrite pushSpec_new in Hin by done.
        apply elem_of_app in Hin as [Hin|Hin].
        { exfalso. apply Hkey. apply list_elem_of_fmap. by exists (domain spec, l). }
        apply list_elem_of_singleton in Hin. injection Hin as ->.
        replace (filter (fun s => domain s = domain spec) seen) with (@nil SpecType); [done|].
        symmetry. apply filter_none. intros s Hs Hd.
        apply Hkey. rewrite <- Hd. by apply Hk.
    + rewrite decide_False by done. rewrite app_nil_r.
      apply pushSpec_other in Hin; [|done]. by apply Hl.
  - intros s Hs. rewrite pushSpec_keys.
    apply elem_of_app in Hs as [Hs|Hs].
    + case_decide; [by apply Hk|]. apply elem_of_app. left. by apply Hk.
    + apply list_elem_of_singleton in Hs as ->.
      case_decide as Hin; [done|]. apply elem_of_app. right. left.
Qed.

Lemma groupByDomain_grouped specTypes : grouped (groupByDomain specTypes) specTypes.
Proof.
  unfold groupByDomain.
  induction specTypes as [|spec specTypes IH] using rev_ind.
  - split; [apply NoDup_nil_2|]. split; [by intros d l ?%elem_of_nil|].
    by intros s ?%elem_of_nil.
  - rewrite fold_left_app. simpl. by apply grouped_push.
Qed.

Lemma candidates_fold entries cands c :
  c ∈ fold_left (fun cands (entry : Domain * list SpecType) =>
                   domainCandidates entry.2 cands) entries cands <->
  c ∈ cands \/
  exists d l si sj, (d, l) ∈ entries /\ before l si sj /\
    similarEnough si sj = true /\ c = candidateOf si sj.
Proof.
  revert cands. induction entries as [|[d l] entries IH]; intros cands; simpl.
  - split; [by left|]. intros [H|(d & l & si & sj & H & _)]; [done|].
    by apply elem_of_nil in H.
  - rewrite IH, domainCandidates_elem. split.
    + intros [[H|(si & sj & Hb & Hs & ->)]|(d' & l' & si & sj & Hin & Hb & Hs & ->)].
      * by left.
      * right. exists d, l, si, sj. split; [left|done].
      * right. exists d', l', si, sj. split; [by right|done].
    + intros [H|(d' & l' & si & sj & Hin & Hb & Hs & ->)]; [by left; left|].
      apply elem_of_cons in Hin as [[= -> ->]|Hin].
      * left; right. by exists si, sj.
      * right. by exists d', l', si, sj.
Qed.

(** The candidates are the pairs of one domain that are similar enough. *)
Lemma findCandidates_elem specTypes c :
  c ∈ findCandidates specTypes <->
  exists si sj, before specTypes si sj /\ domain si = domain sj /\
    similarEnough si sj = true /\ c = candidateOf si sj.
Proof.
  unfold findCandidates. rewrite candidates_fold.
  destruct (groupByDomain_grouped specTypes) as (Hnd & Hl & Hk). split.
  - intros [H|(d & l & si & sj & Hin & Hb & Hs & ->)]; [by apply elem_of_nil in H|].
    rewrite (Hl d l Hin) in Hb. apply before_filter in Hb as (Hb & H1 & H2).
    exists si, sj. repeat split; try done. congruence.
  - intros (si & sj & Hb & Hd & Hs & ->). right.
    assert (Hsi : si ∈ specTypes).
    { destruct Hb as (l1 & l2 & l3 & ->). apply elem_of_app. right. left. }
    apply Hk, list_elem_of_fmap in Hsi as ([d l] & Hdl & Hin). simpl in Hdl.
    exists d, l, si, sj. split; [done|]. split; [|done].
    rewrite (Hl d l Hin). apply before_filter. by rewrite <- Hd.
Qed.

(** *** Stage 2 *)

Lemma recordVerdicts_elem batch results groups g :
  (forall r, r ∈ results -> accepted r = true -> pairIndex r < length batch) ->
  g ∈ recordVerdicts batch results groups <->
  g ∈ groups \/
  exists r cand, r ∈ results /\ accepted r = true /\
    batch !! pairIndex r = Some cand /\ g = groupOf cand r.
Proof.
  revert groups. induction results as [|r results IH]; intros groups Hwf; simpl.
  - split; [by left|]. intros [H|(r & cand & H & _)]; [done|]. by apply elem_of_nil in H.
  - destruct (accepted r) eqn:Hacc.
    + destruct (batch !! pairIndex r) as [cand|] eqn:Hcand.
      * rewrite IH by (intros r' Hr'; apply Hwf; by right).
        rewrite elem_of_app, list_elem_of_singleton. split.
        -- intros [[H| ->]|(r' & cand' & Hin & Ha & Hc & ->)].
           ++ by left.
           ++ right. exists r, cand. split; [left|done].
           ++ right. exists r', cand'. split; [by right|done].
        -- intros [H|(r' & cand' & Hin & Ha & Hc & ->)]; [by left; left|].
           apply elem_of_cons in Hin as [->|Hin].
           ++ left; right. congruence.
           ++ right. by exists r', cand'.
      * exfalso. apply lookup_ge_None in Hcand.
        pose proof (Hwf r ltac:(left) Hacc). lia.
    + rewrite IH by (intros r' Hr'; apply Hwf; by right). split.
      * intros [H|(r' & cand' & Hin & Ha & Hc & ->)]; [by left|].
        right. exists r', cand'. split; [by right|done].
      * intros [H|(r' & cand' & Hin & Ha & Hc & ->)]; [by left|].
        apply elem_of_cons in Hin as [->|Hin]; [congruence|].
        right. by exists r', cand'.
Qed.

Lemma processBatch_elem oracle batch groups g :
  wellIndexed oracle ->
  g ∈ processBatch oracle batch groups <->
  g ∈ groups \/
  exists r cand, r ∈ verdictsOf oracle batch /\ accepted r = true /\
    batch !! pairIndex r = Some cand /\ g = groupOf cand r.
Proof.
  intros Hwf. specialize (Hwf batch). unfold processBatch, verdictsOf in *.
  destruct (oracle batch) as [results|]; simpl in *.
  - by apply recordVerdicts_elem.
  - split; [by left|]. intros [H|(r & cand & H & _)]; [done|]. by apply elem_of_nil in H.
Qed.

Lemma step_index i k : i + S k * batchSize = i + batchSize + k * batchSize.
Proof. unfold batchSize. lia. Qed.

Lemma batchLoop_elem oracle candidates fuel i groups g :
  wellIndexed oracle ->
  g ∈ batchLoop fuel oracle candidates i groups <->
  g ∈ groups \/
  exists k r cand, k < fuel /\ i + k * batchSize < length candidates /\
    r ∈ verdictsOf oracle (batchAt candidates (i + k * batchSize)) /\
    accepted r = true /\
    batchAt candidates (i + k * batchSize) !! pairIndex r = Some cand /\
    g = groupOf cand r.
Proof.
  intros Hwf. revert i groups. induction fuel as [|fuel IH]; intros i groups; simpl.
  - split; [by left|]. intros [H|(k & r & cand & Hk & _)]; [done|lia].
  - destruct (Nat.ltb i (length candidates)) eqn:Hi.
    + apply Nat.ltb_lt in Hi. rewrite IH, processBatch_elem by done. split.
      * intros [[H|(r & cand & Hr & Ha & Hc & ->)]|(k & r & cand & Hk & Hlt & Hr & Ha & Hc & ->)].
        -- by left.
        -- right. exists 0, r, cand. rewrite Nat.mul_0_l, Nat.add_0_r.
           split; [lia|]. done.
        -- right. exists (S k), r, cand. rewrite step_index.
           split; [lia|]. done.
      * intros [H|(k & r & cand & Hk & Hlt & Hr & Ha & Hc & ->)]; [by left; left|].
        destruct k as [|k].
        -- rewrite Nat.mul_0_l, Nat.add_0_r in *. left; right. by exists r, cand.
        -- rewrite step_index in *.
           right. exists k, r, cand. split; [lia|done].
    + apply Nat.ltb_ge in Hi. split; [by left|].
      intros [H|(k & r & cand & Hk & Hlt & _)]; [done|lia].
Qed.

Lemma batchDetectDuplicates_elem oracle candidates g :
  wellIndexed oracle ->
  g ∈ batchDetectDuplicates oracle candidates <->
  exists k r cand, k * batchSize < length candidates /\
    r ∈ verdictsOf oracle (batchAt candidates (k * batchSize)) /\
    accepted r = true /\
    batchAt candidates (k * batchSize) !! pairIndex r = Some cand /\
    g = groupOf cand r.
Proof.
  intros Hwf. unfold batchDetectDuplicates. rewrite batchLoop_elem by done. simpl.
  split.
  - intros [H|(k & r & cand & Hk & Hlt & Hrest)]; [by apply elem_of_nil in H|].
    by exists k, r, cand.
  - intros (k & r & cand & Hlt & Hrest). right. exists k, r, cand.
    split; [unfold batchSize in Hlt; lia|done].
Qed.

(** Stage 2 for any answer of the Oracle. *)
Lemma recordVerdicts_recorded batch results groups g :
  g ∈ recordVerdicts batch results groups <->
  g ∈ groups \/ recordedFor batch results g.
Proof.
  unfold recordedFor.
  revert groups. induction results as [|r0 results IH]; intros groups; simpl.
  - split; [by left|]. intros [H|(l1 & r & l2 & cand & H & _)]; [done|].
    by destruct l1.
  - destruct (accepted r0) eqn:Hacc.
    + destruct (batch !! pairIndex r0) as [c|] eqn:Hc.
      * rewrite IH, elem_of_app, list_elem_of_singleton. split.
        -- intros [[H| ->]|(l1 & r & l2 & cand & -> & Hl1 & Ha & Hcand & ->)].
           ++ by left.
           ++ right. by exists [], r0, results, c.
           ++ right. exists (r0 :: l1), r, l2, cand. split; [done|].
              split; [|done]. constructor; [|done].
              intros _. by apply lookup_lt_Some in Hc.
        -- intros [H|(l1 & r & l2 & cand & Heq & Hl1 & Ha & Hcand & ->)];
             [by left; left|].
           destruct l1 as [|r1 l1]; simpl in Heq; injection Heq as -> ->.
           ++ left; right. congruence.
           ++ right. exists l1, r, l2, cand. split; [done|].
              split; [by apply Forall_cons in Hl1 as [_ ?]|done].
      * split; [by left|].
        intros [H|(l1 & r & l2 & cand & Heq & Hl1 & Ha & Hcand & ->)]; [done|].
        exfalso. apply lookup_ge_None in Hc.
        destruct l1 as [|r1 l1]; simpl in Heq; injection Heq as -> ->.
        -- apply lookup_lt_Some in Hcand. lia.
        -- apply Forall_cons in Hl1 as [Hr0 _]. specialize (Hr0 Hacc). lia.
    + rewrite IH. split.
      * intros [H|(l1 & r & l2 & cand & -> & Hl1 & Ha & Hcand & ->)]; [by left|].
        right. exists (r0 :: l1), r, l2, cand. split; [done|].
        split; [|done]. constructor; [|done]. intros ?. congruence.
      * intros [H|(l1 & r & l2 & cand & Heq & Hl1 & Ha & Hcand & ->)]; [by left|].
        destruct l1 as [|r1 l1]; simpl in Heq; injection Heq as -> ->;
          [congruence|].
        right. exists l1, r, l2, cand. split; [done|].
        split; [by apply Forall_cons in Hl1 as [_ ?]|done].
Qed.

Lemma processBatch_recorded oracle batch groups g :
  g ∈ processBatch oracle batch groups <->
  g ∈ groups \/ recordedFor batch (verdictsOf oracle batch) g.
Proof.
  unfold processBatch, verdictsOf.
  destruct (oracle batch) as [results|]; simpl; [apply recordVerdicts_recorded|].
  split; [by left|]. intros [H|(l1 & r & l2 & cand & H & _)]; [done|].
  by destruct l1.
Qed.

Lemma batchLoop_recorded oracle candidates fuel i groups g :
  g ∈ batchLoop fuel oracle candidates i groups <->
  g ∈ groups \/
  exists k, k < fuel /\ i + k * batchSize < length candidates /\
    recordedFor (batchAt candidates (i + k * batchSize))
      (verdictsOf oracle (batchAt candidates (i + k * batchSize))) g.
Proof.
  revert i groups. induction fuel as [|fuel IH]; intros i groups; simpl.
  - split; [by left|]. intros [H|(k & Hk & _)]; [done|lia].
  - destruct (Nat.ltb i (length candidates)) eqn:Hi.
    + apply Nat.ltb_lt in Hi. rewrite IH, processBatch_recorded. split.
      * intros [[H|H]|(k & Hk & Hlt & H)].
        -- by left.
        -- right. exists 0. rewrite Nat.mul_0_l, Nat.add_0_r. split; [lia|done].
        -- right. exists (S k). rewrite step_index. split; [lia|done].
      * intros [H|(k & Hk & Hlt & H)]; [by left; left|].
        destruct k as [|k].
        -- rewrite Nat.mul_0_l, Nat.add_0_r in *. by left; right.
        -- rewrite step_index in *. right. exists k. split; [lia|done].
    + apply Nat.ltb_ge in Hi. split; [by left|].
      intros [H|(k & Hk & Hlt & _)]; [done|lia].
Qed.

Lemma batchDetectDuplicates_recorded oracle candidates g :
  g ∈ batchDetectDuplicates oracle candidates <->
  exists k, k * batchSize < length candidates /\
    recordedFor (batchAt candidates (k * batchSize))
      (verdictsOf oracle (batchAt candidates (k * batchSize))) g.
Proof.
  unfold batchDetectDuplicates. rewrite batchLoop_recorded. simpl. split.
  - intros [H|(k & Hk & Hlt & H)]; [by apply elem_of_nil in H|]. by exists k.
  - intros (k & Hlt & H). right. exists k.
    split; [unfold batchSize in Hlt; lia|done].
Qed.

(** C6 as stated fails on the code: a candidate whose verdict is true or
    whose score is at least 85 is not recorded when an accepted result
    before it in the answer points outside the batch: [batch[result.pairIndex]]
    is then undefined, reading [cand.spec1] throws, and the [catch] of the
    batch drops the results that follow.  Here the answer confirms the only
    candidate with score 90 after such a result, and no group is recorded. *)
Lemma C6_accepted_verdict_is_lost :
  findCandidates [coolingCapacity; totalCoolingCapacity]
    = [candidateOf coolingCapacity totalCoolingCapacity] /\
  verdictsOf strayOracle [candidateOf coolingCapacity totalCoolingCapacity]
    = [ {| pairIndex := 1; areDuplicates := true; similarity := 95;
           reason := "another pair" |};
        {| pairIndex := 0; areDuplicates := true; similarity := 90;
           reason := "same property" |} ] /\
  findSemanticDuplicates strayOracle [coolingCapacity; totalCoolingCapacity] = [] /\
  ~ (forall oracle candidates g,
       g ∈ batchDetectDuplicates oracle candidates <->
       exists k r cand, k * batchSize < length candidates /\
         r ∈ verdictsOf oracle (batchAt candidates (k * batchSize)) /\
         batchAt candidates (k * batchSize) !! pairIndex r = Some cand /\
         (areDuplicates r = true \/ PrimFloat.leb 85 (similarity r) = true) /\
         g = groupOf cand r).
Proof.
  split; [by vm_compute|]. split; [done|]. split; [by vm_compute|].
  intros Hiff.
  specialize (Hiff strayOracle [candidateOf coolingCapacity totalCoolingCapacity]
                (groupOf (candidateOf coolingCapacity totalCoolingCapacity)
                   confirmingVerdict)).
  assert (batchDetectDuplicates strayOracle
            [candidateOf coolingCapacity totalCoolingCapacity] = []) as Hnone
    by by vm_compute.
  rewrite Hnone in Hiff. apply (elem_of_nil (A := DuplicateGroup)) with
    (x := groupOf (candidateOf coolingCapacity totalCoolingCapacity) confirmingVerdict).
  apply Hiff. exists 0, confirmingVerdict,
    (candidateOf coolingCapacity totalCoolingCapacity).
  split; [simpl; lia|]. split; [right; left|]. split; [done|]. split; [by left|done].
Qed.

(** C6, amended. A pair of spec entries (the first standing before the
    second in the list) is a candidate of stage 2 exactly when both have the
    same domain and the Jaccard index of the sets of the lower-cased,
    white-space separated words of their primary names, the size of the
    intersection over the size of the union, taken as a percentage in double
    arithmetic, is at least 30.  A group is recorded exactly for the results
    of an answer that point to a candidate of their batch, whose verdict is
    true or whose score is at least 85, and that are not preceded in the
    answer by such a result pointing outside the batch; for an Oracle whose
    accepted results all point into their batch this is every result whose
    verdict is true or whose score is at least 85.  A score of 90 gives a
    group, a score of 40 with a false verdict gives none.  The names
    "Cooling Capacity" and "Total Cooling Capacity" are similar enough. *)
Theorem C6_duplicate_detection oracle specTypes :
  (forall c, c ∈ findCandidates specTypes <->
     exists si sj, before specTypes si sj /\ domain si = domain sj /\
       let words1 : gset string :=
         list_to_set (JS.splitWhitespace (JS.toLowerCase (primaryName si))) in
       let words2 : gset string :=
         list_to_set (JS.splitWhitespace (JS.toLowerCase (primaryName sj))) in
       let jaccard :=
         (JS.ofNat (size (words1 ∩ words2)) / JS.ofNat (size (words1 ∪ words2))
          * 100)%float in
       PrimFloat.leb 30 jaccard = true /\
       c = {| spec1 := si; spec2 := sj; stringSimilarity := jaccard |}) /\
  (forall candidates g, g ∈ batchDetectDuplicates oracle candidates <->
     exists k l1 r l2 cand,
       k * batchSize < length candidates /\
       verdictsOf oracle (batchAt candidates (k * batchSize)) = l1 ++ r :: l2 /\
       Forall (fun r' =>
                 areDuplicates r' = true \/ PrimFloat.leb 85 (similarity r') = true ->
                 pairIndex r' < length (batchAt candidates (k * batchSize))) l1 /\
       batchAt candidates (k * batchSize) !! pairIndex r = Some cand /\
       (areDuplicates r = true \/ PrimFloat.leb 85 (similarity r) = true) /\
       g = {| dup_similarity := similarity r; dup_reason := reason r;
              Duplicates.specTypes := [spec1 cand; spec2 cand] |}) /\
  (wellIndexed oracle ->
   forall candidates g, g ∈ batchDetectDuplicates oracle candidates <->
     exists k r cand, k * batchSize < length candidates /\
       r ∈ verdictsOf oracle (batchAt candidates (k * batchSize)) /\
       batchAt candidates (k * batchSize) !! pairIndex r = Some cand /\
       (areDuplicates r = true \/ PrimFloat.leb 85 (similarity r) = true) /\
       g = {| dup_similarity := similarity r; dup_reason := reason r;
              Duplicates.specTypes := [spec1 cand; spec2 cand] |}) /\
  (forall r, similarity r = 90%float -> accepted r = true) /\
  (forall r, similarity r = 40%float -> areDuplicates r = false -> accepted r = false) /\
  similarEnough coolingCapacity totalCoolingCapacity = true.
Proof.
  split; [|split; [|split; [|split; [|split]]]].
  - intros c. apply findCandidates_elem.
  - intros candidates g. rewrite batchDetectDuplicates_recorded.
    unfold recordedFor, accepted, groupOf. setoid_rewrite orb_true_iff.
    split.
    + intros (k & Hk & l1 & r & l2 & cand & H1 & H2 & H3 & H4 & H5).
      by exists k, l1, r, l2, cand.
    + intros (k & l1 & r & l2 & cand & Hk & H1 & H2 & H3 & H4 & H5).
      exists k. split; [done|]. by exists l1, r, l2, cand.
  - intros Hwf candidates g. rewrite batchDetectDuplicates_elem by done.
    unfold accepted, groupOf. setoid_rewrite orb_true_iff. naive_solver.
  - intros r Hr. unfold accepted. rewrite Hr. apply orb_true_iff. by right.
  - intros r Hr Hd. unfold accepted. by rewrite Hr, Hd.
  - by vm_compute.
Qed.

Lemma confirmingOracle_wellIndexed : wellIndexed confirmingOracle.
Proof.
  intros batch r Hr Hacc. unfold verdictsOf, confirmingOracle in Hr.
  destruct batch as [|c batch]; simpl in *.
  - by apply elem_of_nil in Hr.
  - apply list_elem_of_singleton in Hr as ->. simpl. lia.
Qed.

Lemma C6_duplicate_detection_witness :
  candidateOf coolingCapacity totalCoolingCapacity
    ∈ findCandidates [coolingCapacity; totalCoolingCapacity].
Proof.
  apply (proj1 (C6_duplicate_detection confirmingOracle
                  [coolingCapacity; totalCoolingCapacity])).
  exists coolingCapacity, totalCoolingCapacity.
  split; [by exists [], [], []|]. split; [reflexivity|]. split; [|reflexivity].
  vm_compute. reflexivity.
Defined.

End DuplicatesFacts.

(** ** Facts about the checkpointed pipeline *)
Module CollectorFacts.
Import Collector ListFacts.

(** *** Loading the checkpoint *)

Lemma slice_then_drop {A} (l : list A) i n :
  JS.slice i (Nat.min (i + n) (length l)) l ++ drop (i + n) l = drop i l.
Proof.
  unfold JS.slice. rewrite <- (drop_drop l n i).
  destruct (decide (i + n <= length l)) as [Hle|Hgt].
  - rewrite Nat.min_l by done. replace (i + n - i) with n by lia.
    apply take_drop.
  - rewrite Nat.min_r by lia.
    rewrite take_ge by (rewrite length_drop; lia).
    rewrite (drop_ge (drop i l)) by (rewrite length_drop; lia).
    apply app_nil_r.
Qed.

(** With enough fuel the loop sends every unit from [i] on to the Oracle. *)
Lemma classifyLoop_requests fuel o unmapped i st :
  length unmapped - i <= fuel ->
  (classifyLoop fuel o unmapped i st).2 = st.2 ++ drop i unmapped.
Proof.
  revert i st. induction fuel as [|fuel IH]; intros i st Hfuel; simpl.
  - rewrite drop_ge by lia. by rewrite app_nil_r.
  - destruct (Nat.ltb i (length unmapped)) eqn:Hi.
    + rewrite IH by (unfold classifyBatchSize; lia). simpl.
      rewrite <- app_assoc. f_equal. apply slice_then_drop.
    + apply Nat.ltb_ge in Hi. rewrite drop_ge by lia. by rewrite app_nil_r.
Qed.

(** While the classification is not complete, phase 1 sends every unit
    without group to the Oracle, whatever the checkpoint records. *)
Lemma phase1_requests o allUnits cp :
  classificationComplete cp = false ->
  (phase1 o allUnits cp).2 = unmappedUnits allUnits.
Proof.
  intros Hcp. unfold phase1. rewrite Hcp. simpl.
  destruct (Nat.ltb 0 (length (unmappedUnits allUnits))) eqn:Hlen; simpl.
  - rewrite classifyLoop_requests by lia. done.
  - apply Nat.ltb_ge in Hlen. by destruct (unmappedUnits allUnits); [|simpl in Hlen; lia].
Qed.

(** C9. [loadCheckpoint] does not throw: when the file is missing, when it
    cannot be read, when its text is not JSON and when the parsed value has
    no [classificationComplete] field it returns the object with
    [classificationComplete] false, [groupsClassified] the empty table,
    [conversionsGroupsCompleted] and [unitsCompleted] the empty array,
    [currentConversionGroupId] null and [lastUpdated] the current time; it
    returns the parsed value otherwise.  [main] reads this object as the
    state without progress: from it phase 1 classifies every unit without
    group, the filter of phase 2 skips no group as completed, and every unit
    of a group is to be processed. *)
Theorem C9_checkpoint_fallback JSON_parse now :
  let fresh :=
    JObject [("classificationComplete", JBool false);
             ("groupsClassified", JObject []);
             ("conversionsGroupsCompleted", JArray []);
             ("currentConversionGroupId", JNull);
             ("unitsCompleted", JArray []);
             ("lastUpdated", JString now)] in
  let start :=
    {| classificationComplete := false; groupsClassified := [];
       conversionsGroupsCompleted := []; currentConversionGroupId := None;
       unitsCompleted := [] |} in
  loadCheckpoint JSON_parse now Missing = fresh /\
  loadCheckpoint JSON_parse now Unreadable = fresh /\
  (forall text, JSON_parse text = Throw ->
     loadCheckpoint JSON_parse now (Content text) = fresh) /\
  (forall text data, JSON_parse text = Ok data ->
     ~ hasClassificationComplete data ->
     loadCheckpoint JSON_parse now (Content text) = fresh) /\
  (forall text data, JSON_parse text = Ok data ->
     hasClassificationComplete data ->
     loadCheckpoint JSON_parse now (Content text) = data) /\
  checkpointOfJson fresh = Some start /\
  (forall o allUnits, (phase1 o allUnits start).2 = unmappedUnits allUnits) /\
  (forall allUnits g,
     needsConversions start allUnits g =
     bool_decide (Z.of_nat (length (conversions g))
                  < Closure.expectedCount
                      (length (Closure.groupUnitsOf allUnits g)))%Z
     && Nat.leb 2 (length (Closure.groupUnitsOf allUnits g))) /\
  (forall group groupUnits, unitsToProcess start group groupUnits = groupUnits).
Proof.
  cbv zeta.
  split; [done|]. split; [done|].
  split; [|split; [|split; [|split; [|split; [|split]]]]].
  - intros text Hparse. unfold loadCheckpoint, loadCheckpointTry. simpl.
    by rewrite Hparse.
  - intros text data Hparse Hno. unfold loadCheckpoint, loadCheckpointTry. simpl.
    rewrite Hparse. simpl.
    destruct data as [| | | | |fields]; simpl; try done.
    destruct (lookupField "classificationComplete" fields) as [v|] eqn:Hf; [|done].
    exfalso. apply Hno. simpl. rewrite Hf. by eexists.
  - intros text data Hparse Hhas. unfold loadCheckpoint, loadCheckpointTry. simpl.
    rewrite Hparse. simpl.
    destruct data as [| | | | |fields]; simpl in *; try done.
    by destruct Hhas as [v ->].
  - done.
  - intros o allUnits. by apply phase1_requests.
  - done.
  - done.
Qed.

(** *** Validation and merge of the Oracle's edges *)

Lemma truthy_nonempty s : JS.truthy s = true <-> s <> "".
Proof. by destruct s. Qed.

(** What [validateConversion] accepts: the unit list it is given decides
    where [to] may point. *)
Lemma validateConversion_Some conv fromUnit allUnits d :
  validateConversion conv fromUnit allUnits = Some d <->
  exists from to m eqn,
    raw_from conv = Some from /\ raw_to conv = Some to /\
    raw_multiplier conv = Some m /\ raw_equation conv = Some eqn /\
    from <> "" /\ to <> "" /\ eqn <> "" /\
    from = symbol fromUnit /\
    (exists u, u ∈ allUnits /\ symbol u = to) /\
    PrimFloat.leb m 0 = false /\ JS.isFinite m = true /\
    JS.includesChar "x"%char eqn = true /\
    d = {| cd_from := from; cd_to := to; cd_multiplier := m;
           cd_equation := JS.trim eqn |}.
Proof.
  unfold validateConversion.
  destruct (raw_from conv) as [from|];
    [|split; [done|by intros (? & ? & ? & ? & ? & _)]].
  destruct (raw_to conv) as [to|];
    [|split; [done|by intros (? & ? & ? & ? & _ & ? & _)]].
  destruct (raw_multiplier conv) as [m|];
    [|split; [done|by intros (? & ? & ? & ? & _ & _ & ? & _)]].
  destruct (raw_equation conv) as [eqn|];
    [|split; [done|by intros (? & ? & ? & ? & _ & _ & _ & ? & _)]].
  assert (Hfind : bool_decide (is_Some (find (symbolIs to) allUnits)) = true <->
                  exists u, u ∈ allUnits /\ symbol u = to).
  { rewrite bool_decide_eq_true. split.
    - intros [u Hu]. apply find_first in Hu as (l1 & l2 & -> & Hu & _).
      unfold symbolIs in Hu. apply bool_decide_eq_true in Hu.
      exists u. split; [|done]. apply elem_of_app. right. left.
    - intros (u & Hu & Hs).
      destruct (find (symbolIs to) allUnits) eqn:Hf; [by eexists|].
      pose proof (proj1 (find_nothing _ _) Hf u Hu) as Hno.
      unfold symbolIs in Hno. by rewrite bool_decide_eq_false in Hno. }
  split.
  - intros H. exists from, to, m, eqn. rewrite <- !truthy_nonempty, <- Hfind.
    destruct (JS.truthy from), (JS.truthy to), (JS.truthy eqn); simpl in H; try done.
    case_bool_decide as Hsym; simpl in H; [|done].
    destruct (bool_decide (is_Some (find (symbolIs to) allUnits))); simpl in H; [|done].
    destruct (PrimFloat.leb m 0); simpl in H; [done|].
    destruct (JS.isFinite m); simpl in H; [|done].
    destruct (JS.includesChar "x" eqn); simpl in H; [|done].
    injection H as <-. done.
  - intros (from' & to' & m' & eqn' & [= <-] & [= <-] & [= <-] & [= <-] &
            H1 & H2 & H3 & H4 & H5 & H6 & H7 & H8 & ->).
    apply truthy_nonempty in H1, H2, H3. apply Hfind in H5.
    rewrite H1, H2, H3, H5, H6, H7, H8. simpl.
    by rewrite bool_decide_eq_true_2.
Qed.

(** An edge from a unit of the group to itself passes the validation, whatever
    the group is. *)
Lemma self_edge_accepted u groupUnits m eqn :
  u ∈ groupUnits -> symbol u <> "" -> eqn <> "" ->
  PrimFloat.leb m 0 = false -> JS.isFinite m = true ->
  JS.includesChar "x"%char eqn = true ->
  validateConversion
    {| raw_from := Some (symbol u); raw_to := Some (symbol u);
       raw_multiplier := Some m; raw_equation := Some eqn |} u groupUnits =
  Some {| cd_from := symbol u; cd_to := symbol u; cd_multiplier := m;
          cd_equation := JS.trim eqn |}.
Proof.
  intros Hu Hsym Heqn Hpos Hfin Hx. apply validateConversion_Some.
  exists (symbol u), (symbol u), m, eqn. simpl.
  do 4 (split; [done|]). do 4 (split; [done|]).
  split; [by exists u|]. done.
Qed.

(** C5 fails on the code. For the unit GPM of the group {GPM, L/s} the
    requested units are L/s alone; an edge of the answer that goes from GPM
    to GPM passes [validateConversion], which is given the whole group, and
    the merge adds an equation from GPM to itself to the empty list. *)
Theorem C5_self_edge_is_merged :
  let groupUnits := [Linker.gpm; litersPerSecond] in
  let toUnits := filter (fun u => unit_id u <> unit_id Linker.gpm) groupUnits in
  toUnits = [litersPerSecond] /\
  (forall u, u ∈ toUnits -> symbol u <> "GPM") /\
  validateConversion (selfEdge Linker.gpm) Linker.gpm groupUnits =
    Some {| cd_from := "GPM"; cd_to := "GPM"; cd_multiplier := 1;
            cd_equation := "x * 1" |} /\
  (requestConversions selfAnsweringOracle flowGroup groupUnits Linker.gpm).2 =
    [ {| cd_from := "GPM"; cd_to := "GPM"; cd_multiplier := 1; cd_equation := "x * 1" |};
      {| cd_from := "GPM"; cd_to := "L/s"; cd_multiplier := 2; cd_equation := "x * 2" |} ] /\
  mergeConversion Closure.exampleRuntime groupUnits Linker.gpm (0, [], 0)
    {| cd_from := "GPM"; cd_to := "GPM"; cd_multiplier := 1; cd_equation := "x * 1" |} =
    (1, [ {| conv_id := "00000000-0000-4000-8000-0";
             fromUnitId := unit_id Linker.gpm; toUnitId := unit_id Linker.gpm;
             multiplier := 1; equation := "x * 1";
             conv_description := "GPM to GPM" |} ], 1).
Proof.
  cbv zeta. split; [by vm_compute|]. split; [|split; [by vm_compute|split; by vm_compute]].
  intros u Hu.
  replace (filter (fun u => unit_id u <> unit_id Linker.gpm)
             [Linker.gpm; litersPerSecond]) with [litersPerSecond] in Hu by by vm_compute.
  apply list_elem_of_singleton in Hu as ->. by vm_compute.
Qed.

(** C2 fails on the code, by the same acceptance of an edge from a unit to
    itself: the group {GPM, L/s} with no conversion needs conversions; the
    Oracle answers each of the two requests with the edge to the unit itself
    and the edge to the other unit; the group ends with 4 equations, more
    than 2 × (2 − 1). *)
Theorem C2_merge_exceeds_bound :
  let allUnits := [Linker.gpm; litersPerSecond] in
  needsConversions freshCheckpoint allUnits flowGroup = true /\
  length (Closure.groupUnitsOf allUnits flowGroup) = 2 /\
  exists p,
    processGroup Closure.exampleRuntime selfAnsweringOracle allUnits freshCheckpoint 0 flowGroup
      = Some p /\
    Closure.pairOf <$> groupConversions p =
      [(unit_id Linker.gpm, unit_id Linker.gpm);
       (unit_id Linker.gpm, unit_id litersPerSecond);
       (unit_id litersPerSecond, unit_id litersPerSecond);
       (unit_id litersPerSecond, unit_id Linker.gpm)] /\
    (Closure.expectedCount 2 < Z.of_nat (length (groupConversions p)))%Z.
Proof.
  cbv zeta. split; [by vm_compute|]. split; [by vm_compute|].
  eexists. split; [vm_compute; reflexivity|]. split; by vm_compute.
Qed.

(** C3 fails on the code in phase 1. A first run over 21 units without
    group is interrupted after its first batch: the checkpoint it saved
    records the classification of 20 units and is not complete.  The next
    run sends all 21 units to the Oracle again, the 20 recorded ones
    included, and records these 20 a second time. *)
Theorem C3_classification_restarts :
  classificationComplete checkpointAfterFirstBatch = false /\
  groupsClassified checkpointAfterFirstBatch =
    [("Flow", unit_id <$> take 20 customUnits)] /\
  (phase1 selfAnsweringOracle customUnits checkpointAfterFirstBatch).2 = customUnits /\
  groupsClassified (phase1 selfAnsweringOracle customUnits checkpointAfterFirstBatch).1 =
    [("Flow", (unit_id <$> take 20 customUnits) ++ (unit_id <$> customUnits))].
Proof. repeat split; by vm_compute. Qed.

(** *** Phase 2 after a restart *)

(** A group that the checkpoint records as completed is not processed. *)
Lemma needsConversions_completed cp allUnits g :
  group_id g ∈ conversionsGroupsCompleted cp -> needsConversions cp allUnits g = false.
Proof.
  intros Hin. unfold needsConversions, JS.includes.
  by rewrite bool_decide_eq_true_2.
Qed.

(** In the group that the checkpoint records as current, the units to process
    are those that it does not record as completed. *)
Lemma unitsToProcess_current cp group groupUnits u :
  currentConversionGroupId cp = Some (group_id group) ->
  (u ∈ unitsToProcess cp group groupUnits <->
   u ∈ groupUnits /\ unit_id u ∉ unitsCompleted cp).
Proof.
  intros Hcur. unfold unitsToProcess, JS.includes.
  rewrite bool_decide_eq_true_2 by done.
  rewrite list_elem_of_filter, bool_decide_eq_false. tauto.
Qed.

Lemma phase2Step_requests rt o allUnits limit st group r :
  r ∈ p2_requests (phase2Step rt o allUnits limit st group) ->
  r ∈ p2_requests st \/ r.1 = group_id group.
Proof.
  unfold phase2Step. destruct (p2_stopped st); [by left|].
  destruct (limitReached limit (groupsProcessed st)); [by left|].
  destruct (processGroup _ _ _ _ _ _) as [p|]; [|by left]. simpl.
  intros [H|H]%elem_of_app; [by left|]. right.
  by apply list_elem_of_fmap in H as (u & -> & _).
Qed.

(** No request is made for a group that the checkpoint records as completed. *)
Lemma phase2_skips_completed rt o allUnits limit cp next unitGroups r :
  r ∈ p2_requests (phase2 rt o allUnits limit cp next unitGroups) ->
  r.1 ∉ conversionsGroupsCompleted cp.
Proof.
  unfold phase2. intros Hr.
  assert (Hgen : forall gs st,
    r ∈ p2_requests (fold_left (phase2Step rt o allUnits limit) gs st) ->
    r ∈ p2_requests st \/ exists g, g ∈ gs /\ r.1 = group_id g).
  { induction gs as [|g gs IH]; intros st H; [by left|].
    simpl in H. apply IH in H as [H|(g' & Hg' & Heq)].
    - apply phase2Step_requests in H as [H|H]; [by left|].
      right. exists g. split; [left|done].
    - right. exists g'. split; [by right|done]. }
  apply Hgen in Hr as [Hr|(g & Hg & Heq)]; [by apply elem_of_nil in Hr|].
  unfold groupsNeedingConversions in Hg. apply list_elem_of_filter in Hg as [Hneed _].
  intros Hin. rewrite Heq in Hin.
  by rewrite (needsConversions_completed _ _ _ Hin) in Hneed.
Qed.

Lemma mergeResult_saved rt group groupUnits p p' r :
  saved p = saved p' ->
  saved (mergeResult rt group groupUnits p r) = saved (mergeResult rt group groupUnits p' r).
Proof.
  unfold saved, mergeResult. intros [= -> -> ->]. simpl.
  assert (Hgen : forall l g g' n cs,
    (fold_left (mergeConversion rt groupUnits r.1) l (n, cs, g)).1 =
    (fold_left (mergeConversion rt groupUnits r.1) l (n, cs, g')).1).
  { induction l as [|c l IH]; intros g g' n cs; [done|]. simpl.
    unfold mergeConversion at 2 4. simpl.
    destruct (find (symbolIs (cd_to c)) groupUnits); [|apply IH].
    destruct (existsb _ cs); apply IH. }
  by rewrite (Hgen _ (generated p) (generated p')).
Qed.

Lemma mergeUnits_saved rt o group groupUnits l p p' :
  saved p = saved p' ->
  saved (fold_left (mergeUnit rt o group groupUnits) l p) =
  saved (fold_left (mergeUnit rt o group groupUnits) l p').
Proof.
  revert p p'. induction l as [|u l IH]; intros p p' H; [done|].
  simpl. apply IH. by apply mergeResult_saved.
Qed.

Lemma processBatch_saved rt o group groupUnits batch p :
  saved (processBatch rt o group groupUnits batch p) =
  saved (fold_left (mergeUnit rt o group groupUnits) batch p) /\
  requested (processBatch rt o group groupUnits batch p) = requested p ++ batch.
Proof.
  unfold processBatch, saved. simpl. split; [|done].
  assert (Heq : forall l q,
    fold_left (mergeResult rt group groupUnits)
      (requestConversions o group groupUnits <$> l) q =
    fold_left (mergeUnit rt o group groupUnits) l q).
  { induction l as [|u l IH]; intros q; [done|]. apply IH. }
  by rewrite Heq.
Qed.

(** With enough fuel the loop over the batches processes the units from [i]
    on, one after the other, and requests exactly these. *)
Lemma conversionLoop_saved rt o group groupUnits todo fuel i p :
  length todo - i <= fuel ->
  saved (conversionLoop fuel rt o group groupUnits todo i p) =
  saved (fold_left (mergeUnit rt o group groupUnits) (drop i todo) p) /\
  requested (conversionLoop fuel rt o group groupUnits todo i p) =
  requested p ++ drop i todo.
Proof.
  revert i p. induction fuel as [|fuel IH]; intros i p Hfuel; simpl.
  - rewrite drop_ge by lia. by rewrite app_nil_r.
  - destruct (Nat.ltb i (length todo)) eqn:Hi.
    + destruct (IH (i + conversionBatchSize)
                  (processBatch rt o group groupUnits
                     (JS.slice i (Nat.min (i + conversionBatchSize) (length todo)) todo) p))
        as [Hs Hr]; [unfold conversionBatchSize; lia|].
      destruct (processBatch_saved rt o group groupUnits
                  (JS.slice i (Nat.min (i + conversionBatchSize) (length todo)) todo) p)
        as [Hs' Hr'].
      split.
      * rewrite Hs, (mergeUnits_saved _ _ _ _ _ _ _ Hs'), <- fold_left_app.
        by rewrite slice_then_drop.
      * rewrite Hr, Hr', <- app_assoc. by rewrite slice_then_drop.
    + apply Nat.ltb_ge in Hi. rewrite drop_ge by lia. by rewrite app_nil_r.
Qed.

Lemma mergeUnits_checkpoint rt o group groupUnits l p :
  unitsCompleted (checkpoint (fold_left (mergeUnit rt o group groupUnits) l p)) =
    unitsCompleted (checkpoint p) ++ (unit_id <$> l) /\
  (l <> [] ->
   currentConversionGroupId (checkpoint (fold_left (mergeUnit rt o group groupUnits) l p))
   = Some (group_id group)).
Proof.
  revert p. induction l as [|u l IH] using rev_ind; intros p.
  - simpl. by rewrite app_nil_r.
  - rewrite fold_left_app, fmap_app. simpl. destruct (IH p) as [-> _].
    by rewrite app_assoc.
Qed.

(** Units are told apart by their identifiers: the units still to process
    after [done] are the remaining ones. *)
Lemma remaining_units (done rest : list Unit) :
  NoDup (unit_id <$> (done ++ rest)) ->
  filter (fun u => JS.includes (unit_id <$> done) (unit_id u) = false) (done ++ rest) = rest.
Proof.
  intros Hnd. rewrite fmap_app in Hnd. apply NoDup_app in Hnd as (_ & Hdis & _).
  rewrite filter_app.
  rewrite (filter_none _ done).
  - simpl. induction rest as [|u rest IH]; [done|].
    rewrite filter_cons. rewrite decide_True.
    + f_equal. apply IH. intros x Hx Hin. apply (Hdis x Hx). rewrite fmap_cons. by right.
    + unfold JS.includes. apply bool_decide_eq_false. intros Hin.
      apply (Hdis _ Hin). rewrite fmap_cons. left.
  - intros u Hu. unfold JS.includes. rewrite bool_decide_eq_false. intros Hno.
    apply Hno. by apply list_elem_of_fmap_2.
Qed.

(** The resume example, for any group: a run that starts the group, with no
    unit recorded as completed, is interrupted after the units [done]; the
    next run finds the checkpoint and the conversions saved after the last of
    them.  It requests conversions for the remaining units only, and the group
    ends with the conversions of the uninterrupted run. *)
Lemma resume_same_conversions rt o allUnits cp next group done rest :
  Closure.groupUnitsOf allUnits group = done ++ rest ->
  NoDup (unit_id <$> (done ++ rest)) ->
  done <> [] -> rest <> [] ->
  currentConversionGroupId cp = None -> unitsCompleted cp = [] ->
  let interrupted :=
    fold_left (mergeUnit rt o group (done ++ rest)) done
      (startFrom cp (conversions group) next) in
  exists whole resumed,
    processGroup rt o allUnits cp next group = Some whole /\
    processGroup rt o allUnits (checkpoint interrupted) (nextId interrupted)
      (Closure.withConversions group (groupConversions interrupted)) = Some resumed /\
    requested whole = done ++ rest /\
    requested resumed = rest /\
    groupConversions resumed = groupConversions whole /\
    checkpoint resumed = checkpoint whole.
Proof.
  intros Hunits Hnd Hdone Hrest Hcur Hcompleted interrupted.
  destruct (mergeUnits_checkpoint rt o group (done ++ rest) done
              (startFrom cp (conversions group) next)) as [Hcompl Hcurrent].
  fold interrupted in Hcompl, Hcurrent. simpl in Hcompl. rewrite Hcompleted in Hcompl.
  simpl in Hcompl. specialize (Hcurrent Hdone).
  (* the uninterrupted run *)
  assert (Htodo : unitsToProcess cp group (done ++ rest) = done ++ rest).
  { unfold unitsToProcess. by rewrite Hcur, bool_decide_eq_false_2. }
  (* the resumed run *)
  assert (Htodo' : unitsToProcess (checkpoint interrupted)
                     (Closure.withConversions group (groupConversions interrupted))
                     (done ++ rest) = rest).
  { unfold unitsToProcess. simpl. rewrite bool_decide_eq_true_2 by done.
    rewrite Hcompl. by apply remaining_units. }
  unfold processGroup.
  replace (Closure.groupUnitsOf allUnits
             (Closure.withConversions group (groupConversions interrupted)))
    with (done ++ rest) by (by rewrite <- Hunits).
  rewrite Hunits, Htodo, Htodo'.
  destruct (Nat.eqb (length (done ++ rest)) 0) eqn:Hlen.
  { apply Nat.eqb_eq in Hlen. rewrite length_app in Hlen.
    destruct done; [done|simpl in Hlen; lia]. }
  destruct (Nat.eqb (length rest) 0) eqn:Hlen'.
  { apply Nat.eqb_eq in Hlen'. by destruct rest. }
  eexists _, _. split; [reflexivity|]. split; [reflexivity|].
  destruct (conversionLoop_saved rt o group (done ++ rest) (done ++ rest)
              (length (done ++ rest)) 0 (startFrom cp (conversions group) next))
    as [Hs Hr]; [lia|].
  destruct (conversionLoop_saved rt o
              (Closure.withConversions group (groupConversions interrupted))
              (done ++ rest) rest (length rest) 0
              (startFrom (checkpoint interrupted) (groupConversions interrupted)
                 (nextId interrupted)))
    as [Hs' Hr']; [lia|].
  rewrite drop_0 in Hs, Hr, Hs', Hr'.
  rewrite fold_left_app in Hs. fold interrupted in Hs.
  assert (Hsame :
    saved (conversionLoop (length rest) rt o
             (Closure.withConversions group (groupConversions interrupted))
             (done ++ rest) rest 0
             (startFrom (checkpoint interrupted) (groupConversions interrupted)
                (nextId interrupted)))
    = saved (conversionLoop (length (done ++ rest)) rt o group
               (done ++ rest) (done ++ rest) 0
               (startFrom cp (conversions group) next))).
  { rewrite Hs, Hs'.
    change (mergeUnit rt o (Closure.withConversions group (groupConversions interrupted)))
      with (mergeUnit rt o group).
    by apply mergeUnits_saved. }
  unfold saved in Hsame. injection Hsame as Hc Hg Hn.
  simpl. rewrite Hr, Hr'. do 2 (split; [done|]).
  unfold completeGroup. simpl. by rewrite Hc, Hg.
Qed.

End CollectorFacts.

Module BuiltinsFacts.
Import Builtins.

Lemma setAdd_elem x y s : y ∈ setAdd x s <-> y ∈ s \/ y = x.
Proof.
  unfold setAdd. case_bool_decide as H.
  - split; [by left|]. by intros [?| ->].
  - rewrite elem_of_app, list_elem_of_singleton. done.
Qed.

Lemma setAdd_NoDup x s : NoDup s -> NoDup (setAdd x s).
Proof.
  intros Hs. unfold setAdd. case_bool_decide as H; [done|].
  apply NoDup_app. split; [done|]. split; [|apply NoDup_singleton].
  intros y Hy ->%list_elem_of_singleton. done.
Qed.

Lemma setAdd_prefix x s : exists t, setAdd x s = s ++ t.
Proof.
  unfold setAdd. case_bool_decide; [exists []; by rewrite app_nil_r|by eexists].
Qed.

Lemma setAdds_elem l s y :
  y ∈ fold_left (fun s x => setAdd x s) l s <-> y ∈ s \/ y ∈ l.
Proof.
  revert s. induction l as [|x l IH]; intros s; simpl.
  - split; [by left|]. intros [?|H]; [done|by apply elem_of_nil in H].
  - rewrite IH, setAdd_elem, elem_of_cons. naive_solver.
Qed.

Lemma setAdds_NoDup l s :
  NoDup s -> NoDup (fold_left (fun s x => setAdd x s) l s).
Proof.
  revert s. induction l as [|x l IH]; intros s Hs; [done|].
  simpl. apply IH. by apply setAdd_NoDup.
Qed.

Lemma setOfList_elem l y : y ∈ setOfList l <-> y ∈ l.
Proof.
  unfold setOfList. rewrite setAdds_elem. split; [|by right].
  intros [H|?]; [by apply elem_of_nil in H|done].
Qed.

Lemma setOfList_NoDup l : NoDup (setOfList l).
Proof. apply setAdds_NoDup. constructor. Qed.

Lemma omap_cons_eq {A B} (f : A -> option B) x l :
  omap f (x :: l) = match f x with Some y => y :: omap f l | None => omap f l end.
Proof. done. Qed.

Lemma omap_ext_in {A B} (f g : A -> option B) (l : list A) :
  (forall x, x ∈ l -> f x = g x) -> omap f l = omap g l.
Proof.
  induction l as [|x l IH]; intros H; [done|].
  rewrite !omap_cons_eq, H by left. rewrite IH; [done|].
  intros y Hy. apply H. by right.
Qed.

Lemma omap_fmap_comp {A B C} (h : B -> option C) (g : A -> B) (l : list A) :
  omap h (g <$> l) = omap (fun x => h (g x)) l.
Proof.
  induction l as [|x l IH]; [done|].
  rewrite fmap_cons, !omap_cons_eq, IH. done.
Qed.

Lemma omap_if_filter {A B} (P : A -> bool) (h : A -> option B) (l : list A) :
  omap (fun x => if P x then h x else None) l
  = omap h (filter (fun x => P x = true) l).
Proof.
  induction l as [|x l IH]; [done|].
  rewrite filter_cons, omap_cons_eq, IH. destruct (P x) eqn:HP.
  - rewrite decide_True by done. by rewrite omap_cons_eq.
  - rewrite decide_False by done. done.
Qed.

Lemma omap_fmap_section {A B} (h : B -> option A) (g : A -> B) (l : list A) :
  (forall x, x ∈ l -> h (g x) = Some x) -> omap h (g <$> l) = l.
Proof.
  induction l as [|x l IH]; intros H; [done|].
  rewrite fmap_cons, omap_cons_eq, H by left. f_equal. apply IH.
  intros y Hy. apply H. by right.
Qed.

Lemma omap_length_le {A B} (f : A -> option B) l : length (omap f l) <= length l.
Proof.
  induction l as [|x l IH]; [done|]. rewrite omap_cons_eq.
  destruct (f x); simpl; lia.
Qed.

Lemma filter_all {A} (P : A -> Prop) `{!forall x, Decision (P x)} (l : list A) :
  (forall x, x ∈ l -> P x) -> filter P l = l.
Proof.
  induction l as [|x l IH]; intros HP; [done|].
  rewrite filter_cons, decide_True by (apply HP; left).
  f_equal. apply IH. intros y Hy. apply HP. by right.
Qed.

Lemma find_ext {A} (P Q : A -> bool) l :
  (forall x, P x = Q x) -> find P l = find Q l.
Proof. intros H. induction l as [|x l IH]; [done|]. simpl. by rewrite H, IH. Qed.

Lemma NoDup_fmap_eq {A B} (f : A -> B) (l : list A) x y :
  NoDup (f <$> l) -> x ∈ l -> y ∈ l -> f x = f y -> x = y.
Proof.
  induction l as [|a l IH]; intros Hnd Hx Hy Heq; [by apply elem_of_nil in Hx|].
  rewrite fmap_cons in Hnd. apply NoDup_cons in Hnd as [Ha Hnd].
  apply elem_of_cons in Hx as [->|Hx]; apply elem_of_cons in Hy as [->|Hy].
  - done.
  - exfalso. apply Ha. rewrite Heq. apply list_elem_of_fmap. eauto.
  - exfalso. apply Ha. rewrite <- Heq. apply list_elem_of_fmap. eauto.
  - by apply IH.
Qed.

Lemma elem_of_concat {A} (ls : list (list A)) x :
  x ∈ concat ls <-> exists l, l ∈ ls /\ x ∈ l.
Proof.
  induction ls as [|l ls IH]; simpl.
  - split; [by intros H%elem_of_nil|by intros (l & H%elem_of_nil & _)].
  - rewrite elem_of_app, IH. split.
    + intros [H|(l' & Hl' & Hx)]; [exists l; split; [left|done]|].
      exists l'. split; [by right|done].
    + intros (l' & [->|Hl']%elem_of_cons & Hx); [by left|]. right. eauto.
Qed.

(** *** Strings *)

Lemma lowerChar_idem c : JS.lowerChar (JS.lowerChar c) = JS.lowerChar c.
Proof. by destruct c as [[] [] [] [] [] [] [] []]. Qed.

Lemma toLowerCase_idem s : JS.toLowerCase (JS.toLowerCase s) = JS.toLowerCase s.
Proof. induction s as [|c s IH]; [done|]. simpl. by rewrite lowerChar_idem, IH. Qed.

Lemma truthy_lower s s' :
  JS.toLowerCase s = JS.toLowerCase s' -> JS.truthy s = JS.truthy s'.
Proof. intros H. destruct s, s'; simpl in *; done. Qed.

Lemma includesChar_rev_app c s1 s2 :
  JS.includesChar c (String.rev_app s1 s2)
  = JS.includesChar c s1 || JS.includesChar c s2.
Proof.
  revert s2. induction s1 as [|d s1 IH]; intros s2; [done|].
  simpl. rewrite IH. simpl. destruct (decide (c = d)); [|done].
  by rewrite orb_true_r.
Qed.

Lemma includesChar_rev c s : JS.includesChar c (String.rev s) = JS.includesChar c s.
Proof. unfold String.rev. rewrite includesChar_rev_app. simpl. by rewrite orb_false_r. Qed.

Lemma includesChar_trimStart c s :
  JS.isSpace c = false ->
  JS.includesChar c (JS.trimStart s) = JS.includesChar c s.
Proof.
  intros Hc. induction s as [|d s IH]; [done|].
  simpl. destruct (JS.isSpace d) eqn:Hd; [|done].
  rewrite IH. destruct (decide (c = d)) as [->|]; [congruence|done].
Qed.

(** Trimming keeps the characters that are not white space. *)
Lemma includesChar_trim c s :
  JS.isSpace c = false -> JS.includesChar c (JS.trim s) = JS.includesChar c s.
Proof.
  intros Hc. unfold JS.trim.
  by rewrite includesChar_rev, includesChar_trimStart, includesChar_rev,
    includesChar_trimStart.
Qed.

End BuiltinsFacts.

Module GraphFacts.
Import Closure Graph ListFacts ClosureFacts BuiltinsFacts.

Lemma path_mono D via via' a b :
  via ⊆ via' -> path D via a b -> path D via' a b.
Proof.
  intros Hsub Hp. induction Hp as [a b H|a k b Hk _ IH1 _ IH2].
  - by apply path_one.
  - apply (path_via D via' a k b); [set_solver|done|done].
Qed.

(** A path through [k] and [via] either avoids [k] or splits at [k]. *)
Lemma path_split D via k a b :
  path D (k :: via) a b ->
  path D via a b \/ (path D via a k /\ path D via k b).
Proof.
  intros Hp. induction Hp as [a b H|a k' b Hk _ IH1 _ IH2].
  - left. by apply path_one.
  - apply elem_of_cons in Hk as [->|Hk].
    + right. split.
      * by destruct IH1 as [?|[? _]].
      * by destruct IH2 as [?|[_ ?]].
    + destruct IH1 as [H1|[H1 H1']], IH2 as [H2|[H2 H2']].
      * left. by apply (path_via D via a k' b).
      * right. split; [|done]. by apply (path_via D via a k' k).
      * right. split; [done|]. by apply (path_via D via k k' b).
      * right. done.
Qed.

Lemma known_relaxStep k i j m a b :
  known m a b -> known (relaxStep k i j m) a b.
Proof. intros [v Hv]. exists v. by apply relaxStep_keep. Qed.

Lemma known_relaxTriples ts m a b :
  known m a b -> known (fold_left relaxTriple ts m) a b.
Proof. intros [v Hv]. exists v. by apply relaxTriples_keep. Qed.

Lemma relaxThrough_triples units k m :
  relaxThrough units k m =
  fold_left relaxTriple (i ← units; j ← units; [(k, i, j)]) m.
Proof.
  unfold relaxThrough. rewrite fold_left_bind.
  apply fold_left_ext_in. intros m2 i _.
  rewrite fold_left_bind. apply fold_left_ext_in. intros m3 j _. done.
Qed.

Lemma relax_relaxThrough units m :
  relax units m = fold_left (fun m k => relaxThrough units k m) units m.
Proof. done. Qed.

Lemma known_relaxThrough units k m a b :
  known m a b -> known (relaxThrough units k m) a b.
Proof. rewrite relaxThrough_triples. apply known_relaxTriples. Qed.

Lemma known_relaxThroughs units ks m a b :
  known m a b -> known (fold_left (fun m k => relaxThrough units k m) ks m) a b.
Proof.
  revert m. induction ks as [|k ks IH]; intros m H; [done|].
  simpl. apply IH. by apply known_relaxThrough.
Qed.

(** After the iteration for [k], a pair whose two halves through [k] were
    known is known. *)
Lemma relaxThrough_joins units k i j m :
  i ∈ units -> j ∈ units ->
  known m (unit_id i) (unit_id k) -> known m (unit_id k) (unit_id j) ->
  known (relaxThrough units k m) (unit_id i) (unit_id j).
Proof.
  intros Hi Hj Hik Hkj. rewrite relaxThrough_triples.
  assert ((k, i, j) ∈ (i ← units; j ← units; [(k, i, j)])) as Hin.
  { apply list_elem_of_bind. exists i. split; [|done].
    apply list_elem_of_bind. exists j. split; [|done].
    by apply list_elem_of_singleton. }
  apply list_elem_of_split in Hin as (l1 & l2 & ->).
  rewrite fold_left_app. simpl. apply known_relaxTriples.
  destruct (known_relaxTriples l1 m _ _ Hik) as [x Hx].
  destruct (known_relaxTriples l1 m _ _ Hkj) as [y Hy].
  unfold relaxTriple at 2. simpl.
  by apply (relaxStep_known k i j _ x y).
Qed.

Section Warshall.
Variables (units : list Unit) (cs : list ConversionEquation).

Lemma path_nil (D : string -> string -> Prop) a b : path D [] a b -> D a b.
Proof. induction 1 as [a b H|a k b Hk]; [done|by apply elem_of_nil in Hk]. Qed.

Lemma path_ids via a b : path (seeded units cs) via a b ->
  a ∈ unit_id <$> units /\ b ∈ unit_id <$> units.
Proof.
  induction 1 as [a b (Ha & Hb & _)|a k b _ _ [Ha _] _ [_ Hb]]; done.
Qed.

(** The invariant of the [k] loop: what can be joined through the units
    already used as [k] is known. *)
Lemma warshall_complete ks via m :
  ks ⊆ units ->
  (forall a b, path (seeded units cs) via a b -> known m a b) ->
  forall a b, path (seeded units cs) ((unit_id <$> ks) ++ via) a b ->
    known (fold_left (fun m k => relaxThrough units k m) ks m) a b.
Proof.
  revert via m. induction ks as [|k ks IH]; intros via m Hsub Hinv a b Hp.
  - simpl in *. by apply Hinv.
  - simpl. apply (IH (unit_id k :: via)); [set_solver| |].
    + clear a b Hp. intros a b Hp.
      destruct (path_ids _ _ _ Hp) as [Ha Hb].
      apply list_elem_of_fmap in Ha as (i & -> & Hi).
      apply list_elem_of_fmap in Hb as (j & -> & Hj).
      apply path_split in Hp as [Hp|[H1 H2]].
      * apply known_relaxThrough. by apply Hinv.
      * apply relaxThrough_joins; [done|done|by apply Hinv|by apply Hinv].
    + eapply path_mono; [|exact Hp].
      rewrite fmap_cons. set_solver.
Qed.

Lemma closure_complete a b :
  path (seeded units cs) (unit_id <$> units) a b -> known (closureTable units cs) a b.
Proof.
  intros Hp. unfold closureTable. rewrite relax_relaxThrough.
  apply (warshall_complete units [] (seedTable units cs)); [done| |].
  - intros a' b' Hp'. by apply path_nil in Hp' as (_ & _ & H).
  - eapply path_mono; [|exact Hp]. set_solver.
Qed.

(** With identifiers that do not contain the arrow, the table only ever
    learns pairs that are joined by a path of seeded pairs. *)
Hypothesis Hplain : plainUnits units.

Lemma plain_id a : a ∈ unit_id <$> units -> arrowFree a.
Proof.
  intros (u & -> & Hu)%list_elem_of_fmap.
  unfold plainUnits in Hplain. rewrite Forall_forall in Hplain. by apply Hplain.
Qed.

Lemma sound_seed : sound units cs (seedTable units cs).
Proof. intros a b Ha Hb Hk. by apply path_one. Qed.

Lemma sound_relaxStep k i j m :
  k ∈ units -> i ∈ units -> j ∈ units ->
  sound units cs m -> sound units cs (relaxStep k i j m).
Proof.
  intros Hk Hi Hj Hs a b Ha Hb Hab.
  destruct (relaxStep_cases k i j m) as [Heq|(x & y & Hik & Hkj & Hij & Heq)];
    rewrite Heq in Hab; [by apply Hs|].
  unfold known in Hab.
  destruct (decide (convKey (unit_id i) (unit_id j) = convKey a b)) as [Hkey|Hkey].
  - apply convKey_inj in Hkey as [<- <-];
      [|apply plain_id, list_elem_of_fmap; eauto|by apply plain_id].
    apply (path_via _ _ _ (unit_id k)).
    + apply list_elem_of_fmap; eauto.
    + apply Hs; [done|apply list_elem_of_fmap; eauto|by eexists].
    + apply Hs; [apply list_elem_of_fmap; eauto|done|by eexists].
  - rewrite lookup_insert_ne in Hab by done. by apply Hs.
Qed.

Lemma sound_relaxTriples ts m :
  (forall k i j, (k, i, j) ∈ ts -> k ∈ units /\ i ∈ units /\ j ∈ units) ->
  sound units cs m -> sound units cs (fold_left relaxTriple ts m).
Proof.
  revert m. induction ts as [|[[k i] j] ts IH]; intros m Hts Hs; [done|].
  simpl. apply IH.
  - intros k' i' j' H. apply Hts. by right.
  - destruct (Hts k i j) as (Hk & Hi & Hj); [left|].
    by apply sound_relaxStep.
Qed.

Lemma closure_sound : sound units cs (closureTable units cs).
Proof.
  unfold closureTable. rewrite relax_triples. apply sound_relaxTriples.
  - intros k i j H. by apply elem_of_triples.
  - apply sound_seed.
Qed.

End Warshall.

(** *** Seeded pairs and persisted equations *)

Lemma seeded_edge units cs e :
  e ∈ cs -> fromUnitId e ∈ unit_id <$> units -> toUnitId e ∈ unit_id <$> units ->
  seeded units cs (fromUnitId e) (toUnitId e).
Proof.
  intros He Hf Ht. split; [done|]. split; [done|].
  apply seedIdentity_is_Some. by apply seedDirect_elem_is_Some.
Qed.

Lemma seeded_refl units cs a :
  a ∈ unit_id <$> units -> seeded units cs a a.
Proof.
  intros Ha. split; [done|]. split; [done|].
  apply list_elem_of_fmap in Ha as (u & -> & Hu).
  exists 1%float. by apply seedTable_identity.
Qed.

Lemma seeded_inv units cs a b :
  plainUnits units -> plainConversions cs ->
  seeded units cs a b ->
  a = b \/ exists e, e ∈ cs /\ fromUnitId e = a /\ toUnitId e = b.
Proof.
  intros Hpu Hpc (Ha & Hb & [v Hv]).
  destruct (decide (a = b)) as [|Hne]; [by left|]. right.
  destruct (decide (Exists (fun e => pairOf e = (a, b)) cs)) as [Hex|Hno].
  - apply Exists_exists in Hex as (e & He & Hp).
    exists e. unfold pairOf in Hp. by simplify_eq.
  - exfalso. rewrite (seedTable_none units cs a b) in Hv; [done|done|done| |done|].
    + by apply (plain_id units).
    + intros e He Hp. apply Hno. apply Exists_exists. eauto.
Qed.

Lemma chain_ids units cs a b :
  chain units cs a b -> a ∈ unit_id <$> units /\ b ∈ unit_id <$> units.
Proof. induction 1 as [e He Hf Ht|a b c _ [Ha _] _ [_ Hc]]; done. Qed.

Lemma chain_path units cs a b :
  chain units cs a b -> path (seeded units cs) (unit_id <$> units) a b.
Proof.
  induction 1 as [e He Hf Ht|a b c H1 IH1 H2 IH2].
  - apply path_one. by apply seeded_edge.
  - apply (path_via _ _ _ b); [|done|done]. by apply chain_ids in H1 as [_ ?].
Qed.

Lemma path_chain units cs via a b :
  plainUnits units -> plainConversions cs ->
  path (seeded units cs) via a b -> a = b \/ chain units cs a b.
Proof.
  intros Hpu Hpc. induction 1 as [a b HD|a k b Hk _ IH1 _ IH2].
  - destruct (seeded_inv units cs a b Hpu Hpc HD) as [|(e & He & <- & <-)]; [by left|].
    right. destruct HD as (Ha & Hb & _). by apply chain_edge.
  - destruct IH1 as [->|H1]; [done|]. destruct IH2 as [<-|H2]; [by right|].
    right. by apply (chain_trans _ _ _ k).
Qed.

(** The table at the end of the triple loop knows a pair of listed units
    exactly when it is a unit with itself or a chain joins them. *)
Lemma closure_known_iff units cs a b :
  plainUnits units -> plainConversions cs ->
  a ∈ unit_id <$> units -> b ∈ unit_id <$> units ->
  (known (closureTable units cs) a b <-> a = b \/ chain units cs a b).
Proof.
  intros Hpu Hpc Ha Hb. split.
  - intros Hk. apply (path_chain units cs (unit_id <$> units)); [done|done|].
    by apply closure_sound.
  - intros [<-|Hc]; apply closure_complete.
    + apply path_one. by apply seeded_refl.
    + by apply chain_path.
Qed.

(** *** The output loop *)

Lemma emitAll_orderedPairs rt ex T units st :
  emitAll rt ex T units st =
  fold_left (fun st p => emitPair rt ex T p.1 p.2 st) (orderedPairs units) st.
Proof.
  unfold emitAll, emitRow, orderedPairs. rewrite fold_left_bind.
  apply fold_left_ext_in. intros st1 f _.
  rewrite fold_left_bind. apply fold_left_ext_in. intros st2 t _. done.
Qed.

Lemma emitted_true T p :
  emitted T p = true <->
  unit_id p.1 <> unit_id p.2 /\ known T (unit_id p.1) (unit_id p.2).
Proof.
  unfold emitted, known.
  rewrite andb_true_iff, negb_true_iff, bool_decide_eq_false, bool_decide_eq_true.
  done.
Qed.

Lemma find_samePair_pair a b ex e :
  find (samePair a b) ex = Some e -> pairOf e = (a, b).
Proof.
  intros H. apply find_Some_elem in H as [_ H].
  apply samePair_true in H as [<- <-]. done.
Qed.

(** The ordered pairs of the equations of the output: those of the pairs
    that pass the test of the loop, in the order of the loop. *)
Lemma emitPairs_pairs rt ex T ps st :
  pairOf <$> (fold_left (fun st p => emitPair rt ex T p.1 p.2 st) ps st).2 =
  (pairOf <$> st.2) ++ (idPair <$> filter (fun p => emitted T p = true) ps).
Proof.
  revert st. induction ps as [|p ps IH]; intros st.
  - simpl. by rewrite app_nil_r.
  - simpl. rewrite IH, filter_cons. unfold emitPair.
    destruct (emitted T p) eqn:He.
    + rewrite decide_True by done.
      apply emitted_true in He as [Hid [m Hm]].
      rewrite bool_decide_eq_false_2, Hm by done.
      destruct (find _ ex) as [e|] eqn:Hf; simpl;
        rewrite fmap_app, <- app_assoc; simpl; [|done].
      by rewrite (find_samePair_pair _ _ _ _ Hf).
    + rewrite decide_False by done.
      case_bool_decide as Hid; [done|].
      destruct (T !! convKey (unit_id p.1) (unit_id p.2)) as [m|] eqn:Hm; [|done].
      exfalso. assert (emitted T p = true) as Ht; [|congruence].
      apply emitted_true. split; [done|by eexists].
Qed.

Lemma generate_pairs rt next units ex :
  2 <= length units ->
  pairOf <$> generateCompleteConversions rt next units ex =
  idPair <$> filter (fun p => emitted (closureTable units ex) p = true)
               (orderedPairs units).
Proof.
  intros Hn. unfold generateCompleteConversions, generateCompleteConversionsFrom.
  destruct (Nat.ltb_spec (length units) 2) as [|_]; [lia|].
  rewrite emitAll_orderedPairs, emitPairs_pairs. done.
Qed.

Lemma elem_of_orderedPairs units f t :
  (f, t) ∈ orderedPairs units <-> f ∈ units /\ t ∈ units.
Proof.
  unfold orderedPairs. rewrite list_elem_of_bind. split.
  - intros (f' & H & Hf). apply list_elem_of_bind in H as (t' & H & Ht).
    apply list_elem_of_singleton in H. by simplify_eq.
  - intros [Hf Ht]. exists f. split; [|done].
    apply list_elem_of_bind. exists t. split; [|done].
    by apply list_elem_of_singleton.
Qed.

Lemma NoDup_orderedPairs units :
  NoDup (unit_id <$> units) -> NoDup (idPair <$> orderedPairs units).
Proof.
  intros Hnd. apply NoDup_fmap_2_strong.
  - intros [f1 t1] [f2 t2] [Hf1 Ht1]%elem_of_orderedPairs
      [Hf2 Ht2]%elem_of_orderedPairs Heq.
    unfold idPair in Heq. simpl in Heq. injection Heq as Hf Ht.
    f_equal; by apply (NoDup_fmap_eq unit_id units).
  - apply NoDup_fmap_1 in Hnd. unfold orderedPairs. apply NoDup_bind; [| |done].
    + intros f1 f2 p _ _ H1 H2.
      apply list_elem_of_bind in H1 as (t1 & H1 & _).
      apply list_elem_of_bind in H2 as (t2 & H2 & _).
      apply list_elem_of_singleton in H1, H2. by simplify_eq.
    + intros f _. apply NoDup_bind; [| |done].
      * intros t1 t2 p _ _ H1 H2.
        apply list_elem_of_singleton in H1, H2. by simplify_eq.
      * intros t _. apply NoDup_singleton.
Qed.

Lemma produced_shape rt ex T units e :
  produced rt ex T units e ->
  exists f t, f ∈ units /\ t ∈ units /\ unit_id f <> unit_id t /\
    known T (unit_id f) (unit_id t) /\
    fromUnitId e = unit_id f /\ toUnitId e = unit_id t.
Proof.
  intros (f & t & Hf & Ht & Hid & m & Hm & Hcase).
  exists f, t. do 3 (split; [done|]). split; [by exists m|].
  destruct Hcase as [Hfind|[_ [n ->]]]; [|done].
  apply find_samePair_pair in Hfind. unfold pairOf in Hfind. by simplify_eq.
Qed.

Lemma generate_produced rt next units ex e :
  2 <= length units ->
  e ∈ generateCompleteConversions rt next units ex ->
  produced rt ex (closureTable units ex) units e.
Proof.
  intros Hn. unfold generateCompleteConversions, generateCompleteConversionsFrom.
  destruct (Nat.ltb_spec (length units) 2) as [|_]; [lia|].
  intros [H|H]%emitAll_elem; [|done]. simpl in H. by apply elem_of_nil in H.
Qed.

Lemma generate_known rt next units ex f t :
  2 <= length units ->
  f ∈ units -> t ∈ units -> unit_id f <> unit_id t ->
  known (closureTable units ex) (unit_id f) (unit_id t) ->
  exists e, e ∈ generateCompleteConversions rt next units ex /\
    fromUnitId e = unit_id f /\ toUnitId e = unit_id t.
Proof.
  intros Hn Hf Ht Hid [m Hm].
  unfold generateCompleteConversions, generateCompleteConversionsFrom.
  destruct (Nat.ltb_spec (length units) 2) as [|_]; [lia|].
  destruct (emitAll_complete rt ex (closureTable units ex) units f t (next, []) m
              Hf Ht Hid Hm) as (e & He & Hcase).
  exists e. split; [done|].
  destruct Hcase as [Hfind|[_ [n ->]]]; [|done].
  apply find_samePair_pair in Hfind. unfold pairOf in Hfind. by simplify_eq.
Qed.

Lemma generate_uniquePairs rt next units ex :
  2 <= length units -> NoDup (unit_id <$> units) ->
  uniquePairs (generateCompleteConversions rt next units ex).
Proof.
  intros Hn Hnd. unfold uniquePairs. rewrite generate_pairs by done.
  eapply sublist_NoDup; [by apply NoDup_orderedPairs|].
  apply fmap_sublist, sublist_filter.
Qed.

Lemma generate_iff_chain rt next units ex a b :
  plainUnits units -> plainConversions ex -> 2 <= length units ->
  ((exists e, e ∈ generateCompleteConversions rt next units ex /\
              fromUnitId e = a /\ toUnitId e = b) <->
   a <> b /\ chain units ex a b).
Proof.
  intros Hpu Hpc Hn. split.
  - intros (e & He & <- & <-). apply generate_produced in He; [|done].
    apply produced_shape in He as (f & t & Hf & Ht & Hid & Hk & -> & ->).
    split; [done|].
    apply closure_known_iff in Hk as [?|?]; [done|done|done|done| |];
      apply list_elem_of_fmap; eauto.
  - intros [Hne Hc]. destruct (chain_ids _ _ _ _ Hc) as [Ha Hb].
    apply list_elem_of_fmap in Ha as (f & -> & Hf).
    apply list_elem_of_fmap in Hb as (t & -> & Ht).
    apply generate_known; [done|done|done|done|].
    apply closure_complete. by apply chain_path.
Qed.

(** X1.  For a list of at least two units with pairwise different identifiers,
    every equation that [generateCompleteConversions] returns joins two
    different units of the list, no ordered pair of units has two equations
    in the result, and the result has at most N * (N - 1) equations. *)
Theorem closure_output_shape rt next units existing :
  2 <= length units -> NoDup (unit_id <$> units) ->
  (forall e, e ∈ generateCompleteConversions rt next units existing ->
     fromUnitId e ∈ unit_id <$> units /\ toUnitId e ∈ unit_id <$> units /\
     fromUnitId e <> toUnitId e) /\
  uniquePairs (generateCompleteConversions rt next units existing) /\
  (Z.of_nat (length (generateCompleteConversions rt next units existing))
   <= expectedCount (length units))%Z.
Proof.
  intros Hn Hnd. split; [|split].
  - intros e He. apply generate_produced in He; [|done].
    apply produced_shape in He as (f & t & Hf & Ht & Hid & _ & -> & ->).
    split; [apply list_elem_of_fmap; eauto|].
    split; [apply list_elem_of_fmap; eauto|done].
  - by apply generate_uniquePairs.
  - by apply closure_count_bound.
Qed.

(** X2.  With identifiers that do not contain the arrow (those of
    [generateUUID]) and at least two units, the result of
    [generateCompleteConversions] has an equation from [a] to [b] exactly
    when [a] and [b] differ and a chain of existing equations leads from [a]
    to [b] through units of the list. *)
Theorem closure_iff_connected rt next units existing a b :
  plainUnits units -> plainConversions existing -> 2 <= length units ->
  ((exists e, e ∈ generateCompleteConversions rt next units existing /\
              fromUnitId e = a /\ toUnitId e = b) <->
   a <> b /\ chain units existing a b).
Proof. apply generate_iff_chain. Qed.

(** *** Running the closure on its own output *)

Section Again.
Variables (rt : Runtime) (next : nat) (units : list Unit)
  (ex : list ConversionEquation).
Hypothesis Hplain : plainUnits units.
Hypothesis Hn : 2 <= length units.

Lemma table_trans a k b :
  a ∈ unit_id <$> units -> k ∈ unit_id <$> units -> b ∈ unit_id <$> units ->
  known (closureTable units ex) a k -> known (closureTable units ex) k b ->
  known (closureTable units ex) a b.
Proof.
  intros Ha Hk Hb H1 H2. apply closure_complete.
  apply (path_via _ _ _ k); [done| |]; by apply closure_sound.
Qed.

Lemma output_seeded_known a b :
  seeded units (generateCompleteConversions rt next units ex) a b ->
  known (closureTable units ex) a b.
Proof.
  intros (Ha & Hb & [v Hv]). unfold seedTable in Hv.
  apply seedIdentity_origin in Hv as [Hv|(u & Hu & Hkey & _)].
  - apply seedDirect_origin in Hv as (e & He & Hkey & _).
    apply generate_produced in He; [|done].
    apply produced_shape in He as (f & t & Hf & Ht & _ & Hk & Hfe & Hte).
    rewrite Hfe, Hte in Hkey.
    apply convKey_inj in Hkey as [-> ->]; [done|by apply (plain_id units)|].
    apply (plain_id units); [done|]. apply list_elem_of_fmap; eauto.
  - apply convKey_inj in Hkey as [-> ->];
      [|by apply (plain_id units)|apply (plain_id units); [done|];
        apply list_elem_of_fmap; eauto].
    apply closure_complete, path_one, seeded_refl. apply list_elem_of_fmap; eauto.
Qed.

Lemma output_path_known via a b :
  path (seeded units (generateCompleteConversions rt next units ex)) via a b ->
  known (closureTable units ex) a b.
Proof.
  induction 1 as [a b HD|a k b _ H1 IH1 H2 IH2].
  - by apply output_seeded_known.
  - destruct (path_ids _ _ _ _ _ H1) as [Ha Hk].
    destruct (path_ids _ _ _ _ _ H2) as [_ Hb].
    by apply (table_trans a k b).
Qed.

Lemma emitted_again p :
  p ∈ orderedPairs units ->
  emitted (closureTable units (generateCompleteConversions rt next units ex)) p
  = emitted (closureTable units ex) p.
Proof.
  destruct p as [f t]. intros [Hf Ht]%elem_of_orderedPairs.
  apply eq_true_iff_eq. rewrite !emitted_true. simpl.
  split; intros [Hid Hk]; (split; [done|]).
  - apply (output_path_known (unit_id <$> units)).
    apply closure_sound; [done| | |done]; apply list_elem_of_fmap; eauto.
  - destruct (generate_known rt next units ex f t Hn Hf Ht Hid Hk)
      as (e & He & Hfe & Hte).
    apply closure_complete, path_one. rewrite <- Hfe, <- Hte.
    apply seeded_edge; [done| |]; rewrite ?Hfe, ?Hte; apply list_elem_of_fmap; eauto.
Qed.

End Again.

(** The output loop when every pair that passes the test has a persisted
    equation: no identifier is drawn and the equations found are pushed. *)
Lemma emitPairs_found rt ex T ps st :
  (forall p, p ∈ ps -> emitted T p = true ->
     is_Some (find (samePair (unit_id p.1) (unit_id p.2)) ex)) ->
  fold_left (fun st p => emitPair rt ex T p.1 p.2 st) ps st =
  (st.1, st.2 ++ omap (fun p => if emitted T p
                                then find (samePair (unit_id p.1) (unit_id p.2)) ex
                                else None) ps).
Proof.
  revert st. induction ps as [|p ps IH]; intros st Hfound.
  - simpl. rewrite app_nil_r. by destruct st.
  - cbn [fold_left]. rewrite IH by (intros q Hq; apply Hfound; by right).
    rewrite omap_cons_eq.
    unfold emitPair. destruct (emitted T p) eqn:He.
    + destruct (Hfound p) as [e Hfind]; [left|done|].
      apply emitted_true in He as [Hid [m Hm]].
      rewrite bool_decide_eq_false_2, Hm, Hfind by done. simpl.
      by rewrite <- app_assoc.
    + case_bool_decide as Hid; [done|].
      destruct (T !! convKey (unit_id p.1) (unit_id p.2)) as [m|] eqn:Hm; [|done].
      exfalso. assert (emitted T p = true) as Ht; [|congruence].
      apply emitted_true. split; [done|by eexists].
Qed.

Lemma generate_again rt next rt' next' units existing :
  plainUnits units -> NoDup (unit_id <$> units) ->
  generateCompleteConversionsFrom rt' next' units
    (generateCompleteConversions rt next units existing)
  = (next', generateCompleteConversions rt next units existing).
Proof.
  intros Hpu Hnd.
  destruct (Nat.ltb_spec (length units) 2) as [Hlt|Hn].
  { unfold generateCompleteConversions, generateCompleteConversionsFrom.
    apply Nat.ltb_lt in Hlt. by rewrite !Hlt. }
  pose proof (generate_uniquePairs rt next units existing Hn Hnd) as Huniq.
  pose proof (generate_pairs rt next units existing Hn) as Hpairs.
  set (out := generateCompleteConversions rt next units existing) in *.
  unfold generateCompleteConversionsFrom.
  destruct (Nat.ltb_spec (length units) 2) as [|_]; [lia|].
  rewrite emitAll_orderedPairs.
  rewrite emitPairs_found.
  - simpl. f_equal.
    rewrite (omap_ext_in _ (fun p => if emitted (closureTable units existing) p
         then find (samePair (unit_id p.1) (unit_id p.2)) out else None)).
    2:{ intros p Hp. subst out. by rewrite emitted_again. }
    rewrite omap_if_filter.
    rewrite <- (omap_fmap_comp (fun q => find (samePair q.1 q.2) out) idPair).
    rewrite <- Hpairs.
    apply omap_fmap_section. intros e He. by apply find_samePair_unique.
  - intros p Hp He. subst out. rewrite emitted_again in He by done.
    destruct p as [f t]. apply elem_of_orderedPairs in Hp as [Hf Ht].
    apply emitted_true in He as [Hid Hk]. simpl in *.
    destruct (generate_known rt next units existing f t Hn Hf Ht Hid Hk)
      as (e & He & Hfe & Hte).
    destruct (find _ _) as [e'|] eqn:Hfind; [by eexists|].
    apply (find_None_elem _ _ e) in Hfind; [|done].
    assert (samePair (unit_id f) (unit_id t) e = true) by by apply samePair_true.
    congruence.
Qed.

(** X3.  [generateCompleteConversions] run on its own result, for the same units
    (identifiers pairwise different and without the arrow), returns that
    result unchanged and draws no identifier. *)
Theorem closure_idempotent rt next rt' next' units existing :
  plainUnits units -> NoDup (unit_id <$> units) ->
  generateCompleteConversionsFrom rt' next' units
    (generateCompleteConversions rt next units existing)
  = (next', generateCompleteConversions rt next units existing).
Proof.
  apply generate_again.
Qed.

(** *** A group whose units are all joined *)

Lemma count_others units f :
  NoDup (unit_id <$> units) -> f ∈ units ->
  length (filter (fun t => unit_id f <> unit_id t) units) = length units - 1.
Proof.
  induction units as [|a l IH]; intros Hnd Hf; [by apply elem_of_nil in Hf|].
  rewrite fmap_cons in Hnd. apply NoDup_cons in Hnd as [Ha Hnd].
  rewrite filter_cons. apply elem_of_cons in Hf as [->|Hf].
  - rewrite decide_False by (intros H; by apply H).
    rewrite filter_all; [simpl; lia|].
    intros t Ht Heq. apply Ha. rewrite Heq. apply list_elem_of_fmap. eauto.
  - rewrite decide_True.
    + simpl. rewrite IH by done.
      destruct l; [by apply elem_of_nil in Hf|simpl; lia].
    + intros Heq. apply Ha. rewrite <- Heq. apply list_elem_of_fmap. eauto.
Qed.

Lemma emitted_row T f ts :
  (forall t, t ∈ ts -> unit_id f <> unit_id t -> known T (unit_id f) (unit_id t)) ->
  length (filter (fun p => emitted T p = true) (ts ≫= fun t => [(f, t)]))
  = length (filter (fun t => unit_id f <> unit_id t) ts).
Proof.
  induction ts as [|t ts IH]; intros Hk; [done|].
  cbn [mbind list_bind app]. rewrite !filter_cons.
  assert (forall t0, t0 ∈ ts -> unit_id f <> unit_id t0 -> known T (unit_id f) (unit_id t0)) as Hk' by (intros t0 Ht0; apply Hk; by right).
  specialize (IH Hk').
  destruct (decide (unit_id f = unit_id t)) as [Heq|Hne].
  - rewrite decide_False, decide_False; [done|by intros H|].
    rewrite emitted_true. simpl. by intros [H _].
  - rewrite decide_True, decide_True; [simpl; by rewrite IH|done|].
    apply emitted_true. split; [done|]. apply Hk; [left|done].
Qed.

Lemma emitted_rows T units fs :
  NoDup (unit_id <$> units) -> fs ⊆ units ->
  (forall f t, f ∈ units -> t ∈ units -> unit_id f <> unit_id t ->
     known T (unit_id f) (unit_id t)) ->
  length (filter (fun p => emitted T p = true)
            (fs ≫= fun f => units ≫= fun t => [(f, t)]))
  = length fs * (length units - 1).
Proof.
  intros Hnd Hsub Hk. induction fs as [|f fs IH]; [done|].
  cbn [mbind list_bind]. rewrite filter_app, length_app, IH by set_solver.
  rewrite (emitted_row T) by (intros t Ht; apply Hk; set_solver).
  rewrite count_others; [simpl; lia|done|set_solver].
Qed.

(** X4.  When every two different units of the list are joined by a chain of
    existing equations, [generateCompleteConversions] returns an equation for
    every ordered pair of different units, N * (N - 1) equations in all, and
    the pass of [ensureCompleteConversions] leaves a group that holds this
    result as it is, without drawing an identifier. *)
Theorem closure_covers_joined_group rt next units existing :
  NoDup (unit_id <$> units) -> 2 <= length units ->
  (forall a b, a ∈ unit_id <$> units -> b ∈ unit_id <$> units -> a <> b ->
     chain units existing a b) ->
  (forall a b, a ∈ unit_id <$> units -> b ∈ unit_id <$> units -> a <> b ->
     exists e, e ∈ generateCompleteConversions rt next units existing /\
               fromUnitId e = a /\ toUnitId e = b) /\
  Z.of_nat (length (generateCompleteConversions rt next units existing))
    = expectedCount (length units) /\
  (forall rt' next' allUnits group,
     groupUnitsOf allUnits group = units ->
     conversions group = generateCompleteConversions rt next units existing ->
     ensureGroup rt' next' allUnits group = (group, next', None)).
Proof.
  intros Hnd Hn Hjoined.
  assert (forall f t, f ∈ units -> t ∈ units -> unit_id f <> unit_id t ->
            known (closureTable units existing) (unit_id f) (unit_id t)) as Hk.
  { intros f t Hf Ht Hid. apply closure_complete, chain_path.
    apply Hjoined; [| |done]; apply list_elem_of_fmap; eauto. }
  assert (Z.of_nat (length (generateCompleteConversions rt next units existing))
          = expectedCount (length units)) as Hcount.
  { rewrite <- (length_fmap pairOf), generate_pairs, length_fmap by done.
    unfold orderedPairs. rewrite emitted_rows by done.
    unfold expectedCount. nia. }
  split; [|split; [done|]].
  - intros a b (f & -> & Hf)%list_elem_of_fmap (t & -> & Ht)%list_elem_of_fmap Hne.
    apply generate_known; auto.
  - intros rt' next' allUnits group Hu Hc.
    apply ensureGroup_complete_unchanged. rewrite Hu, Hc. lia.
Qed.

(** *** Running the script again *)

Lemma groupUnits_NoDup allUnits group :
  NoDup (unit_id <$> allUnits) -> NoDup (unit_id <$> groupUnitsOf allUnits group).
Proof.
  intros H. eapply sublist_NoDup; [exact H|].
  apply fmap_sublist, sublist_filter.
Qed.

Lemma groupUnits_plain allUnits group :
  plainUnits allUnits -> plainUnits (groupUnitsOf allUnits group).
Proof.
  unfold plainUnits, groupUnitsOf. rewrite !Forall_forall.
  intros H u Hu. apply H. by apply list_elem_of_filter in Hu as [_ ?].
Qed.

(** The group that the loop body leaves is left as it is by another pass. *)
Lemma ensureGroup_again rt next rt' next' allUnits group :
  plainUnits allUnits -> NoDup (unit_id <$> allUnits) ->
  (ensureGroup rt' next' allUnits (ensureGroup rt next allUnits group).1.1).1.1
  = (ensureGroup rt next allUnits group).1.1.
Proof.
  intros Hpu Hnd. unfold ensureGroup at 2 3.
  case_bool_decide as Hlt; simpl.
  - unfold ensureGroup.
    change (groupUnitsOf allUnits (withConversions group ?cs))
      with (groupUnitsOf allUnits group).
    case_bool_decide as Hlt'; simpl; [|done].
    unfold withConversions. simpl. f_equal.
    change (generateCompleteConversionsFrom rt next ?u ?c).2
      with (generateCompleteConversions rt next u c).
    rewrite generate_again; [done|by apply groupUnits_plain|by apply groupUnits_NoDup].
  - unfold ensureGroup. by rewrite bool_decide_eq_false_2.
Qed.

Lemma ensure_fold_app rt allUnits gs acc n :
  (fold_left
     (fun (acc : list UnitGroup * nat) group =>
        let r := ensureGroup rt acc.2 allUnits group in (acc.1 ++ [r.1.1], r.1.2))
     gs (acc, n)).1
  = acc ++
    (fold_left
       (fun (acc : list UnitGroup * nat) group =>
          let r := ensureGroup rt acc.2 allUnits group in (acc.1 ++ [r.1.1], r.1.2))
       gs ([], n)).1.
Proof.
  revert acc n. induction gs as [|g gs IH]; intros acc n.
  - simpl. by rewrite app_nil_r.
  - simpl. rewrite IH. rewrite (IH [_]). by rewrite <- app_assoc.
Qed.

Lemma ensure_fold_stable rt allUnits gs n :
  Forall (fun g => forall rt' n', (ensureGroup rt' n' allUnits g).1.1 = g) gs ->
  (fold_left
     (fun (acc : list UnitGroup * nat) group =>
        let r := ensureGroup rt acc.2 allUnits group in (acc.1 ++ [r.1.1], r.1.2))
     gs ([], n)).1 = gs.
Proof.
  revert n. induction gs as [|g gs IH]; intros n Hst; [done|].
  apply Forall_cons in Hst as [Hg Hst].
  simpl. rewrite ensure_fold_app, Hg, IH by done. done.
Qed.

Lemma ensure_fold_Forall rt allUnits gs n :
  plainUnits allUnits -> NoDup (unit_id <$> allUnits) ->
  Forall (fun g => forall rt' n', (ensureGroup rt' n' allUnits g).1.1 = g)
    (fold_left
       (fun (acc : list UnitGroup * nat) group =>
          let r := ensureGroup rt acc.2 allUnits group in (acc.1 ++ [r.1.1], r.1.2))
       gs ([], n)).1.
Proof.
  intros Hpu Hnd. revert n. induction gs as [|g gs IH]; intros n; [by constructor|].
  simpl. rewrite ensure_fold_app. apply Forall_app. split; [|apply IH].
  apply Forall_singleton. intros rt' n'. by apply ensureGroup_again.
Qed.

(** X5.  A second pass of [ensureCompleteConversions] over the groups that a
    first pass returned changes nothing (unit identifiers pairwise
    different and without the arrow). *)
Theorem ensureCompleteConversions_idempotent rt rt' allUnits unitGroups :
  plainUnits allUnits -> NoDup (unit_id <$> allUnits) ->
  ensureCompleteConversions rt' allUnits
    (ensureCompleteConversions rt allUnits unitGroups)
  = ensureCompleteConversions rt allUnits unitGroups.
Proof.
  intros Hpu Hnd. unfold ensureCompleteConversions at 1.
  apply ensure_fold_stable. by apply ensure_fold_Forall.
Qed.

(** *** The validator on the output of the closure *)

Lemma SFmul_comm prec emax x y : SFmul prec emax x y = SFmul prec emax y x.
Proof.
  destruct x as [sx|sx| |sx mx ex], y as [sy|sy| |sy my ey]; simpl;
    rewrite ?(xorb_comm sx sy); try reflexivity.
  by rewrite (Pos.mul_comm mx my), (Z.add_comm ex ey).
Qed.

(** The product of two numbers does not depend on their order. *)
Lemma float_mul_comm (x y : float) : (x * y)%float = (y * x)%float.
Proof. apply Prim2SF_inj. rewrite !mul_spec. apply SFmul_comm. Qed.

Lemma findReverse_unique conversions conv rev :
  uniquePairs conversions -> rev ∈ conversions -> reverseOf conv rev ->
  findReverse conversions conv = Some rev.
Proof.
  intros Hu Hrev [Hf Ht]. unfold findReverse. rewrite <- Hf, <- Ht.
  by apply find_samePair_unique.
Qed.

(** X6.  In a list with at most one equation per ordered pair,
    [validateConversions] treats an equation and its reverse alike: both
    are valid or both are issues, the warning of an inverse mismatch carries
    the same product for both, neither gets the warning of a missing
    reverse, and the loop body moves the counters in the same way for
    both. *)
Theorem validation_is_symmetric conversions conv rev :
  uniquePairs conversions ->
  conv ∈ conversions -> rev ∈ conversions -> reverseOf conv rev ->
  (verdict conversions conv = None <-> verdict conversions rev = None) /\
  (forall p, verdict conversions conv
               = Some (InverseMismatch (fromUnitId conv) (toUnitId conv) p) <->
             verdict conversions rev
               = Some (InverseMismatch (fromUnitId rev) (toUnitId rev) p)) /\
  (forall a b, verdict conversions conv <> Some (MissingReverse a b)) /\
  (forall st, (validateStep conversions st conv).1
              = (validateStep conversions st rev).1).
Proof.
  intros Hu Hc Hr Hrev.
  assert (reverseOf rev conv) as Hrev' by (destruct Hrev; by split).
  assert (forall st, (validateStep conversions st conv).1
                     = (validateStep conversions st rev).1) as Hstep.
  { intros st. unfold validateStep.
    rewrite (findReverse_unique conversions conv rev),
      (findReverse_unique conversions rev conv) by done.
    cbv zeta. rewrite (float_mul_comm (multiplier rev) (multiplier conv)).
    by destruct (nearOne _). }
  unfold verdict.
  rewrite (findReverse_unique conversions conv rev),
    (findReverse_unique conversions rev conv) by done.
  rewrite (float_mul_comm (multiplier rev) (multiplier conv)).
  destruct (nearOne _); repeat split; try done; try naive_solver.
Qed.

Lemma verdict_missing conversions conv a b :
  verdict conversions conv = Some (MissingReverse a b) <->
  ~ hasReverse conversions conv /\ fromUnitId conv = a /\ toUnitId conv = b.
Proof.
  rewrite <- findReverse_None. unfold verdict.
  destruct (findReverse conversions conv) as [rev|].
  - destruct (nearOne _); naive_solver.
  - naive_solver.
Qed.

(** X7.  On the result of [generateCompleteConversions], [validateConversions]
    warns that the reverse of ([a], [b]) is missing exactly when a chain of
    existing equations leads from [a] to [b] and none leads back: the
    closure never derives the reverse of a one-way chain. *)
Theorem missing_reverse_after_closure rt next units existing a b :
  plainUnits units -> plainConversions existing -> 2 <= length units ->
  (MissingReverse a b
     ∈ (validateConversionsLog
          (generateCompleteConversions rt next units existing)).2 <->
   a <> b /\ chain units existing a b /\ ~ chain units existing b a).
Proof.
  intros Hpu Hpc Hn. unfold validateConversionsLog.
  rewrite validate_fold. simpl. rewrite list_elem_of_omap.
  setoid_rewrite verdict_missing.
  pose proof (fun x y => generate_iff_chain rt next units existing x y Hpu Hpc Hn)
    as Hiff.
  split.
  - intros (e & He & Hno & Hf & Ht).
    destruct (proj1 (Hiff a b)) as [Hne Hc]; [by exists e|].
    split; [done|]. split; [done|]. intros Hback. apply Hno.
    destruct (proj2 (Hiff b a)) as (c & Hc' & Hcf & Hct); [by split|].
    exists c. split; [done|]. split; congruence.
  - intros (Hne & Hc & Hback).
    destruct (proj2 (Hiff a b)) as (e & He & Hf & Ht); [by split|].
    exists e. split; [done|]. split; [|done].
    intros (c & Hc' & Hcf & Hct). apply Hback.
    apply (proj1 (Hiff b a)). exists c. split; [done|]. split; congruence.
Qed.

(** *** Instances of the theorems on the example *)

Lemma closure_output_shape_witness :
  uniquePairs
    (generateCompleteConversions exampleRuntime 0 [unitA; unitB; unitC] [edgeAB; edgeBC]).
Proof.
  refine (proj1 (proj2 (closure_output_shape exampleRuntime 0 [unitA; unitB; unitC]
                          [edgeAB; edgeBC] _ _))).
  - simpl. lia.
  - refine (bool_decide_unpack _ _). vm_compute. exact I.
Defined.

Lemma closure_iff_connected_witness :
  (exists e,
     e ∈ generateCompleteConversions exampleRuntime 0 [unitA; unitB; unitC]
           [edgeAB; edgeBC] /\
     fromUnitId e = unit_id unitA /\ toUnitId e = unit_id unitC) <->
  unit_id unitA <> unit_id unitC /\
  chain [unitA; unitB; unitC] [edgeAB; edgeBC] (unit_id unitA) (unit_id unitC).
Proof.
  refine (closure_iff_connected exampleRuntime 0 [unitA; unitB; unitC]
            [edgeAB; edgeBC] (unit_id unitA) (unit_id unitC) _ _ _).
  - repeat constructor.
  - repeat constructor.
  - simpl. lia.
Defined.

Lemma closure_idempotent_witness :
  generateCompleteConversionsFrom exampleRuntime 7 [unitA; unitB; unitC]
    (generateCompleteConversions exampleRuntime 0 [unitA; unitB; unitC]
       [edgeAB; edgeBC])
  = (7, generateCompleteConversions exampleRuntime 0 [unitA; unitB; unitC]
          [edgeAB; edgeBC]).
Proof.
  refine (closure_idempotent exampleRuntime 0 exampleRuntime 7 [unitA; unitB; unitC]
            [edgeAB; edgeBC] _ _).
  - repeat constructor.
  - refine (bool_decide_unpack _ _). vm_compute. exact I.
Defined.

Lemma closure_covers_joined_group_witness :
  Z.of_nat (length (generateCompleteConversions exampleRuntime 0 [unitA; unitB]
                      [edgeAB; edgeBA]))
  = expectedCount 2.
Proof.
  refine (proj1 (proj2 (closure_covers_joined_group exampleRuntime 0 [unitA; unitB]
                          [edgeAB; edgeBA] _ _ _))).
  - refine (bool_decide_unpack _ _). vm_compute. exact I.
  - simpl. lia.
  - intros a b Ha Hb Hne.
    assert (chain [unitA; unitB] [edgeAB; edgeBA] (unit_id unitA) (unit_id unitB))
      as Hab.
    { refine (chain_edge _ _ edgeAB _ _ _); [left|left|right; left]. }
    assert (chain [unitA; unitB] [edgeAB; edgeBA] (unit_id unitB) (unit_id unitA))
      as Hba.
    { refine (chain_edge _ _ edgeBA _ _ _); [right; left|right; left|left]. }
    apply elem_of_cons in Ha as [->|Ha]; apply elem_of_cons in Hb as [->|Hb];
      try done;
      try (apply list_elem_of_singleton in Ha as ->);
      try (apply list_elem_of_singleton in Hb as ->); done.
Defined.

Lemma ensureCompleteConversions_idempotent_witness :
  ensureCompleteConversions exampleRuntime [unitA; unitB; unitC]
    (ensureCompleteConversions exampleRuntime [unitA; unitB; unitC] [exampleGroup])
  = ensureCompleteConversions exampleRuntime [unitA; unitB; unitC] [exampleGroup].
Proof.
  refine (ensureCompleteConversions_idempotent exampleRuntime exampleRuntime
            [unitA; unitB; unitC] [exampleGroup] _ _).
  - repeat constructor.
  - refine (bool_decide_unpack _ _). vm_compute. exact I.
Defined.

Lemma validation_is_symmetric_witness :
  verdict [edgeAB; edgeBA] edgeAB = None <-> verdict [edgeAB; edgeBA] edgeBA = None.
Proof.
  refine (proj1 (validation_is_symmetric [edgeAB; edgeBA] edgeAB edgeBA _ _ _ _)).
  - refine (bool_decide_unpack _ _). vm_compute. exact I.
  - left.
  - right. left.
  - split; reflexivity.
Defined.

Lemma missing_reverse_after_closure_witness :
  MissingReverse (unit_id unitA) (unit_id unitB)
    ∈ (validateConversionsLog
         (generateCompleteConversions exampleRuntime 0 [unitA; unitB; unitC]
            [edgeAB; edgeBC])).2 <->
  unit_id unitA <> unit_id unitB /\
  chain [unitA; unitB; unitC] [edgeAB; edgeBC] (unit_id unitA) (unit_id unitB) /\
  ~ chain [unitA; unitB; unitC] [edgeAB; edgeBC] (unit_id unitB) (unit_id unitA).
Proof.
  refine (missing_reverse_after_closure exampleRuntime 0 [unitA; unitB; unitC]
            [edgeAB; edgeBC] (unit_id unitA) (unit_id unitB) _ _ _).
  - repeat constructor.
  - repeat constructor.
  - simpl. lia.
Defined.

End GraphFacts.

Module LinkingFacts.
Import Linker Builtins Linking ListFacts LinkerFacts BuiltinsFacts.

Lemma toLowerCase_empty s : JS.toLowerCase s = "" <-> s = "".
Proof. destruct s; simpl; split; done. Qed.

(** The two exact tests of the lookup are covered by the two tests that
    ignore case. *)
Lemma matchesUnit_lower symbol u :
  matchesUnit symbol u =
  sameIgnoringCase (Schema.symbol u) symbol
  || existsb (fun abbr => sameIgnoringCase abbr symbol) (abbreviations u).
Proof.
  unfold matchesUnit, sameIgnoringCase.
  assert (forall x, bool_decide (x = symbol)
                    || bool_decide (JS.toLowerCase x = JS.toLowerCase symbol)
                    = bool_decide (JS.toLowerCase x = JS.toLowerCase symbol)) as Hx.
  { intros x. case_bool_decide as H1; [|done]. subst x.
    by rewrite bool_decide_eq_true_2. }
  rewrite Hx. f_equal. induction (abbreviations u) as [|a l IH]; [done|].
  simpl. by rewrite Hx, IH.
Qed.

Lemma matchesUnit_case symbol symbol' u :
  JS.toLowerCase symbol = JS.toLowerCase symbol' ->
  matchesUnit symbol u = matchesUnit symbol' u.
Proof.
  intros H. rewrite !matchesUnit_lower. unfold sameIgnoringCase. rewrite H.
  done.
Qed.

(** X8.  [findUnitBySymbol] depends on the reference only through its lower-case
    form: two references with the same lower-case form give the same
    result, and a non-empty reference that equals, up to case, the symbol or
    an abbreviation of a listed unit resolves. *)
Theorem lookup_ignores_case :
  (forall symbol symbol' units,
     JS.toLowerCase symbol = JS.toLowerCase symbol' ->
     findUnitBySymbol symbol units = findUnitBySymbol symbol' units) /\
  (forall symbol units,
     findUnitBySymbol (JS.toLowerCase symbol) units = findUnitBySymbol symbol units) /\
  (forall ref u units,
     u ∈ units -> ref <> "" ->
     JS.toLowerCase ref = JS.toLowerCase (Schema.symbol u) \/
     (exists abbr, abbr ∈ abbreviations u /\
                   JS.toLowerCase ref = JS.toLowerCase abbr) ->
     is_Some (findUnitBySymbol ref units)).
Proof.
  assert (forall symbol symbol' units,
     JS.toLowerCase symbol = JS.toLowerCase symbol' ->
     findUnitBySymbol symbol units = findUnitBySymbol symbol' units) as Hcase.
  { intros symbol symbol' units H. unfold findUnitBySymbol.
    rewrite (truthy_lower _ _ H).
    rewrite (find_ext _ (matchesUnit symbol')); [done|].
    intros u. by apply matchesUnit_case. }
  split; [done|]. split.
  - intros symbol units. apply Hcase. apply toLowerCase_idem.
  - intros ref u units Hu Hne Hm. unfold findUnitBySymbol.
    destruct ref as [|c ref]; [done|]. simpl negb. cbv iota.
    destruct (find _ units) as [v|] eqn:Hf; [by eexists|].
    exfalso. apply (find_None_elem _ _ u) in Hf; [|done].
    apply matchesUnit_not in Hf. apply Hf. unfold matches.
    destruct Hm as [Hm|(abbr & Ha & Hm)]; [right; left; done|].
    right; right. exists abbr. split; [done|]. by right.
Qed.

(** *** The linking loop *)

Lemma linkAlternates_fold units alts ids t :
  fold_left (linkAlternate units) alts (ids, t) =
  (ids ++ omap (fun ref => unit_id <$> findUnitBySymbol ref units) alts,
   fold_left (tallyRef units) alts t).
Proof.
  revert ids t. induction alts as [|ref alts IH]; intros ids t.
  - simpl. by rewrite app_nil_r.
  - cbn [fold_left]. unfold linkAlternate at 2, tallyRef at 2.
    rewrite omap_cons_eq.
    destruct (findUnitBySymbol ref units) as [u|]; simpl; rewrite IH; [|done].
    by rewrite <- app_assoc.
Qed.

Lemma linkAlternates_eq units spec t :
  linkAlternates units (spec, t) =
  (match alternateUnits spec with
   | Some alts =>
       if Nat.ltb 0 (length alts) then
         {| primaryUnit := primaryUnit spec;
            primaryUnitId := primaryUnitId spec;
            primaryUnitGroupId := primaryUnitGroupId spec;
            alternateUnits := alternateUnits spec;
            alternateUnitIds :=
              Some (omap (fun ref => unit_id <$> findUnitBySymbol ref units) alts) |}
       else spec
   | None => spec
   end,
   fold_left (tallyRef units) (default [] (alternateUnits spec)) t).
Proof.
  unfold linkAlternates. cbn [fst snd].
  destruct (alternateUnits spec) as [alts|] eqn:Halts; [|done].
  destruct (Nat.ltb_spec 0 (length alts)) as [Hlen|Hlen].
  - by rewrite linkAlternates_fold.
  - destruct alts; [done|simpl in Hlen; lia].
Qed.

Lemma linkPrimary_eq units spec t :
  linkPrimary units (spec, t) =
  (match primaryUnit spec with
   | Some ref =>
       if JS.truthy ref then
         match findUnitBySymbol ref units with
         | Some unit =>
             {| primaryUnit := primaryUnit spec;
                primaryUnitId := Some (unit_id unit);
                primaryUnitGroupId := orUndefined (unitGroupId unit);
                alternateUnits := alternateUnits spec;
                alternateUnitIds := alternateUnitIds spec |}
         | None => spec
         end
       else spec
   | None => spec
   end,
   fold_left (tallyRef units)
     (match primaryUnit spec with
      | Some ref => if JS.truthy ref then [ref] else []
      | None => []
      end) t).
Proof.
  unfold linkPrimary. cbn [fst snd].
  destruct (primaryUnit spec) as [ref|]; [|done].
  destruct (JS.truthy ref); [|done]. simpl. unfold tallyRef.
  by destruct (findUnitBySymbol ref units).
Qed.

Lemma linkPrimary_alternates units spec t :
  alternateUnits (linkPrimary units (spec, t)).1 = alternateUnits spec.
Proof.
  rewrite linkPrimary_eq. cbn [fst].
  destruct (primaryUnit spec) as [ref|]; [|done].
  destruct (JS.truthy ref); [|done].
  by destruct (findUnitBySymbol ref units).
Qed.

Lemma linkSpec_tally units spec t :
  (linkSpec units (spec, t)).2 = fold_left (tallyRef units) (references spec) t.
Proof.
  unfold linkSpec, references.
  destruct (linkPrimary units (spec, t)) as [spec1 t1] eqn:H1.
  rewrite linkAlternates_eq. cbn [snd].
  replace (alternateUnits spec1) with (alternateUnits spec)
    by (by rewrite <- (linkPrimary_alternates units spec t), H1).
  rewrite fold_left_app. f_equal.
  apply (f_equal snd) in H1. rewrite linkPrimary_eq in H1. simpl in H1. by subst t1.
Qed.

Lemma linkSpec_spec units spec t :
  (linkSpec units (spec, t)).1 = linkedSpec units spec.
Proof.
  unfold linkedSpec, linkSpec.
  destruct (linkPrimary units (spec, t)) as [spec1 t1] eqn:H1.
  destruct (linkPrimary units (spec, emptyTally)) as [spec2 t2] eqn:H2.
  rewrite !linkAlternates_eq. cbn [fst].
  replace spec2 with spec1; [done|].
  apply (f_equal fst) in H1, H2. rewrite linkPrimary_eq in H1, H2. simpl in H1, H2. congruence.
Qed.

Lemma linkUnitsFrom_eq units specs acc t :
  fold_left
    (fun (acc : list UnitRefs * Tally) spec =>
       let r := linkSpec units (spec, acc.2) in (acc.1 ++ [r.1], r.2))
    specs (acc, t)
  = (acc ++ (linkedSpec units <$> specs),
     fold_left (tallyRef units) (specs ≫= references) t).
Proof.
  revert acc t. induction specs as [|spec specs IH]; intros acc t.
  - simpl. by rewrite app_nil_r.
  - cbn [fold_left]. simpl. rewrite IH, linkSpec_spec, linkSpec_tally.
    rewrite fold_left_app, <- app_assoc. done.
Qed.

Lemma tally_fold units refs t :
  let t' := fold_left (tallyRef units) refs t in
  linked t' = linked t + length (filter (resolves units) refs) /\
  unmatched t' = unmatched t + length (filter (fun r => ~ resolves units r) refs) /\
  (forall x, x ∈ unmatchedUnits t' <->
     x ∈ unmatchedUnits t \/ (x ∈ refs /\ ~ resolves units x)) /\
  (NoDup (unmatchedUnits t) -> NoDup (unmatchedUnits t')).
Proof.
  revert t. induction refs as [|ref refs IH]; intros t.
  - simpl. repeat split; try lia; try done; [by left|].
    intros [?|[H _]]; [done|by apply elem_of_nil in H].
  - cbn [fold_left]. destruct (IH (tallyRef units t ref)) as (H1 & H2 & H3 & H4).
    cbv zeta. rewrite H1, H2, !filter_cons. unfold tallyRef, resolves in *.
    destruct (findUnitBySymbol ref units) as [u|] eqn:Hf.
    + rewrite decide_True by by eexists.
      rewrite decide_False by (intros H; apply H; by eexists).
      simpl. split; [lia|]. split; [lia|]. split; [|done].
      intros x. rewrite H3. simpl. rewrite elem_of_cons.
      split; [naive_solver|]. intros [?|[[->|?] Hx]]; [by left| |by right].
      exfalso. apply Hx. rewrite Hf. by eexists.
    + rewrite decide_False by (by intros [? ?]).
      rewrite decide_True by (by intros [? ?]).
      simpl. split; [lia|]. split; [lia|]. split.
      * intros x. rewrite H3. simpl. rewrite setAdd_elem, elem_of_cons.
        split; [|naive_solver].
        intros [[?| ->]|[? ?]]; [by left| |naive_solver].
        right. split; [by left|]. rewrite Hf. by intros [? ?].
      * intros Hnd. apply H4. simpl. by apply setAdd_NoDup.
Qed.

Lemma linkedSpec_eq units p pid pg alts aids :
  linkedSpec units (mkUnitRefs p pid pg alts aids) =
  mkUnitRefs p
    (match p with
     | Some ref =>
         if JS.truthy ref
         then match findUnitBySymbol ref units with
              | Some unit => Some (unit_id unit)
              | None => pid
              end
         else pid
     | None => pid
     end)
    (match p with
     | Some ref =>
         if JS.truthy ref
         then match findUnitBySymbol ref units with
              | Some unit => orUndefined (unitGroupId unit)
              | None => pg
              end
         else pg
     | None => pg
     end)
    alts
    (match alts with
     | Some l =>
         if Nat.ltb 0 (length l)
         then Some (omap (fun ref => unit_id <$> findUnitBySymbol ref units) l)
         else aids
     | None => aids
     end).
Proof.
  unfold linkedSpec, linkSpec.
  destruct (linkPrimary units (_, emptyTally)) as [spec1 t1] eqn:H1.
  rewrite linkAlternates_eq. cbn [fst].
  apply (f_equal fst) in H1. rewrite linkPrimary_eq in H1. simpl in H1.
  subst spec1.
  destruct p as [ref|]; simpl.
  - destruct (JS.truthy ref); simpl.
    + destruct (findUnitBySymbol ref units) as [u|]; simpl;
        (destruct alts as [l|]; simpl; [|done]);
        by destruct (Nat.ltb 0 (length l)).
    + destruct alts as [l|]; simpl; [|done]. by destruct (Nat.ltb 0 (length l)).
  - destruct alts as [l|]; simpl; [|done]. by destruct (Nat.ltb 0 (length l)).
Qed.

Lemma references_linked units spec :
  references (linkedSpec units spec) = references spec.
Proof. destruct spec as [p pid pg alts aids]. by rewrite linkedSpec_eq. Qed.

Lemma linkedSpec_idem units spec :
  linkedSpec units (linkedSpec units spec) = linkedSpec units spec.
Proof.
  destruct spec as [p pid pg alts aids]. rewrite !linkedSpec_eq. f_equal.
  - destruct p as [ref|]; [|done]. destruct (JS.truthy ref); [|done].
    by destruct (findUnitBySymbol ref units).
  - destruct p as [ref|]; [|done]. destruct (JS.truthy ref); [|done].
    by destruct (findUnitBySymbol ref units).
  - destruct alts as [l|]; [|done]. by destruct (Nat.ltb 0 (length l)).
Qed.

(** X9.  [linkUnits] links each spec type on its own; [linked] and [unmatched]
    count the references (primary and alternate) that resolve and that do
    not, so their sum is the number of references; [unmatchedUnits] holds
    exactly the references that do not resolve, each once; linking the
    result again gives the same spec types and the same tally. *)
Theorem linkUnits_tally units specs :
  let refs := specs ≫= references in
  let r := linkUnits units specs in
  r.1 = linkedSpec units <$> specs /\
  linked r.2 = length (filter (resolves units) refs) /\
  unmatched r.2 = length (filter (fun ref => ~ resolves units ref) refs) /\
  linked r.2 + unmatched r.2 = length refs /\
  (forall ref, ref ∈ unmatchedUnits r.2 <-> ref ∈ refs /\ ~ resolves units ref) /\
  NoDup (unmatchedUnits r.2) /\
  linkUnits units r.1 = r.
Proof.
  cbv zeta. unfold linkUnits, linkUnitsFrom. rewrite linkUnitsFrom_eq. simpl.
  destruct (tally_fold units (specs ≫= references) emptyTally) as (H1 & H2 & H3 & H4).
  cbv zeta in *. simpl in *.
  split; [done|]. split; [done|]. split; [done|]. split; [|split; [|split]].
  - rewrite H1, H2. clear. induction (specs ≫= references) as [|x l IH]; [done|].
    rewrite !filter_cons. destruct (decide (resolves units x)).
    + rewrite decide_False by tauto. simpl. lia.
    + rewrite decide_True by done. simpl. lia.
  - intros ref. rewrite H3. split; [|by right].
    intros [H|?]; [by apply elem_of_nil in H|done].
  - apply H4. constructor.
  - rewrite linkUnitsFrom_eq. simpl. f_equal.
    + rewrite <- list_fmap_compose. apply list_fmap_ext.
      intros _ spec _. simpl. apply linkedSpec_idem.
    + f_equal. clear. induction specs as [|spec specs IH]; [done|].
      rewrite fmap_cons. cbn [mbind list_bind]. by rewrite references_linked, IH.
Qed.

(** X10.  What [linkUnits] writes into a spec type.  A primary unit that resolves
    sets [primaryUnitId] to the identifier of a listed unit that matches
    the reference and [primaryUnitGroupId] to its group identifier, or to
    undefined when that is empty; a primary unit that does not resolve
    leaves both fields as they were.  A non-empty [alternateUnits] replaces
    [alternateUnitIds] by the identifiers of the alternates that resolve, in
    order, so that the two lists have the same length only if every
    alternate resolves; an absent or empty [alternateUnits] leaves
    [alternateUnitIds] as it was.  The references themselves are never
    changed. *)
Theorem linkedSpec_fields units spec :
  (forall ref u, primaryUnit spec = Some ref ->
     findUnitBySymbol ref units = Some u ->
     u ∈ units /\ matches ref u /\
     primaryUnitId (linkedSpec units spec) = Some (unit_id u) /\
     primaryUnitGroupId (linkedSpec units spec) = orUndefined (unitGroupId u)) /\
  (forall ref, primaryUnit spec = Some ref ->
     findUnitBySymbol ref units = None ->
     primaryUnitId (linkedSpec units spec) = primaryUnitId spec /\
     primaryUnitGroupId (linkedSpec units spec) = primaryUnitGroupId spec) /\
  (forall alts, alternateUnits spec = Some alts -> alts <> [] ->
     exists ids,
       alternateUnitIds (linkedSpec units spec) = Some ids /\
       ids = omap (fun ref => unit_id <$> findUnitBySymbol ref units) alts /\
       length ids <= length alts /\
       (forall id, id ∈ ids -> id ∈ unit_id <$> units) /\
       (length ids = length alts <-> Forall (resolves units) alts)) /\
  (alternateUnits spec = None \/ alternateUnits spec = Some [] ->
     alternateUnitIds (linkedSpec units spec) = alternateUnitIds spec) /\
  primaryUnit (linkedSpec units spec) = primaryUnit spec /\
  alternateUnits (linkedSpec units spec) = alternateUnits spec.
Proof.
  destruct spec as [p pid pg alts aids]. rewrite linkedSpec_eq. simpl.
  split; [|split; [|split; [|split; [|done]]]].
  - intros ref u -> Hf. rewrite Hf.
    assert (JS.truthy ref = true) as Ht.
    { unfold findUnitBySymbol in Hf. by destruct (JS.truthy ref). }
    rewrite Ht. unfold findUnitBySymbol in Hf. rewrite Ht in Hf. simpl in Hf.
    apply find_Some_elem in Hf as [Hu Hm]. apply matchesUnit_matches in Hm.
    done.
  - intros ref -> Hf. rewrite Hf. by destruct (JS.truthy ref).
  - intros l -> Hne. destruct l as [|a l]; [done|].
    change (Nat.ltb 0 (length (a :: l))) with true. cbv iota.
    eexists. split; [done|]. split; [done|]. split; [apply omap_length_le|].
    split.
    + intros id (ref & _ & Hid)%list_elem_of_omap.
      destruct (findUnitBySymbol ref units) as [u|] eqn:Hf; [|done].
      simpl in Hid. injection Hid as <-.
      unfold findUnitBySymbol in Hf. destruct (JS.truthy ref); [|done].
      simpl in Hf. apply find_Some_elem in Hf as [Hu _].
      apply list_elem_of_fmap. eauto.
    + generalize (a :: l). clear. intros l. unfold resolves.
      induction l as [|x l IH]; [done|]. rewrite omap_cons_eq, Forall_cons.
      pose proof (omap_length_le
        (fun ref => unit_id <$> findUnitBySymbol ref units) l) as Hle.
      destruct (findUnitBySymbol x units) as [u|]; simpl.
      * split.
        -- intros H. split; [by eexists|]. apply IH. lia.
        -- intros [_ H]. f_equal. by apply IH.
      * split; [lia|]. by intros [[? ?] _].
  - intros [->| ->]; done.
Qed.

End LinkingFacts.

Module RegistrationFacts.
Import Builtins Collector Registration ListFacts BuiltinsFacts.

Lemma replaceRuns_chars b s : allChars isIdChar (replaceRuns b s) = true.
Proof.
  revert b. induction s as [|c s IH]; intros b; [done|].
  simpl. destruct (isSlugChar c) eqn:Hc.
  - simpl. unfold isIdChar at 1. by rewrite Hc, IH.
  - destruct b; [apply IH|]. simpl. by rewrite IH.
Qed.

Lemma groupIdOf_truthy name : JS.truthy (groupIdOf name) = true.
Proof. done. Qed.

Lemma groupIdOf_case name : groupIdOf (JS.toLowerCase name) = groupIdOf name.
Proof. unfold groupIdOf. by rewrite toLowerCase_idem. Qed.

(** *** The groups *)

Lemma registerGroup_ids gid name ids gs :
  group_id <$> registerGroup gid name ids gs =
  if decide (gid ∈ group_id <$> gs) then group_id <$> gs
  else (group_id <$> gs) ++ [gid].
Proof.
  induction gs as [|g gs IH]; [done|].
  cbn [registerGroup]. rewrite !fmap_cons.
  destruct (decide (group_id g = gid)) as [Heq|Hne].
  - rewrite decide_True by (rewrite Heq; left). done.
  - rewrite fmap_cons, IH. destruct (decide (gid ∈ group_id <$> gs)) as [Hin|Hnin].
    + rewrite decide_True by by right. done.
    + rewrite decide_False; [done|]. intros [?|?]%elem_of_cons; congruence.
Qed.

Lemma registerGroup_NoDup gid name ids gs :
  NoDup (group_id <$> gs) -> NoDup (group_id <$> registerGroup gid name ids gs).
Proof.
  intros Hnd. rewrite registerGroup_ids. case_decide as Hin; [done|].
  apply NoDup_app. split; [done|]. split; [|apply NoDup_singleton].
  intros x Hx ->%list_elem_of_singleton. done.
Qed.

(** The groups afterwards: the former ones, each extended at most, then the
    new ones. *)
Lemma registerGroup_extends gid name ids gs :
  exists gs' new,
    registerGroup gid name ids gs = gs' ++ new /\
    Forall2 extends gs gs' /\
    Forall (fun g => conversions g = [] /\ group_id g = gid) new.
Proof.
  induction gs as [|g gs IH].
  - exists [], [ {| group_id := gid; group_name := name;
                    group_description := "Custom MEP " +:+ name;
                    unitIds := ids; conversions := [] |} ].
    split; [done|]. split; [constructor|]. by repeat constructor.
  - cbn [registerGroup]. destruct (decide (group_id g = gid)) as [Heq|Hne].
    + exists (withUnitIds g (setOfList (unitIds g ++ ids)) :: gs), [].
      split; [by rewrite app_nil_r|]. split; [|constructor].
      constructor.
      * repeat split. simpl. intros x Hx. apply setOfList_elem.
        apply elem_of_app. by left.
      * apply Forall2_same_length_lookup. split; [done|].
        intros i x y Hx Hy. replace y with x by congruence. by repeat split.
    + destruct IH as (gs' & new & -> & H2 & Hnew).
      exists (g :: gs'), new. split; [done|]. split; [|done].
      constructor; [by repeat split|done].
Qed.

Lemma registerGroup_has gid name ids gs :
  exists g, g ∈ registerGroup gid name ids gs /\ group_id g = gid /\ ids ⊆ unitIds g.
Proof.
  induction gs as [|g gs IH].
  - eexists. split; [left|]. done.
  - cbn [registerGroup]. destruct (decide (group_id g = gid)) as [Heq|Hne].
    + eexists. split; [left|]. split; [done|]. simpl.
      intros x Hx. apply setOfList_elem. apply elem_of_app. by right.
    + destruct IH as (g' & Hg' & Hid & Hsub). exists g'. split; [by right|done].
Qed.

Lemma extends_refl g : extends g g.
Proof. by repeat split. Qed.

Lemma extends_trans g1 g2 g3 : extends g1 g2 -> extends g2 g3 -> extends g1 g3.
Proof.
  intros (H1 & H2 & H3 & H4 & H5) (K1 & K2 & K3 & K4 & K5).
  repeat split; try congruence. set_solver.
Qed.

(** *** The units *)

Lemma relabelled_refl names u : relabelled names u u.
Proof. by left. Qed.

(** What the registration keeps of a unit. *)
Lemma relabelled_fields names u u' :
  relabelled names u u' ->
  unit_id u' = unit_id u /\ symbol u' = symbol u /\ unit_name u' = unit_name u /\
  abbreviations u' = abbreviations u /\
  (u' = u \/ JS.truthy (unitGroupId u') = true).
Proof.
  intros [->|(name & _ & ->)]; [by repeat split; try left|].
  repeat split. right. apply groupIdOf_truthy.
Qed.

Lemma relabelled_trans names u1 u2 u3 :
  relabelled names u1 u2 -> relabelled names u2 u3 -> relabelled names u1 u3.
Proof.
  intros [->|(n1 & Hn1 & ->)] [->|(n2 & Hn2 & ->)].
  - by left.
  - right. by exists n2.
  - right. by exists n1.
  - right. by exists n2.
Qed.

Lemma relabelled_mono names names' u u' :
  names ⊆ names' -> relabelled names u u' -> relabelled names' u u'.
Proof.
  intros Hsub [->|(name & Hname & ->)]; [by left|].
  right. exists name. split; [by apply Hsub|done].
Qed.

Lemma Forall2_relabelled_refl names us : Forall2 (relabelled names) us us.
Proof.
  apply Forall2_same_length_lookup. split; [done|].
  intros i x y Hx Hy. replace y with x by congruence. apply relabelled_refl.
Qed.

Lemma assignUnit_relabelled name uid us :
  Forall2 (relabelled [name]) us (assignUnit (groupIdOf name) uid us).
Proof.
  induction us as [|u us IH]; [constructor|].
  cbn [assignUnit]. destruct (decide (unit_id u = uid)).
  - constructor; [|apply Forall2_relabelled_refl].
    right. exists name. split; [left|done].
  - constructor; [apply relabelled_refl|done].
Qed.

Lemma assignUnit_ids gid uid us :
  unit_id <$> assignUnit gid uid us = unit_id <$> us.
Proof.
  induction us as [|u us IH]; [done|].
  cbn [assignUnit]. destruct (decide (unit_id u = uid)); [done|].
  by rewrite !fmap_cons, IH.
Qed.

Lemma assignUnit_hit gid uid us u' :
  NoDup (unit_id <$> us) ->
  u' ∈ assignUnit gid uid us -> unit_id u' = uid -> unitGroupId u' = gid.
Proof.
  induction us as [|u us IH]; intros Hnd Hu' Hid; [by apply elem_of_nil in Hu'|].
  rewrite fmap_cons in Hnd. apply NoDup_cons in Hnd as [Hu Hnd].
  cbn [assignUnit] in Hu'. destruct (decide (unit_id u = uid)) as [Heq|Hne].
  - apply elem_of_cons in Hu' as [->|Hu']; [done|].
    exfalso. apply Hu. rewrite Heq, <- Hid. apply list_elem_of_fmap. eauto.
  - apply elem_of_cons in Hu' as [->|Hu']; [done|]. by apply IH.
Qed.

Lemma Forall2_relabelled_trans names us1 us2 us3 :
  Forall2 (relabelled names) us1 us2 -> Forall2 (relabelled names) us2 us3 ->
  Forall2 (relabelled names) us1 us3.
Proof.
  intros H12. revert us3. induction H12 as [|u1 u2 l1 l2 H _ IH]; intros us3 H23.
  - by apply Forall2_nil_inv_l in H23 as ->.
  - apply Forall2_cons_inv_l in H23 as (u3 & l3 & H' & H23 & ->).
    constructor; [by apply (relabelled_trans names u1 u2)|by apply IH].
Qed.

Lemma Forall2_relabelled_mono names names' us us' :
  names ⊆ names' ->
  Forall2 (relabelled names) us us' -> Forall2 (relabelled names') us us'.
Proof.
  intros Hsub H. eapply Forall2_impl; [exact H|].
  intros u u'. by apply relabelled_mono.
Qed.

Lemma Forall2_relabelled_ids names us us' :
  Forall2 (relabelled names) us us' -> unit_id <$> us' = unit_id <$> us.
Proof.
  induction 1 as [|u u' l l' H _ IH]; [done|].
  apply relabelled_fields in H as (H & _). by rewrite !fmap_cons, H, IH.
Qed.

(** Once a unit has a group identifier it keeps one. *)
Lemma relabelled_truthy names us us' u' :
  Forall2 (relabelled names) us us' -> u' ∈ us' ->
  exists u, u ∈ us /\ relabelled names u u'.
Proof.
  intros H Hu'. apply list_elem_of_lookup in Hu' as [i Hi].
  destruct (Forall2_lookup_r _ _ _ _ _ H Hi) as (u & Hu & Hr).
  exists u. split; [|done]. apply list_elem_of_lookup. eauto.
Qed.

Lemma assignUnits_inv name ids us :
  let us' :=
    fold_left (fun us unitId => assignUnit (groupIdOf name) unitId us) ids us in
  Forall2 (relabelled [name]) us us' /\
  (NoDup (unit_id <$> us) ->
   forall u', u' ∈ us' -> unit_id u' ∈ ids -> JS.truthy (unitGroupId u') = true).
Proof.
  revert us. induction ids as [|uid ids IH]; intros us; cbv zeta.
  - simpl. split; [apply Forall2_relabelled_refl|].
    intros _ u' _ H. by apply elem_of_nil in H.
  - cbn [fold_left]. destruct (IH (assignUnit (groupIdOf name) uid us)) as [H1 H2].
    pose proof (assignUnit_relabelled name uid us) as H0.
    split; [by apply (Forall2_relabelled_trans _ _ (assignUnit (groupIdOf name) uid us))|].
    intros Hnd u' Hu' Hin.
    destruct (decide (unit_id u' ∈ ids)) as [Hids|Hids].
    { apply H2; [by rewrite assignUnit_ids|done|done]. }
    apply elem_of_cons in Hin as [Heq|?]; [|done].
    destruct (relabelled_truthy _ _ _ _ H1 Hu') as (u1 & Hu1 & Hr).
    apply relabelled_fields in Hr as (Hid & _ & _ & _ & Hcase).
    destruct Hcase as [->|?]; [|done].
    rewrite (assignUnit_hit (groupIdOf name) uid us u1 Hnd Hu1) by done.
    apply groupIdOf_truthy.
Qed.

Lemma registerEntries_units entries us gs :
  let r := fold_left registerEntry entries (us, gs) in
  Forall2 (relabelled entries.*1) us r.1 /\
  (NoDup (unit_id <$> us) ->
   forall u', u' ∈ r.1 -> unit_id u' ∈ concat entries.*2 ->
     JS.truthy (unitGroupId u') = true).
Proof.
  revert us gs. induction entries as [|[name ids] entries IH]; intros us gs; cbv zeta.
  - simpl. split; [apply Forall2_relabelled_refl|].
    intros _ u' _ H. by apply elem_of_nil in H.
  - cbn [fold_left].
    destruct (assignUnits_inv name ids us) as [H1 H2].
    set (us1 := fold_left (fun us unitId => assignUnit (groupIdOf name) unitId us)
                  ids us) in *.
    change (registerEntry (us, gs) (name, ids))
      with (us1, registerGroup (groupIdOf name) name ids gs).
    destruct (IH us1 (registerGroup (groupIdOf name) name ids gs)) as [K1 K2].
    split.
    { rewrite fmap_cons. simpl.
      apply (Forall2_relabelled_trans _ _ us1).
      - apply (Forall2_relabelled_mono [name]); [set_solver|done].
      - apply (Forall2_relabelled_mono entries.*1); [set_solver|done]. }
    intros Hnd u' Hu' Hin.
    assert (NoDup (unit_id <$> us1)) as Hnd1
      by by rewrite (Forall2_relabelled_ids _ _ _ H1).
    rewrite fmap_cons in Hin. simpl in Hin. apply elem_of_app in Hin as [Hin|Hin].
    + destruct (relabelled_truthy _ _ _ _ K1 Hu') as (u1 & Hu1 & Hr).
      apply relabelled_fields in Hr as (Hid & _ & _ & _ & Hcase).
      destruct Hcase as [->|?]; [|done]. by apply H2.
    + by apply K2.
Qed.

Lemma Forall2_extends_trans gs1 gs2 gs3 :
  Forall2 extends gs1 gs2 -> Forall2 extends gs2 gs3 -> Forall2 extends gs1 gs3.
Proof.
  intros H12. revert gs3. induction H12 as [|g1 g2 l1 l2 H _ IH]; intros gs3 H23.
  - by apply Forall2_nil_inv_l in H23 as ->.
  - apply Forall2_cons_inv_l in H23 as (g3 & l3 & H' & H23 & ->).
    constructor; [by apply (extends_trans g1 g2)|by apply IH].
Qed.

Lemma Forall2_extends_refl gs : Forall2 extends gs gs.
Proof. induction gs; constructor; [apply extends_refl|done]. Qed.

Lemma extends_elem gs gs' g :
  Forall2 extends gs gs' -> g ∈ gs -> exists g', g' ∈ gs' /\ extends g g'.
Proof.
  intros H Hg. apply list_elem_of_lookup in Hg as [i Hi].
  destruct (Forall2_lookup_l _ _ _ _ _ H Hi) as (g' & Hg' & He).
  exists g'. split; [|done]. apply list_elem_of_lookup. eauto.
Qed.

Lemma registerEntries_groups entries us gs :
  let r := fold_left registerEntry entries (us, gs) in
  (NoDup (group_id <$> gs) -> NoDup (group_id <$> r.2)) /\
  (exists gs' new, r.2 = gs' ++ new /\ Forall2 extends gs gs' /\
     Forall (fun g => conversions g = []) new) /\
  (forall name ids, (name, ids) ∈ entries ->
     exists g, g ∈ r.2 /\ group_id g = groupIdOf name /\ ids ⊆ unitIds g).
Proof.
  revert us gs. induction entries as [|[name ids] entries IH]; intros us gs; cbv zeta.
  - simpl. split; [done|]. split.
    + exists gs, []. split; [by rewrite app_nil_r|].
      split; [apply Forall2_extends_refl|constructor].
    + intros n i H. by apply elem_of_nil in H.
  - cbn [fold_left].
    set (us1 := fold_left (fun us unitId => assignUnit (groupIdOf name) unitId us)
                  ids us).
    set (gs1 := registerGroup (groupIdOf name) name ids gs).
    change (registerEntry (us, gs) (name, ids)) with (us1, gs1).
    destruct (IH us1 gs1) as (K1 & (gs2 & new2 & K2 & K3 & K4) & K5).
    destruct (registerGroup_extends (groupIdOf name) name ids gs)
      as (gs1' & new1 & E1 & E2 & E3).
    fold gs1 in E1.
    split; [|split].
    + intros Hnd. apply K1. by apply registerGroup_NoDup.
    + rewrite E1 in K3. apply Forall2_app_inv_l in K3 as (a & b & Ha & Hb & ->).
      exists a, (b ++ new2). split; [by rewrite K2, app_assoc|].
      split; [by apply (Forall2_extends_trans _ gs1')|].
      apply Forall_app. split; [|done].
      apply Forall_forall. intros g' Hg'.
      apply list_elem_of_lookup in Hg' as [i Hi].
      destruct (Forall2_lookup_r _ _ _ _ _ Hb Hi) as (g & Hg & (_ & _ & _ & Hc & _)).
      rewrite Hc. rewrite Forall_forall in E3.
      apply E3. apply list_elem_of_lookup. eauto.
    + intros n i [Heq|Hin]%elem_of_cons; [|by apply K5].
      injection Heq as -> ->.
      destruct (registerGroup_has (groupIdOf name) name ids gs) as (g & Hg & Hid & Hsub).
      fold gs1 in Hg. rewrite K2.
      assert (exists g', g' ∈ gs2 /\ extends g g') as (g' & Hg' & (X1 & _ & _ & _ & X5)).
      { by apply (extends_elem gs1). }
      exists g'. split; [apply elem_of_app; by left|].
      split; [congruence|]. set_solver.
Qed.

(** X11.  The registration loop at the start of phase 2.  Every unit keeps
    its position and is either left as it is or changed in [unitGroupId]
    alone, which is then the identifier derived from one of the classified
    names; with pairwise different unit identifiers, a unit still without
    group afterwards was without group before and is recorded in no
    classified group.  Groups that existed keep
    their position, identifier, name, description and conversions and lose
    no unit identifier; new groups are appended with no conversions, and
    pairwise different group identifiers stay so.  Every classified name
    has a group with the identifier derived from it that holds all its unit
    identifiers.  That identifier ignores the case of the name and is [ug-]
    followed by lower-case letters, digits and dashes only. *)
Theorem registration_keeps_registry cp allUnits unitGroups :
  let r := registerGroups cp allUnits unitGroups in
  Forall2 (relabelled (groupsClassified cp).*1) allUnits r.1 /\
  (NoDup (unit_id <$> allUnits) ->
   forall u, u ∈ unmappedUnits r.1 ->
     u ∈ unmappedUnits allUnits /\ unit_id u ∉ classifiedIds cp) /\
  (NoDup (group_id <$> unitGroups) -> NoDup (group_id <$> r.2)) /\
  (exists gs' new, r.2 = gs' ++ new /\ Forall2 extends unitGroups gs' /\
     Forall (fun g => conversions g = []) new) /\
  (forall name ids, (name, ids) ∈ groupsClassified cp ->
     exists g, g ∈ r.2 /\ group_id g = groupIdOf name /\ ids ⊆ unitIds g) /\
  (forall name, groupIdOf (JS.toLowerCase name) = groupIdOf name) /\
  (forall name, exists slug,
     groupIdOf name = "ug-" +:+ slug /\ allChars isIdChar slug = true).
Proof.
  cbv zeta. unfold registerGroups.
  destruct (registerEntries_units (groupsClassified cp) allUnits unitGroups)
    as [U1 U2].
  destruct (registerEntries_groups (groupsClassified cp) allUnits unitGroups)
    as (G1 & G2 & G3).
  cbv zeta in *.
  split; [done|]. split; [|split; [done|split; [done|split; [done|split]]]].
  - intros Hnd u Hu. unfold unmappedUnits in *.
    apply list_elem_of_filter in Hu as [Hf Hu].
    destruct (relabelled_truthy _ _ _ _ U1 Hu) as (u0 & Hu0 & Hr).
    apply relabelled_fields in Hr as (_ & _ & _ & _ & Hcase).
    destruct Hcase as [Heq|?]; [|congruence]. subst u0.
    split; [by apply list_elem_of_filter|].
    intros Hin. by rewrite (U2 Hnd u Hu Hin) in Hf.
  - apply groupIdOf_case.
  - intros name. eexists. split; [done|]. apply replaceRuns_chars.
Qed.

End RegistrationFacts.

Module PipelineFacts.
Import Builtins Collector Registration ListFacts BuiltinsFacts CollectorFacts.

(** *** The merge loop *)

Lemma mergedInto_refl groupUnits st : mergedInto groupUnits st st.
Proof. exists []. rewrite app_nil_r. simpl. repeat split; [lia|constructor|done]. Qed.

Lemma mergedInto_trans groupUnits st1 st2 st3 :
  mergedInto groupUnits st1 st2 -> mergedInto groupUnits st2 st3 ->
  mergedInto groupUnits st1 st3.
Proof.
  intros (a1 & H1 & H2 & H3 & H4) (a2 & K1 & K2 & K3 & K4).
  exists (a1 ++ a2). split; [by rewrite K1, H1, app_assoc|].
  split; [rewrite K2, H2, length_app; lia|]. split; [by apply Forall_app|].
  intros Hu. by apply K4, H4.
Qed.

Lemma existsb_samePair_false a b cs :
  existsb (Closure.samePair a b) cs = false ->
  (a, b) ∉ Closure.pairOf <$> cs.
Proof.
  intros H (e & Heq & He)%list_elem_of_fmap.
  assert (existsb (Closure.samePair a b) cs = true) as Ht; [|congruence].
  apply existsb_exists. exists e. split; [by apply list_elem_of_In|].
  apply ClosureFacts.samePair_true. unfold Closure.pairOf in Heq. by simplify_eq.
Qed.

Lemma mergeConversion_merged rt groupUnits fromUnit st d :
  fromUnit ∈ groupUnits ->
  PrimFloat.leb (cd_multiplier d) 0 = false -> JS.isFinite (cd_multiplier d) = true ->
  JS.includesChar "x"%char (cd_equation d) = true ->
  mergedInto groupUnits (st.1.1, st.1.2)
    ((mergeConversion rt groupUnits fromUnit st d).1.1,
     (mergeConversion rt groupUnits fromUnit st d).1.2).
Proof.
  intros Hfrom Hpos Hfin Hx. unfold mergeConversion.
  destruct (find (symbolIs (cd_to d)) groupUnits) as [toUnit|] eqn:Hfind;
    [|apply mergedInto_refl].
  destruct (existsb _ st.1.2) eqn:Hex; [apply mergedInto_refl|].
  apply find_Some_elem in Hfind as [Hto _].
  eexists [_]. simpl. split; [done|]. split; [lia|]. split.
  - constructor; [|constructor]. exists fromUnit, toUnit. by repeat split.
  - intros Hu. unfold Closure.uniquePairs in *. rewrite fmap_app. simpl.
    apply NoDup_app. split; [done|]. split; [|apply NoDup_singleton].
    intros x Hx' ->%list_elem_of_singleton.
    by apply existsb_samePair_false in Hex.
Qed.

Lemma mergeConversions_merged rt groupUnits fromUnit ds st :
  fromUnit ∈ groupUnits ->
  Forall (fun d => PrimFloat.leb (cd_multiplier d) 0 = false /\
                   JS.isFinite (cd_multiplier d) = true /\
                   JS.includesChar "x"%char (cd_equation d) = true) ds ->
  mergedInto groupUnits (st.1.1, st.1.2)
    ((fold_left (mergeConversion rt groupUnits fromUnit) ds st).1.1,
     (fold_left (mergeConversion rt groupUnits fromUnit) ds st).1.2).
Proof.
  intros Hfrom. revert st. induction ds as [|d ds IH]; intros st Hds.
  - apply mergedInto_refl.
  - apply Forall_cons in Hds as [(H1 & H2 & H3) Hds]. cbn [fold_left].
    eapply mergedInto_trans; [by apply mergeConversion_merged|by apply IH].
Qed.

Lemma validated_data o group groupUnits fromUnit :
  Forall (fun d => PrimFloat.leb (cd_multiplier d) 0 = false /\
                   JS.isFinite (cd_multiplier d) = true /\
                   JS.includesChar "x"%char (cd_equation d) = true)
    (requestConversions o group groupUnits fromUnit).2.
Proof.
  apply Forall_forall. intros d Hd. unfold requestConversions in Hd. simpl in Hd.
  apply list_elem_of_omap in Hd as (c & _ & Hc).
  apply validateConversion_Some in Hc
    as (from & to & m & eqn & _ & _ & _ & _ & _ & _ & _ & _ & _ & H1 & H2 & H3 & ->).
  simpl. split; [done|]. split; [done|]. by rewrite includesChar_trim.
Qed.

Lemma mergeUnit_merged rt o group groupUnits p u :
  u ∈ groupUnits ->
  mergedInto groupUnits (nextId p, groupConversions p)
    (nextId (mergeUnit rt o group groupUnits p u),
     groupConversions (mergeUnit rt o group groupUnits p u)).
Proof.
  intros Hu. unfold mergeUnit, mergeResult. simpl.
  apply (mergeConversions_merged rt groupUnits u _
           (nextId p, groupConversions p, generated p)); [done|].
  apply validated_data.
Qed.

Lemma mergeUnits_merged rt o group groupUnits l p :
  l ⊆ groupUnits ->
  mergedInto groupUnits (nextId p, groupConversions p)
    (nextId (fold_left (mergeUnit rt o group groupUnits) l p),
     groupConversions (fold_left (mergeUnit rt o group groupUnits) l p)).
Proof.
  revert p. induction l as [|u l IH]; intros p Hsub; [apply mergedInto_refl|].
  cbn [fold_left]. eapply mergedInto_trans.
  - apply (mergeUnit_merged rt o group groupUnits p u). set_solver.
  - apply IH. set_solver.
Qed.

Lemma unitsToProcess_sub cp group groupUnits :
  unitsToProcess cp group groupUnits ⊆ groupUnits.
Proof.
  unfold unitsToProcess. case_bool_decide; [|done].
  intros u Hu. by apply list_elem_of_filter in Hu as [_ ?].
Qed.

Lemma processGroup_None rt o allUnits cp next group :
  processGroup rt o allUnits cp next group = None <->
  unitsToProcess cp group (Closure.groupUnitsOf allUnits group) = [].
Proof.
  unfold processGroup.
  destruct (unitsToProcess cp group (Closure.groupUnitsOf allUnits group)); simpl;
    by split.
Qed.

(** X12.  Processing one group in phase 2 only appends to the group's
    conversions: the equations that were there stay in place, one identifier
    is drawn per appended equation, every appended equation starts and ends
    at units of the group and carries a finite multiplier that is not
    [<= 0] and an equation text with an [x], and a list with at most one
    equation per ordered pair stays so.  The group is skipped only when no
    unit is left to process. *)
Theorem merge_adds_validated_edges rt o allUnits cp next group :
  match processGroup rt o allUnits cp next group with
  | Some p =>
      exists added,
        groupConversions p = conversions group ++ added /\
        nextId p = next + length added /\
        Forall (mergedEdge (Closure.groupUnitsOf allUnits group)) added /\
        (Closure.uniquePairs (conversions group) ->
         Closure.uniquePairs (groupConversions p))
  | None => unitsToProcess cp group (Closure.groupUnitsOf allUnits group) = []
  end.
Proof.
  destruct (processGroup rt o allUnits cp next group) as [p|] eqn:Hp;
    [|by apply processGroup_None in Hp].
  revert Hp.
  unfold processGroup. destruct (Nat.eqb _ 0); [done|]. intros [= <-]. simpl.
  set (groupUnits := Closure.groupUnitsOf allUnits group).
  set (todo := unitsToProcess cp group groupUnits).
  destruct (conversionLoop_saved rt o group groupUnits todo (length todo) 0
              (startFrom cp (conversions group) next)) as [Hs _]; [lia|].
  rewrite drop_0 in Hs. unfold saved in Hs. injection Hs as _ Hc Hn.
  rewrite Hc, Hn.
  apply (mergeUnits_merged rt o group groupUnits todo
           (startFrom cp (conversions group) next)).
  apply unitsToProcess_sub.
Qed.

(** *** A processed group *)

Lemma failing_requests_add_nothing rt o group groupUnits l p :
  (forall u us name, generateConversionsFromUnit o u us name = []) ->
  groupConversions (fold_left (mergeUnit rt o group groupUnits) l p)
  = groupConversions p.
Proof.
  intros Hfail. revert p. induction l as [|u l IH]; intros p; [done|].
  cbn [fold_left]. rewrite IH. unfold mergeUnit, mergeResult, requestConversions.
  simpl. by rewrite Hfail.
Qed.

(** X13.  After a group is processed in phase 2 the checkpoint lists it in
    [conversionsGroupsCompleted], has no current group and no completed
    units, and the filter of phase 2 rejects every group with that
    identifier in later runs.  Requests were made for exactly the units not
    yet completed, and an Oracle that answers nothing leaves the
    conversions as they were, the group being marked completed all the
    same. *)
Theorem processed_group_is_closed rt o allUnits cp next group :
  match processGroup rt o allUnits cp next group with
  | Some p =>
      group_id group ∈ conversionsGroupsCompleted (checkpoint p) /\
      currentConversionGroupId (checkpoint p) = None /\
      unitsCompleted (checkpoint p) = [] /\
      requested p = unitsToProcess cp group (Closure.groupUnitsOf allUnits group) /\
      (forall allUnits' g, group_id g = group_id group ->
         needsConversions (checkpoint p) allUnits' g = false) /\
      ((forall u us name, generateConversionsFromUnit o u us name = []) ->
       groupConversions p = conversions group)
  | None => unitsToProcess cp group (Closure.groupUnitsOf allUnits group) = []
  end.
Proof.
  destruct (processGroup rt o allUnits cp next group) as [p|] eqn:Hp;
    [|by apply processGroup_None in Hp].
  revert Hp.
  unfold processGroup. destruct (Nat.eqb _ 0); [done|]. intros [= <-]. simpl.
  set (groupUnits := Closure.groupUnitsOf allUnits group).
  set (todo := unitsToProcess cp group groupUnits).
  destruct (conversionLoop_saved rt o group groupUnits todo (length todo) 0
              (startFrom cp (conversions group) next)) as [Hs Hr]; [lia|].
  rewrite drop_0 in Hs, Hr. unfold saved in Hs. injection Hs as _ Hc _.
  split; [apply elem_of_app; right; left|]. do 2 (split; [done|]).
  split; [by rewrite Hr|]. split.
  - intros allUnits' g Hg. apply needsConversions_completed. simpl.
    rewrite Hg. apply elem_of_app. right. left.
  - intros Hfail. rewrite Hc. by apply failing_requests_add_nothing.
Qed.

(** *** The limit on the groups of one run *)

Lemma phase2_fold_limit rt o allUnits limit gs st :
  let r := fold_left (phase2Step rt o allUnits limit) gs st in
  (length (p2_groups st) = groupsProcessed st ->
   length (p2_groups r) = groupsProcessed r) /\
  (forall l, limit = Some l -> 0 < l ->
     groupsProcessed st <= l -> groupsProcessed r <= l) /\
  (limit = None \/ limit = Some 0 -> p2_stopped st = false ->
   p2_stopped r = false) /\
  groupsProcessed st <= groupsProcessed r /\
  groupsProcessed r <= groupsProcessed st + length gs.
Proof.
  revert st. induction gs as [|g gs IH]; intros st; cbv zeta.
  - simpl. repeat split; done || lia.
  - cbn [fold_left]. destruct (IH (phase2Step rt o allUnits limit st g))
      as (H1 & H2 & H3 & H4 & H5). cbv zeta in *.
    assert (groupsProcessed (phase2Step rt o allUnits limit st g)
            <= groupsProcessed st + 1) as S5.
    { unfold phase2Step. destruct (p2_stopped st); [lia|].
      destruct (limitReached _ _); [simpl; lia|].
      destruct (processGroup _ _ _ _ _ _); simpl; lia. }
    assert (length (p2_groups st) = groupsProcessed st ->
            length (p2_groups (phase2Step rt o allUnits limit st g))
            = groupsProcessed (phase2Step rt o allUnits limit st g)) as S1.
    { unfold phase2Step. destruct (p2_stopped st); [done|].
      destruct (limitReached _ _); [done|].
      destruct (processGroup _ _ _ _ _ _); [|done]. simpl.
      rewrite length_app. simpl. lia. }
    assert (forall l, limit = Some l -> 0 < l -> groupsProcessed st <= l ->
            groupsProcessed (phase2Step rt o allUnits limit st g) <= l) as S2.
    { intros l -> Hl Hle. unfold phase2Step. destruct (p2_stopped st); [done|].
      unfold limitReached.
      destruct (Nat.eqb_spec l 0) as [|_]; [lia|]. simpl.
      destruct (Nat.leb_spec l (groupsProcessed st)); [done|].
      destruct (processGroup _ _ _ _ _ _); [|done]. simpl. lia. }
    assert (limit = None \/ limit = Some 0 -> p2_stopped st = false ->
            p2_stopped (phase2Step rt o allUnits limit st g) = false) as S3.
    { intros Hl Hst. unfold phase2Step. rewrite Hst.
      replace (limitReached limit (groupsProcessed st)) with false
        by (by destruct Hl as [-> | ->]).
      by destruct (processGroup _ _ _ _ _ _). }
    assert (groupsProcessed st
            <= groupsProcessed (phase2Step rt o allUnits limit st g)) as S4.
    { unfold phase2Step. destruct (p2_stopped st); [done|].
      destruct (limitReached _ _); [done|].
      destruct (processGroup _ _ _ _ _ _); [|done]. simpl. lia. }
    split; [auto|]. split; [|split; [auto|simpl; lia]].
    intros l Hl Hpos Hle. by apply (H2 l), S2.
Qed.

(** X14.  Phase 2 processes at most as many groups as need conversions, and at
    most [batchGroupLimit] groups when that limit is positive; without a
    limit, or with the limit 0, it never stops early. *)
Theorem batch_limit_bounds_groups rt o allUnits limit cp next unitGroups :
  let r := phase2 rt o allUnits limit cp next unitGroups in
  length (p2_groups r) = groupsProcessed r /\
  groupsProcessed r <= length (groupsNeedingConversions cp allUnits unitGroups) /\
  (forall l, limit = Some l -> 0 < l -> groupsProcessed r <= l) /\
  (limit = None \/ limit = Some 0 -> p2_stopped r = false).
Proof.
  cbv zeta. unfold phase2.
  destruct (phase2_fold_limit rt o allUnits limit
              (groupsNeedingConversions cp allUnits unitGroups)
              {| p2_checkpoint := cp; p2_nextId := next; groupsProcessed := 0;
                 p2_groups := []; p2_requests := []; p2_stopped := false |})
    as (H1 & H2 & H3 & _ & H5). cbv zeta in *.
  split; [by apply H1|]. split; [done|]. split; [|by auto].
  intros l Hl Hpos. apply (H2 l); simpl; [done|done|lia].
Qed.

(** *** Phase 1 *)








(** *** Instance: the first run on the twenty-one custom units *)


End PipelineFacts.

Module DuplicateBatchesFacts.
Import Duplicates DuplicateBatches ListFacts BuiltinsFacts DuplicatesFacts CollectorFacts.

Lemma wordSet_lower s : wordSet (JS.toLowerCase s) = wordSet s.
Proof. unfold wordSet. by rewrite toLowerCase_idem. Qed.

Lemma splitLoop_nonempty b cur s : JS.splitLoop b cur s <> [].
Proof.
  revert b cur. induction s as [|c s IH]; intros b cur; [done|].
  simpl. destruct (JS.isSpace c); [|apply IH]. destruct b; [apply IH|done].
Qed.

Lemma wordSet_nonempty s : 1 <= size (wordSet s).
Proof.
  unfold wordSet, JS.splitWhitespace.
  destruct (JS.splitLoop false "" (JS.toLowerCase s)) as [|w ws] eqn:H.
  - by apply splitLoop_nonempty in H.
  - assert (w ∈ (list_to_set (w :: ws) : gset string)) as Hw by set_solver.
    destruct (decide (size (list_to_set (w :: ws) : gset string) = 0)) as [H0|]; [|lia].
    apply size_empty_inv in H0. set_solver.
Qed.

(** X16.  [calculateStringSimilarity] does not depend on the order of its two
    arguments nor on their case; the union of the two word sets is never
    empty (no division by zero) and the intersection is never larger than
    the union; hence the first-stage test of two spec types does not depend
    on their order. *)
Theorem similarity_is_symmetric :
  (forall a b, calculateStringSimilarity a b = calculateStringSimilarity b a) /\
  (forall a b, calculateStringSimilarity (JS.toLowerCase a) b
               = calculateStringSimilarity a b) /\
  (forall a b, 1 <= size (wordSet a ∪ wordSet b) /\
     size (wordSet a ∩ wordSet b) <= size (wordSet a ∪ wordSet b)) /\
  (forall si sj, similarEnough si sj = similarEnough sj si).
Proof.
  assert (forall a b, calculateStringSimilarity a b = calculateStringSimilarity b a)
    as Hsym.
  { intros a b. unfold calculateStringSimilarity. cbv zeta.
    by rewrite (comm_L (∩) (wordSet a)), (comm_L (∪) (wordSet a)). }
  split; [done|]. split; [|split].
  - intros a b. unfold calculateStringSimilarity. by rewrite wordSet_lower.
  - intros a b. split.
    + pose proof (wordSet_nonempty a) as Ha.
      assert (size (wordSet a) <= size (wordSet a ∪ wordSet b)); [|lia].
      apply subseteq_size. set_solver.
    + apply subseteq_size. set_solver.
  - intros si sj. unfold similarEnough. by rewrite Hsym.
Qed.

(** *** The batches *)

Lemma batchLoop_batches fuel oracle candidates i groups :
  batchLoop fuel oracle candidates i groups =
  fold_left (fun gs batch => processBatch oracle batch gs)
    (batchesFrom fuel candidates i) groups.
Proof.
  revert i groups. induction fuel as [|fuel IH]; intros i groups; [done|].
  simpl. destruct (Nat.ltb i (length candidates)); [|done]. simpl. apply IH.
Qed.

Lemma batchesFrom_concat fuel candidates i :
  length candidates - i <= fuel ->
  concat (batchesFrom fuel candidates i) = drop i candidates.
Proof.
  revert i. induction fuel as [|fuel IH]; intros i Hfuel; simpl.
  - by rewrite drop_ge by lia.
  - destruct (Nat.ltb_spec i (length candidates)) as [Hi|Hi].
    + simpl. rewrite IH by (unfold batchSize; lia). unfold batchAt.
      apply slice_then_drop.
    + by rewrite drop_ge by lia.
Qed.

Lemma batchAt_length candidates i :
  i < length candidates ->
  1 <= length (batchAt candidates i) <= batchSize.
Proof.
  intros Hi. unfold batchAt, JS.slice. rewrite length_take, length_drop.
  unfold batchSize. lia.
Qed.

Lemma batchesFrom_sizes fuel candidates i :
  Forall (fun batch => 1 <= length batch <= batchSize) (batchesFrom fuel candidates i).
Proof.
  revert i. induction fuel as [|fuel IH]; intros i; simpl; [constructor|].
  destruct (Nat.ltb_spec i (length candidates)) as [Hi|Hi]; [|constructor].
  constructor; [by apply batchAt_length|apply IH].
Qed.

Lemma batchesFrom_count fuel candidates i :
  length candidates - i <= fuel ->
  length (batchesFrom fuel candidates i) = (length candidates - i + 9) / 10.
Proof.
  revert i. induction fuel as [|fuel IH]; intros i Hfuel; cbn [batchesFrom].
  - replace (length candidates - i) with 0 by lia. done.
  - destruct (Nat.ltb_spec i (length candidates)) as [Hi|Hi].
    + cbn [length]. rewrite IH by (unfold batchSize; lia). unfold batchSize.
      remember (length candidates) as n eqn:Hn. clear Hn IH Hfuel.
      destruct (decide (i + 10 <= n)).
      * replace (n - i + 9) with ((n - (i + 10) + 9) + 1 * 10) by lia.
        rewrite Nat.div_add by lia. lia.
      * replace (n - (i + 10)) with 0 by lia.
        change ((0 + 9) / 10) with 0. change (S 0) with 1.
        apply (Nat.div_unique _ _ _ (n - i - 1)); lia.
    + replace (length candidates - i) with 0 by lia. done.
Qed.

Lemma batchDetect_batches oracle candidates :
  batchDetectDuplicates oracle candidates =
  fold_left (fun gs batch => processBatch oracle batch gs) (batches candidates) [].
Proof. apply batchLoop_batches. Qed.

Lemma batches_concat candidates : concat (batches candidates) = candidates.
Proof. unfold batches. rewrite batchesFrom_concat by lia. apply drop_0. Qed.

(** X17.  [batchDetectDuplicates] sends the candidates in consecutive batches:
    the batches put end to end are the candidate list, each has between 1
    and 10 candidates, and there are ceil(n / 10) of them.  A batch whose
    request fails adds no group, and a batch only appends to the groups
    found so far. *)
Theorem batches_partition_candidates oracle candidates :
  batchDetectDuplicates oracle candidates =
    fold_left (fun gs batch => processBatch oracle batch gs) (batches candidates) [] /\
  concat (batches candidates) = candidates /\
  Forall (fun batch => 1 <= length batch <= 10) (batches candidates) /\
  length (batches candidates) = (length candidates + 9) / 10 /\
  (forall batch groups, oracle batch = None ->
     processBatch oracle batch groups = groups) /\
  (forall batch groups, exists more,
     processBatch oracle batch groups = groups ++ more).
Proof.
  split; [apply batchDetect_batches|]. split; [apply batches_concat|].
  unfold batches. split; [|split; [|split]].
  - apply batchesFrom_sizes.
  - rewrite batchesFrom_count by lia. f_equal. lia.
  - intros batch groups H. unfold processBatch. by rewrite H.
  - intros batch groups. unfold processBatch.
    destruct (oracle batch) as [results|]; [|exists []; by rewrite app_nil_r].
    revert groups. induction results as [|r results IH]; intros groups.
    + exists []. by rewrite app_nil_r.
    + simpl. destruct (accepted r).
      * destruct (batch !! pairIndex r) as [cand|];
          [|exists []; by rewrite app_nil_r].
        destruct (IH (groups ++ [groupOf cand r])) as [more ->].
        eexists. by rewrite <- app_assoc.
      * apply IH.
Qed.

(** *** From the spec types to the reported groups *)

Lemma processBatches_recorded oracle bs groups g :
  g ∈ fold_left (fun gs batch => processBatch oracle batch gs) bs groups ->
  g ∈ groups \/
  exists batch, batch ∈ bs /\ recordedFor batch (verdictsOf oracle batch) g.
Proof.
  revert groups. induction bs as [|b bs IH]; intros groups Hg; [by left|].
  simpl in Hg. apply IH in Hg as [Hg|(b' & Hb' & Hrec)].
  - apply processBatch_recorded in Hg as [?|Hrec]; [by left|].
    right. exists b. split; [left|done].
  - right. exists b'. split; [by right|done].
Qed.

(** X18.  Every group that [findSemanticDuplicates] returns, whatever the Oracle
    answers, consists of two spec types of the same domain, in the order of
    the input, that pass the first-stage similarity test; their pair is a
    candidate of one of the batches sent, and the group carries the
    similarity and the reason of a result that the Oracle gave in its answer
    to that batch, that points to this candidate and that was accepted. *)
Theorem reported_duplicates_are_candidates oracle specTypes :
  Forall
    (fun g => exists si sj batch r,
       before specTypes si sj /\ domain si = domain sj /\
       similarEnough si sj = true /\
       batch ∈ batches (findCandidates specTypes) /\
       r ∈ verdictsOf oracle batch /\
       batch !! pairIndex r = Some (candidateOf si sj) /\
       accepted r = true /\
       Duplicates.specTypes g = [si; sj] /\
       dup_similarity g = similarity r /\ dup_reason g = reason r)
    (findSemanticDuplicates oracle specTypes).
Proof.
  apply Forall_forall. intros g Hg. unfold findSemanticDuplicates in Hg.
  destruct (Nat.eqb _ 0); [by apply elem_of_nil in Hg|].
  rewrite batchDetect_batches in Hg.
  apply processBatches_recorded in Hg as [Hg|(b & Hb & Hrec)];
    [by apply elem_of_nil in Hg|].
  destruct Hrec as (l1 & r & l2 & c & Hans & _ & Hacc & Hc & ->).
  assert (c ∈ findCandidates specTypes) as Hcand.
  { rewrite <- (batches_concat (findCandidates specTypes)).
    apply elem_of_concat. exists b. split; [done|].
    apply list_elem_of_lookup. eauto. }
  apply findCandidates_elem in Hcand as (si & sj & Hb' & Hd & Hs & ->).
  exists si, sj, b, r. do 4 (split; [done|]).
  split; [rewrite Hans; apply elem_of_app; right; left|]. done.
Qed.

End DuplicateBatchesFacts.

Module MasterFileFacts.
Import Collector MasterFile.

Lemma specTypesOf_cases data :
  (exists v, holdsSpecTypes data v /\ specTypesOf data = Ok v) \/
  ((forall v, ~ holdsSpecTypes data v) /\
   (specTypesOf data = Ok (JArray []) \/ (data = JNull /\ specTypesOf data = Throw))).
Proof.
  unfold specTypesOf, holdsSpecTypes.
  destruct data as [|b|x|s|items|fields]; simpl;
    try (right; split; [by intros v []|by left]).
  - right. split; [by intros v []|by right].
  - destruct (lookupField "specTypes" fields) as [v|] eqn:Hf.
    + destruct (jsonTruthy v) eqn:Ht.
      * left. by exists v.
      * right. split; [|by left]. intros v' [[= ->] ?]. congruence.
    + right. split; [|by left]. by intros v' [? _].
Qed.

Lemma load_fallback JSON_parse :
  loadMasterSpecTypes JSON_parse Missing = JArray [] /\
  loadMasterSpecTypes JSON_parse Unreadable = JArray [] /\
  (forall text, JSON_parse text = Throw ->
     loadMasterSpecTypes JSON_parse (Content text) = JArray []) /\
  (forall text data, JSON_parse text = Ok data ->
     (forall v, ~ holdsSpecTypes data v) ->
     loadMasterSpecTypes JSON_parse (Content text) = JArray []) /\
  (forall text data v, JSON_parse text = Ok data -> holdsSpecTypes data v ->
     loadMasterSpecTypes JSON_parse (Content text) = v).
Proof.
  split; [done|]. split; [done|]. split; [|split].
  - intros text H. unfold loadMasterSpecTypes, loadMasterTry. simpl. by rewrite H.
  - intros text data H Hno. unfold loadMasterSpecTypes, loadMasterTry. simpl.
    rewrite H. simpl.
    destruct (specTypesOf_cases data) as [(v & Hv & _)|[_ [-> |[_ ->]]]]; [|done..].
    by apply Hno in Hv.
  - intros text data v H Hv. unfold loadMasterSpecTypes, loadMasterTry. simpl.
    rewrite H. simpl.
    destruct (specTypesOf_cases data) as [(v' & Hv' & ->)|[Hno _]].
    + unfold holdsSpecTypes in *. destruct data; try done.
      destruct Hv as [Hv _], Hv' as [Hv' _]. congruence.
    + by apply Hno in Hv.
Qed.

(** X19.  [loadMasterSpecTypes] returns the empty list when the master file is
    missing, cannot be read, does not parse, or parses to a value without a
    truthy [specTypes]; otherwise it returns that [specTypes] value as it
    is.  When this value is not an array, [saveSpecTypeToMaster] throws and
    writes nothing.  [clearMasterFile] does not create a missing file. *)
Theorem master_file_fallback JSON_parse JSON_stringify now :
  loadMasterSpecTypes JSON_parse Missing = JArray [] /\
  loadMasterSpecTypes JSON_parse Unreadable = JArray [] /\
  (forall text, JSON_parse text = Throw ->
     loadMasterSpecTypes JSON_parse (Content text) = JArray []) /\
  (forall text data, JSON_parse text = Ok data ->
     (forall v, ~ holdsSpecTypes data v) ->
     loadMasterSpecTypes JSON_parse (Content text) = JArray []) /\
  (forall text data v, JSON_parse text = Ok data -> holdsSpecTypes data v ->
     loadMasterSpecTypes JSON_parse (Content text) = v) /\
  (forall specType file,
     (forall existing, loadMasterSpecTypes JSON_parse file <> JArray existing) ->
     saveSpecTypeToMaster JSON_parse JSON_stringify now specType file
     = (file, Throw)) /\
  clearMasterFile JSON_stringify now Missing = Missing.
Proof.
  destruct (load_fallback JSON_parse) as (H1 & H2 & H3 & H4 & H5).
  do 5 (split; [done|]). split; [|done].
  intros specType file Hno. unfold saveSpecTypeToMaster.
  destruct (loadMasterSpecTypes JSON_parse file) as [| | | |items|] eqn:Hl; try done.
  by destruct (Hno items).
Qed.

Lemma load_written JSON_parse JSON_stringify now specTypes :
  JSON_parse (JSON_stringify (masterData now specTypes))
    = Ok (masterData now specTypes) ->
  loadMasterSpecTypes JSON_parse (Content (JSON_stringify (masterData now specTypes)))
  = JArray specTypes.
Proof.
  intros H. unfold loadMasterSpecTypes, loadMasterTry. simpl. rewrite H. done.
Qed.

(** X20.  When the master file loads as a list and [JSON.parse] reads back what
    [JSON.stringify] writes for the new content, [loadMasterSpecTypes] after
    [saveSpecTypeToMaster] returns the list with the new spec type appended
    at the end.  The call throws, after the write, exactly for the spec
    type [null]; a file that was missing, unreadable or unparsable is
    replaced by one that holds the new spec type alone. *)
Theorem master_file_round_trip JSON_parse JSON_stringify now specType file existing :
  loadMasterSpecTypes JSON_parse file = JArray existing ->
  JSON_parse (JSON_stringify (masterData now (existing ++ [specType])))
    = Ok (masterData now (existing ++ [specType])) ->
  loadMasterSpecTypes JSON_parse
    (saveSpecTypeToMaster JSON_parse JSON_stringify now specType file).1
  = JArray (existing ++ [specType]) /\
  ((saveSpecTypeToMaster JSON_parse JSON_stringify now specType file).2 = Throw
   <-> specType = JNull) /\
  (file = Missing \/ file = Unreadable \/
   (exists text, file = Content text /\ JSON_parse text = Throw) ->
   existing = []).
Proof.
  intros Hload Hround. unfold saveSpecTypeToMaster. rewrite Hload. simpl.
  split; [by apply load_written|]. split.
  - destruct specType; simpl; split; done.
  - intros Hbad.
    assert (loadMasterSpecTypes JSON_parse file = JArray []) as Hempty.
    { destruct (load_fallback JSON_parse) as (H1 & H2 & H3 & _).
      destruct Hbad as [->|[->|(text & -> & Ht)]]; auto. }
    congruence.
Qed.

(** *** Instance of the round trip: the first save, on a missing file *)

Lemma master_file_round_trip_witness :
  loadMasterSpecTypes firstSaveParser
    (saveSpecTypeToMaster firstSaveParser (fun _ => "{}")
       "2025-01-01T00:00:00.000Z" airflow Missing).1
  = JArray [airflow].
Proof.
  refine (proj1 (master_file_round_trip firstSaveParser (fun _ => "{}")
                   "2025-01-01T00:00:00.000Z" airflow Missing [] _ _)).
  - reflexivity.
  - reflexivity.
Defined.

End MasterFileFacts.

Module UuidFacts.
Import Builtins Closure Uuid BuiltinsFacts.

Lemma hexDigit_char v : isUuidChar (hexDigit v) = true.
Proof. do 16 (destruct v as [|v]; [done|]). done. Qed.

Lemma toHex_chars fuel v acc :
  allChars isUuidChar acc = true -> allChars isUuidChar (toHex fuel v acc) = true.
Proof.
  revert v acc. induction fuel as [|fuel IH]; intros v acc Hacc; [done|].
  cbn [toHex]. destruct (Nat.eqb (v / 16) 0).
  - simpl. by rewrite hexDigit_char.
  - apply IH. simpl. by rewrite hexDigit_char.
Qed.

Lemma allChars_app P s1 s2 :
  allChars P (s1 +:+ s2) = allChars P s1 && allChars P s2.
Proof.
  induction s1 as [|c s1 IH]; [done|]. simpl. by rewrite IH, andb_assoc.
Qed.

Lemma fill_chars draw k t :
  allChars (fun c => isUuidChar c || bool_decide (c = "x"%char \/ c = "y"%char)) t = true ->
  allChars isUuidChar (fill draw k t).1 = true.
Proof.
  revert k. induction t as [|c t IH]; intros k Ht; [done|].
  simpl in Ht. apply andb_true_iff in Ht as [Hc Ht].
  cbn [fill]. destruct (decide (c = "x"%char \/ c = "y"%char)) as [Hxy|Hxy].
  - simpl. rewrite allChars_app, IH by done. unfold digitFor, toString16.
    by rewrite toHex_chars.
  - simpl. rewrite IH by done. rewrite bool_decide_eq_false_2 in Hc by done.
    by rewrite orb_false_r in Hc; rewrite Hc.
Qed.

Lemma uuidChars_arrowFree s : allChars isUuidChar s = true -> arrowFree s.
Proof.
  unfold arrowFree. induction s as [|c s IH]; intros H; [done|].
  simpl in H. apply andb_true_iff in H as [Hc Hs]. simpl.
  destruct (decide (arrowLead = c)) as [<-|]; [done|]. by apply IH.
Qed.

Lemma toString16_digit v : v < 16 -> toString16 v = String (hexDigit v) EmptyString.
Proof.
  intros Hv. unfold toString16. cbn [toHex].
  rewrite Nat.mod_small by done. by rewrite Nat.div_small.
Qed.

Lemma variant_range r : r < 16 -> 8 <= Nat.lor (Nat.land r 3) 8 < 12.
Proof.
  intros Hr. do 16 (destruct r as [|r]; [vm_compute; lia|]). lia.
Qed.

Lemma fill_placeholder draw k c rest :
  (forall i, draw i < 16) -> c = "x"%char \/ c = "y"%char ->
  fill draw k (String c rest)
  = (String (hexDigit (if decide (c = "x"%char) then draw k
                       else Nat.lor (Nat.land (draw k) 3) 8))
       (fill draw (S k) rest).1,
     (fill draw (S k) rest).2).
Proof.
  intros Hdraw Hc. cbn [fill]. rewrite decide_True by done.
  unfold digitFor. rewrite toString16_digit; [done|].
  destruct (decide (c = "x"%char)); [apply Hdraw|].
  pose proof (variant_range (draw k) (Hdraw k)). lia.
Qed.

Lemma fill_literal draw k c rest :
  ~ (c = "x"%char \/ c = "y"%char) ->
  fill draw k (String c rest)
  = (String c (fill draw k rest).1, (fill draw k rest).2).
Proof. intros Hc. cbn [fill]. by rewrite decide_False. Qed.

Lemma variant_digit r :
  r < 16 ->
  hexDigit (Nat.lor (Nat.land r 3) 8) ∈ ["8"; "9"; "a"; "b"]%char.
Proof.
  intros Hr. do 16 (destruct r as [|r]; [vm_compute; set_solver|]). lia.
Qed.

(** The text keeps its length and makes one draw for each placeholder. *)
Lemma fill_digits draw k t :
  (forall i, draw i < 16) ->
  String.length (fill draw k t).1 = String.length t /\
  (fill draw k t).2 = k + placeholdersBefore (String.length t) t.
Proof.
  intros Hdraw. revert k. induction t as [|c t IH]; intros k; [simpl; split; [done|lia]|].
  destruct (decide (c = "x"%char \/ c = "y"%char)) as [Hxy|Hxy].
  - rewrite fill_placeholder by done. destruct (IH (S k)) as [H1 H2].
    cbn [fst snd String.length placeholdersBefore]. rewrite decide_True by done.
    rewrite H1, H2. split; [done|lia].
  - rewrite fill_literal by done. destruct (IH k) as [H1 H2].
    cbn [fst snd String.length placeholdersBefore]. rewrite decide_False by done.
    rewrite H1, H2. split; [done|lia].
Qed.

(** The character at each position: the digit of the draw made there for a
    placeholder, the character of the template otherwise. *)
Lemma fill_get draw k t i c :
  (forall i, draw i < 16) ->
  String.get i t = Some c ->
  String.get i (fill draw k t).1 =
  Some (if decide (c = "x"%char) then hexDigit (draw (k + placeholdersBefore i t))
        else if decide (c = "y"%char)
        then hexDigit (Nat.lor (Nat.land (draw (k + placeholdersBefore i t)) 3) 8)
        else c).
Proof.
  intros Hdraw. revert k i. induction t as [|a t IH]; intros k i Hget; [done|].
  destruct (decide (a = "x"%char \/ a = "y"%char)) as [Hxy|Hxy].
  - rewrite fill_placeholder by done. cbn [fst]. destruct i as [|i].
    + simpl in Hget. injection Hget as ->. cbn [String.get placeholdersBefore].
      rewrite Nat.add_0_r. destruct (decide (c = "x"%char)) as [|Hx]; [done|].
      destruct Hxy as [Hx'|Hy]; [done|]. by rewrite decide_True.
    + cbn [String.get] in *. rewrite (IH (S k) i Hget).
      cbn [placeholdersBefore].
      destruct (decide (a = "x"%char \/ a = "y"%char)) as [_|?]; [|done].
      by replace (k + (1 + placeholdersBefore i t))
        with (S k + placeholdersBefore i t) by lia.
  - rewrite fill_literal by done. cbn [fst]. destruct i as [|i].
    + simpl in Hget. injection Hget as ->. cbn [String.get].
      rewrite !decide_False; [done|intros ->; apply Hxy; by right
                             |intros ->; apply Hxy; by left].
    + cbn [String.get] in *. rewrite (IH k i Hget).
      cbn [placeholdersBefore].
      by destruct (decide (a = "x"%char \/ a = "y"%char)) as [?|_].
Qed.

(** X21.  With every draw [(Math.random() * 16) | 0] in 0..15, [generateUUID]
    makes 31 draws and returns 36 characters: dashes at the positions 8,
    13, 18 and 23, the digit 4 at position 14, one of 8, 9, a, b at position
    19, and at every [x] of the template the hexadecimal digit of the draw
    made there.  All characters are lower-case hexadecimal digits or
    dashes, so that no identifier of the stream contains the arrow of the
    conversion keys. *)
Theorem generateUUID_format draw k :
  (forall i, draw i < 16) ->
  (generateUUID draw k).2 = k + 31 /\
  String.length (generateUUID draw k).1 = 36 /\
  (forall i, i ∈ [8; 13; 18; 23] ->
     String.get i (generateUUID draw k).1 = Some "-"%char) /\
  String.get 14 (generateUUID draw k).1 = Some "4"%char /\
  (exists v, v ∈ ["8"; "9"; "a"; "b"]%char /\
     String.get 19 (generateUUID draw k).1 = Some v) /\
  (forall i, String.get i template = Some "x"%char ->
     String.get i (generateUUID draw k).1
     = Some (hexDigit (draw (k + placeholdersBefore i template)))) /\
  allChars isUuidChar (generateUUID draw k).1 = true /\
  (forall n, arrowFree (uuidStream draw n)).
Proof.
  intros Hdraw. unfold generateUUID.
  destruct (fill_digits draw k template Hdraw) as [Hlen Hk].
  split; [exact Hk|]. split; [exact Hlen|]. split; [|split; [|split; [|split; [|split]]]].
  - intros i Hi.
    assert (String.get i template = Some "-"%char) as Hget.
    { repeat (apply elem_of_cons in Hi as [->|Hi]; [reflexivity|]).
      by apply elem_of_nil in Hi. }
    by rewrite (fill_get draw k template i _ Hdraw Hget).
  - by rewrite (fill_get draw k template 14 "4"%char Hdraw eq_refl).
  - rewrite (fill_get draw k template 19 "y"%char Hdraw eq_refl).
    eexists. split; [|reflexivity]. rewrite decide_False by done.
    rewrite decide_True by done. apply variant_digit, Hdraw.
  - intros i Hget. rewrite (fill_get draw k template i _ Hdraw Hget).
    by rewrite decide_True.
  - by apply fill_chars.
  - intros n. apply uuidChars_arrowFree. by apply fill_chars.
Qed.

Lemma generateUUID_format_witness :
  (generateUUID (fun _ => 7) 0).2 = 31 /\
  String.length (generateUUID (fun _ => 7) 0).1 = 36.
Proof.
  destruct (generateUUID_format (fun _ => 7) 0) as (H1 & H2 & _).
  - intros _. lia.
  - split; [exact H1|exact H2].
Defined.

End UuidFacts.

Module FencesFacts.
Import Collector Fences BuiltinsFacts.

Lemma append_nil_l (s : string) : "" +:+ s = s.
Proof. done. Qed.

Lemma append_cons c (s t : string) : String c s +:+ t = String c (s +:+ t).
Proof. done. Qed.

Lemma string_app_nil_r (s : string) : s +:+ "" = s.
Proof. induction s as [|c s IH]; [done|]. by rewrite append_cons, IH. Qed.

Lemma string_app_assoc (a b c : string) : (a +:+ b) +:+ c = a +:+ (b +:+ c).
Proof. induction a as [|x a IH]; [done|]. by rewrite !append_cons, IH. Qed.

Lemma rev_app_app s1 s2 acc :
  String.rev_app (s1 +:+ s2) acc = String.rev_app s2 (String.rev_app s1 acc).
Proof.
  revert acc. induction s1 as [|c s1 IH]; intros acc; [done|].
  rewrite append_cons. cbn [String.rev_app]. apply IH.
Qed.

Lemma rev_app_rev_app s t u :
  String.rev_app (String.rev_app s t) u = String.rev_app t (s +:+ u).
Proof.
  revert t u. induction s as [|c s IH]; intros t u; [done|].
  cbn [String.rev_app]. by rewrite IH, append_cons.
Qed.

Lemma rev_app_acc s acc : String.rev_app s acc = String.rev s +:+ acc.
Proof.
  unfold String.rev. revert acc. induction s as [|c s IH]; intros acc; [done|].
  cbn [String.rev_app]. rewrite (IH (String c "")), IH, string_app_assoc. done.
Qed.

Lemma trimStart_space pad s :
  allSpace pad = true -> JS.trimStart (pad +:+ s) = JS.trimStart s.
Proof.
  induction pad as [|c pad IH]; intros H; [done|].
  simpl in H. apply andb_true_iff in H as [Hc H].
  rewrite append_cons. cbn [JS.trimStart]. rewrite Hc. by apply IH.
Qed.

Lemma allSpace_rev_app s acc :
  allSpace (String.rev_app s acc) = allSpace s && allSpace acc.
Proof.
  revert acc. induction s as [|c s IH]; intros acc; [done|].
  cbn [String.rev_app]. rewrite IH. simpl.
  by destruct (JS.isSpace c), (allSpace s), (allSpace acc).
Qed.

(** A text between two runs of white space that starts and ends with a
    backtick is what [trim] leaves. *)
Lemma trim_padded pad1 pad2 s :
  allSpace pad1 = true -> allSpace pad2 = true ->
  JS.trim (pad1 +:+ String backtick (s +:+ String backtick pad2))
  = String backtick (s +:+ String backtick "").
Proof.
  intros H1 H2. unfold JS.trim. rewrite trimStart_space by done.
  cbn [JS.trimStart]. change (JS.isSpace backtick) with false. cbv iota.
  unfold String.rev at 2. cbn [String.rev_app]. rewrite rev_app_app.
  cbn [String.rev_app]. rewrite (rev_app_acc pad2).
  rewrite trimStart_space
    by (unfold String.rev; by rewrite allSpace_rev_app, H2).
  cbn [JS.trimStart]. change (JS.isSpace backtick) with false. cbv iota.
  unfold String.rev. cbn [String.rev_app].
  by rewrite rev_app_rev_app.
Qed.

Lemma afterPrefix_app p s : afterPrefix p (p +:+ s) = Some s.
Proof.
  induction p as [|c p IH]; [by destruct s|].
  rewrite append_cons. cbn [afterPrefix]. by rewrite decide_True.
Qed.

Lemma closes_backtick c r : c <> backtick -> closes (String c r) = false.
Proof.
  intros Hc. unfold closes, fence. cbn [afterPrefix].
  rewrite decide_False; [done|]. unfold backtick in Hc. congruence.
Qed.

Lemma stripClosing_closed body tail :
  JS.includesChar backtick body = false -> allSpace tail = true ->
  stripClosing (body +:+ fence +:+ tail) = body.
Proof.
  intros Hb Ht. induction body as [|c body IH].
  - rewrite append_nil_l.
    assert (closes (fence +:+ tail) = true) as Hcl
      by (unfold closes; by rewrite afterPrefix_app).
    unfold fence in *. rewrite !append_cons in *. cbn [stripClosing]. by rewrite Hcl.
  - simpl in Hb. destruct (decide (backtick = c)) as [|Hc]; [done|].
    rewrite append_cons. cbn [stripClosing]. rewrite closes_backtick by congruence.
    f_equal. by apply IH.
Qed.

Lemma stripClosing_open body :
  JS.includesChar backtick body = false -> stripClosing body = body.
Proof.
  induction body as [|c body IH]; intros Hb; [done|].
  simpl in Hb. destruct (decide (backtick = c)) as [|Hc]; [done|].
  cbn [stripClosing]. rewrite closes_backtick by congruence. f_equal. by apply IH.
Qed.

Lemma startsWith_app p s : startsWith p (p +:+ s) = true.
Proof. unfold startsWith. by rewrite afterPrefix_app. Qed.

Lemma unfence_json rest :
  unfence (jsonFence +:+ rest) = stripClosing (JS.trimStart rest).
Proof.
  unfold unfence. rewrite startsWith_app. unfold stripOpening.
  by rewrite afterPrefix_app.
Qed.

Lemma unfence_bare rest :
  startsWith "json" rest = false ->
  unfence (fence +:+ rest) = stripClosing (JS.trimStart rest).
Proof.
  intros Hj. unfold unfence.
  assert (startsWith jsonFence (fence +:+ rest) = false) as ->.
  { unfold startsWith, jsonFence, fence in *. rewrite !append_cons, append_nil_l.
    cbn [afterPrefix]. by rewrite !decide_True. }
  rewrite startsWith_app. unfold stripOpening. by rewrite afterPrefix_app.
Qed.

Lemma unfence_plain s : startsWith fence s = false -> unfence s = s.
Proof.
  intros H. unfold unfence. rewrite H.
  assert (startsWith jsonFence s = false) as ->; [|done].
  unfold startsWith, jsonFence, fence in *.
  destruct s as [|a [|b [|c s]]]; cbn [afterPrefix] in *; try done;
    repeat case_decide; done.
Qed.

Lemma includesChar_app c s1 s2 :
  JS.includesChar c (s1 +:+ s2) = JS.includesChar c s1 || JS.includesChar c s2.
Proof.
  induction s1 as [|d s1 IH]; [done|]. rewrite append_cons. simpl.
  by destruct (decide (c = d)).
Qed.

Lemma trimStart_app body c r :
  JS.isSpace c = false ->
  JS.trimStart (body +:+ String c r) = JS.trimStart body +:+ String c r.
Proof.
  intros Hc. induction body as [|d body IH].
  - rewrite append_nil_l. cbn [JS.trimStart]. by rewrite Hc.
  - rewrite append_cons. cbn [JS.trimStart]. destruct (JS.isSpace d); [done|].
    by rewrite append_cons.
Qed.

Lemma afterPrefix_before_backtick p s t :
  JS.includesChar backtick p = false ->
  startsWith p (s +:+ String backtick t) = startsWith p s.
Proof.
  unfold startsWith. revert s. induction p as [|a p IH]; intros s Hp; [done|].
  simpl in Hp. destruct (decide (backtick = a)) as [|Ha]; [done|].
  destruct s as [|b s].
  - rewrite append_nil_l. cbn [afterPrefix]. rewrite decide_False; [done|].
    intros Heq. by apply Ha.
  - rewrite append_cons. cbn [afterPrefix]. destruct (decide (a = b)); [|done].
    by apply IH.
Qed.

(** The text inside a closed fence. *)
Lemma unfence_closed opening ws body :
  opening = jsonFence \/ (opening = fence /\ startsWith "json" (ws +:+ body) = false) ->
  allSpace ws = true -> JS.includesChar backtick body = false ->
  unfence (opening +:+ ws +:+ body +:+ fence) = JS.trimStart body.
Proof.
  intros Hopen Hws Hbody.
  assert (stripClosing (JS.trimStart (ws +:+ body +:+ fence)) = JS.trimStart body)
    as Hstrip.
  { rewrite trimStart_space by done. unfold fence at 1.
    rewrite trimStart_app by done.
    change (String "`" (String "`" (String "`" ""))) with (fence +:+ "").
    apply stripClosing_closed; [|done]. by rewrite includesChar_trimStart. }
  destruct Hopen as [->|[-> Hj]].
  - by rewrite unfence_json.
  - rewrite unfence_bare; [done|].
    rewrite <- string_app_assoc. unfold fence.
    by rewrite afterPrefix_before_backtick.
Qed.

(** The text after an opening fence that is not closed. *)
Lemma unfence_unclosed opening rest :
  opening = jsonFence \/ (opening = fence /\ startsWith "json" rest = false) ->
  JS.includesChar backtick rest = false ->
  unfence (opening +:+ rest) = JS.trimStart rest.
Proof.
  intros Hopen Hrest.
  assert (stripClosing (JS.trimStart rest) = JS.trimStart rest) as Hstrip
    by (apply stripClosing_open; by rewrite includesChar_trimStart).
  destruct Hopen as [->|[-> Hj]].
  - by rewrite unfence_json.
  - by rewrite unfence_bare.
Qed.

(** X22.  [askClaudeJSON] parses the trimmed answer as it is when it does not
    start with a code fence.  An answer that, between runs of white space,
    is an opening fence (with the tag [json] or without tag), white space, a
    body without backtick and a closing fence is parsed as the body without
    its leading white space; the same holds for a trimmed answer whose
    fence is not closed.  A tag other than [json] stays in the text that is
    parsed. *)
Theorem fenced_json_is_unwrapped JSON_parse :
  (forall response,
     startsWith fence (JS.trim response) = false ->
     askClaudeJSON JSON_parse response = JSON_parse (JS.trim response)) /\
  (forall pad1 pad2 opening ws body,
     opening = jsonFence \/
       (opening = fence /\ startsWith "json" (ws +:+ body) = false) ->
     allSpace pad1 = true -> allSpace pad2 = true -> allSpace ws = true ->
     JS.includesChar backtick body = false ->
     askClaudeJSON JSON_parse
       (pad1 +:+ opening +:+ ws +:+ body +:+ fence +:+ pad2)
     = JSON_parse (JS.trimStart body)) /\
  (forall opening rest,
     opening = jsonFence \/ (opening = fence /\ startsWith "json" rest = false) ->
     JS.includesChar backtick rest = false ->
     JS.trim (opening +:+ rest) = opening +:+ rest ->
     askClaudeJSON JSON_parse (opening +:+ rest) = JSON_parse (JS.trimStart rest)).
Proof.
  assert (forall t, match JSON_parse t with Ok v => Ok v | Throw => Throw end
                    = JSON_parse t) as Hre
    by (intros t; by destruct (JSON_parse t)).
  split; [|split].
  - intros response Hplain. unfold askClaudeJSON. cbv zeta.
    by rewrite Hre, unfence_plain.
  - intros pad1 pad2 opening ws body Hopen H1 H2 Hws Hbody.
    unfold askClaudeJSON. cbv zeta. rewrite Hre. f_equal.
    assert (JS.trim (pad1 +:+ opening +:+ ws +:+ body +:+ fence +:+ pad2)
            = opening +:+ ws +:+ body +:+ fence) as ->.
    { assert (exists o, opening = String backtick o) as [o ->]
        by (destruct Hopen as [->|[-> _]]; by eexists).
      rewrite append_cons. unfold fence at 1.
      rewrite !append_cons, append_nil_l.
      replace (o +:+ ws +:+ body +:+ String "`" (String "`" (String "`" pad2)))
        with ((o +:+ ws +:+ body +:+ String "`" (String "`" ""))
              +:+ String backtick pad2)
        by (by rewrite !string_app_assoc).
      rewrite trim_padded by done. unfold fence.
      by rewrite !string_app_assoc. }
    by apply unfence_closed.
  - intros opening rest Hopen Hrest Htrim.
    unfold askClaudeJSON. cbv zeta. rewrite Hre, Htrim. f_equal.
    by apply unfence_unclosed.
Qed.

End FencesFacts.

Module ValidatorFacts.
Import Validator BuiltinsFacts.

Lemma find_split {A} (P : A -> bool) l x :
  find P l = Some x ->
  exists l1 l2, l = l1 ++ x :: l2 /\ P x = true /\ Forall (fun y => P y = false) l1.
Proof.
  induction l as [|a l IH]; intros H; [done|]. simpl in H.
  destruct (P a) eqn:Ha.
  - injection H as ->. exists [], l. by repeat split.
  - destruct (IH H) as (l1 & l2 & -> & Hx & Hl1).
    exists (a :: l1), l2. repeat split; [done|by constructor].
Qed.

Lemma find_after_misses {A} (P : A -> bool) l1 x l2 :
  Forall (fun y => P y = false) l1 -> P x = true ->
  find P (l1 ++ x :: l2) = Some x.
Proof.
  intros Hl1 Hx. induction Hl1 as [|a l1 Ha _ IH]; simpl; [by rewrite Hx|].
  by rewrite Ha.
Qed.

Lemma find_none_iff {A} (P : A -> bool) l :
  find P l = None <-> Forall (fun y => P y = false) l.
Proof.
  induction l as [|a l IH]; simpl; [by split; [constructor|]|].
  destruct (P a) eqn:Ha.
  - split; [done|]. intros H. apply Forall_cons in H as [? _]. congruence.
  - rewrite IH. split; [by constructor|]. by intros [_ ?]%Forall_cons.
Qed.

Lemma find_snoc {A} (P : A -> bool) l x :
  find P (l ++ [x]) =
  match find P l with Some y => Some y | None => if P x then Some x else None end.
Proof.
  induction l as [|a l IH]; simpl; [done|]. by destruct (P a).
Qed.

(** The map holds, for each lower-cased name, the first spec type with it. *)
Lemma checkNames_map specTypes k :
  (checkNames specTypes).1 !! k = find (sameLower k) specTypes.
Proof.
  unfold checkNames.
  induction specTypes as [|s pre IH] using rev_ind; [done|].
  rewrite fold_left_app, find_snoc. simpl. unfold checkName at 1.
  destruct (_ !! lowerName s) as [f|] eqn:Hf; simpl.
  - rewrite <- IH. destruct (_ !! k) as [y|] eqn:Hk; [done|].
    unfold sameLower. case_bool_decide as Hs; [|done]. congruence.
  - destruct (decide (lowerName s = k)) as [<-|Hne].
    + rewrite lookup_insert_eq, <- IH, Hf. unfold sameLower.
      by rewrite bool_decide_eq_true_2.
    + rewrite lookup_insert_ne, <- IH by done.
      destruct (_ !! k); [done|]. unfold sameLower.
      by rewrite bool_decide_eq_false_2.
Qed.

(** What the loop adds for one spec type after the spec types [pre]. *)
Lemma exactDuplicates_snoc pre s :
  exactDuplicates (pre ++ [s]) =
  exactDuplicates pre ++
  match find (sameLower (lowerName s)) pre with
  | Some first => [(primaryName first, primaryName s)]
  | None => []
  end.
Proof.
  unfold exactDuplicates, checkNames at 1. rewrite fold_left_app. simpl.
  fold (checkNames pre). unfold checkName. rewrite checkNames_map.
  destruct (find _ pre); simpl; [done|]. by rewrite app_nil_r.
Qed.

Lemma sameLower_false_iff k l :
  Forall (fun y => sameLower k y = false) l <-> k ∉ lowerName <$> l.
Proof.
  rewrite Forall_forall. split.
  - intros H (y & -> & Hy)%list_elem_of_fmap. specialize (H y Hy).
    unfold sameLower in H. by rewrite bool_decide_eq_true_2 in H.
  - intros H y Hy. unfold sameLower. apply bool_decide_eq_false_2. intros <-.
    apply H, list_elem_of_fmap. eauto.
Qed.

Lemma exactDuplicates_nil specTypes :
  exactDuplicates specTypes = [] <-> NoDup (lowerName <$> specTypes).
Proof.
  induction specTypes as [|s pre IH] using rev_ind; [by split; [constructor|]|].
  rewrite exactDuplicates_snoc, fmap_app, NoDup_app. simpl.
  destruct (find _ pre) as [f|] eqn:Hf.
  - split.
    + intros H. apply app_eq_nil in H as [_ H]. done.
    + intros (_ & Hdis & _). exfalso.
      apply find_split in Hf as (l1 & l2 & -> & Hx & _).
      unfold sameLower in Hx. apply bool_decide_eq_true_1 in Hx.
      apply (Hdis (lowerName s)); [|by left].
      rewrite <- Hx. apply list_elem_of_fmap. exists f. split; [done|].
      apply elem_of_app. right. by left.
  - rewrite app_nil_r, IH. apply find_none_iff, sameLower_false_iff in Hf.
    split.
    + intros Hnd. split; [done|]. split; [|apply NoDup_singleton].
      intros x Hx Hx'%list_elem_of_singleton. by subst.
    + by intros [? _].
Qed.

Lemma exactDuplicates_count specTypes :
  length (exactDuplicates specTypes)
  + size (list_to_set (lowerName <$> specTypes) : gset string)
  = length specTypes.
Proof.
  induction specTypes as [|s pre IH] using rev_ind; [done|].
  rewrite exactDuplicates_snoc, fmap_app, list_to_set_app_L, !length_app. simpl.
  destruct (find _ pre) as [f|] eqn:Hf.
  - apply find_split in Hf as (l1 & l2 & Hpre & Hx & _).
    unfold sameLower in Hx. apply bool_decide_eq_true_1 in Hx.
    assert (lowerName s ∈ (list_to_set (lowerName <$> pre) : gset string)) as Hin.
    { apply elem_of_list_to_set, list_elem_of_fmap. exists f. split; [done|].
      rewrite Hpre. apply elem_of_app. right. by left. }
    replace (list_to_set (lowerName <$> pre) ∪ ({[lowerName s]} ∪ ∅))
      with (list_to_set (lowerName <$> pre) : gset string) by set_solver.
    simpl. lia.
  - apply find_none_iff, sameLower_false_iff in Hf.
    rewrite size_union by set_solver.
    rewrite union_empty_r_L, size_singleton. simpl. lia.
Qed.

Lemma exactDuplicates_elem specTypes n1 n2 :
  (n1, n2) ∈ exactDuplicates specTypes <->
  exists l1 s1 l2 s2 l3,
    specTypes = l1 ++ s1 :: l2 ++ s2 :: l3 /\
    lowerName s1 = lowerName s2 /\
    (lowerName s1 ∉ lowerName <$> l1) /\
    n1 = primaryName s1 /\ n2 = primaryName s2.
Proof.
  induction specTypes as [|s pre IH] using rev_ind.
  - split; [by intros ?%elem_of_nil|].
    intros (l1 & s1 & l2 & s2 & l3 & H & _). by destruct l1.
  - rewrite exactDuplicates_snoc, elem_of_app, IH. split.
    + intros [(l1 & s1 & l2 & s2 & l3 & -> & Hrest)|Hin].
      * exists l1, s1, l2, s2, (l3 ++ [s]). split; [|done].
        by rewrite <- !app_assoc, <- !app_comm_cons, <- !app_assoc.
      * destruct (find _ pre) as [f|] eqn:Hf; [|by apply elem_of_nil in Hin].
        apply list_elem_of_singleton in Hin. injection Hin as -> ->.
        apply find_split in Hf as (l1 & l2 & -> & Hx & Hl1).
        unfold sameLower in Hx. apply bool_decide_eq_true_1 in Hx.
        exists l1, f, l2, s, []. split; [by rewrite <- app_assoc|].
        split; [done|]. split; [|done].
        rewrite Hx. by apply sameLower_false_iff.
    + intros (l1 & s1 & l2 & s2 & l3 & Heq & Hlow & Hl1 & -> & ->).
      destruct l3 as [|x l3 _] using rev_ind.
      * right. rewrite app_comm_cons, app_assoc in Heq.
        apply app_inj_tail in Heq as [-> ->].
        rewrite find_after_misses; [by left| |].
        -- apply sameLower_false_iff. by rewrite <- Hlow.
        -- unfold sameLower. by rewrite bool_decide_eq_true_2.
      * left. exists l1, s1, l2, s2, l3.
        rewrite !app_comm_cons, !app_assoc in Heq.
        apply app_inj_tail in Heq as [-> ->].
        split; [|done]. by rewrite <- !app_assoc.
Qed.

(** X23.  The report of [validateSpecTypes] on names.  [exactDuplicates] is empty
    exactly when the lower-case primary names are pairwise different; it
    has one entry for each spec type that is not the first with its
    lower-case name, and each entry pairs the primary name of the first
    spec type with that lower-case name with the later one, so that three
    spec types with one name give two entries against the first.
    [missingAlternateNames] lists the primary names of the spec types
    without alternate names. *)
Theorem exact_duplicates_report specTypes :
  (exactDuplicates specTypes = [] <-> NoDup (lowerName <$> specTypes)) /\
  length (exactDuplicates specTypes)
  + size (list_to_set (lowerName <$> specTypes) : gset string)
  = length specTypes /\
  (forall n1 n2,
     (n1, n2) ∈ exactDuplicates specTypes <->
     exists l1 s1 l2 s2 l3,
       specTypes = l1 ++ s1 :: l2 ++ s2 :: l3 /\
       lowerName s1 = lowerName s2 /\
       (lowerName s1 ∉ lowerName <$> l1) /\
       n1 = primaryName s1 /\ n2 = primaryName s2) /\
  (forall name,
     name ∈ missingAlternateNames specTypes <->
     exists spec, spec ∈ specTypes /\ alternateNames spec = [] /\
                  name = primaryName spec).
Proof.
  split; [apply exactDuplicates_nil|]. split; [apply exactDuplicates_count|].
  split; [apply exactDuplicates_elem|].
  intros name. unfold missingAlternateNames.
  rewrite list_elem_of_fmap. split.
  - intros (spec & -> & [Hlen Hin]%list_elem_of_filter). exists spec.
    split; [done|]. split; [|done]. by destruct (alternateNames spec).
  - intros (spec & Hin & Halt & ->). exists spec. split; [done|].
    apply list_elem_of_filter. by rewrite Halt.
Qed.

(** *** The semantic check *)

Lemma compareRow_eq oracle spec1 rest st :
  fold_left (fun st spec2 => comparePair oracle spec1 spec2 st) rest st =
  (st.1 ++ omap (reportOf oracle) ((fun b => (spec1, b)) <$> rest),
   st.2 ++ ((fun b => (spec1, b)) <$> rest)).
Proof.
  revert st. induction rest as [|b rest IH]; intros st.
  - simpl. rewrite !app_nil_r. by destruct st.
  - cbn [fold_left]. rewrite IH. rewrite fmap_cons, omap_cons_eq.
    unfold comparePair, reportOf. cbn [fst snd].
    destruct (oracle spec1 b) as [result|]; [destruct (Duplicates.accepted result)|];
      by rewrite <- ?app_assoc.
Qed.

Lemma omap_app_eq {A B} (f : A -> option B) l1 l2 :
  omap f (l1 ++ l2) = omap f l1 ++ omap f l2.
Proof.
  induction l1 as [|a l1 IH]; [done|].
  rewrite <- app_comm_cons, !omap_cons_eq, IH. by destruct (f a).
Qed.

Lemma compareAll_eq oracle specTypes st :
  compareAll oracle specTypes st =
  (st.1 ++ omap (reportOf oracle) (pairs specTypes), st.2 ++ pairs specTypes).
Proof.
  revert st. induction specTypes as [|a rest IH]; intros st.
  - simpl. rewrite !app_nil_r. by destruct st.
  - cbn [compareAll pairs]. rewrite IH, compareRow_eq. cbn [fst snd].
    by rewrite omap_app_eq, <- !app_assoc.
Qed.

Lemma pairs_length l : 2 * length (pairs l) = length l * (length l - 1).
Proof.
  induction l as [|a l IH]; [done|].
  cbn [pairs]. rewrite length_app, length_fmap. cbn [length]. nia.
Qed.

Lemma pairs_elem l s1 s2 :
  (s1, s2) ∈ pairs l <-> exists l1 l2 l3, l = l1 ++ s1 :: l2 ++ s2 :: l3.
Proof.
  induction l as [|a l IH].
  - split; [by intros ?%elem_of_nil|]. intros (l1 & l2 & l3 & H). by destruct l1.
  - cbn [pairs]. rewrite elem_of_app, IH, list_elem_of_fmap. split.
    + intros [(b & [= -> ->] & Hb)|(l1 & l2 & l3 & ->)].
      * apply list_elem_of_split in Hb as (l2 & l3 & ->). by exists [], l2, l3.
      * by exists (a :: l1), l2, l3.
    + intros ([|x l1] & l2 & l3 & Heq); simpl in Heq; injection Heq as -> ->.
      * left. exists s2. split; [done|]. apply elem_of_app. right. by left.
      * right. by exists l1, l2, l3.
Qed.

(** X24.  The semantic check of [validateSpecTypes] sends every pair of spec
    types to the Oracle once, each spec type with the later ones, in the
    order of the list and whatever their domains or names: n * (n - 1) / 2
    requests for n spec types.  [semanticDuplicates] has, in that order, one
    entry for each pair whose answer is accepted, and none when every
    request fails. *)
Theorem semantic_check_asks_every_pair oracle specTypes :
  (semanticDuplicates oracle specTypes).2 = pairs specTypes /\
  2 * length (semanticDuplicates oracle specTypes).2
    = length specTypes * (length specTypes - 1) /\
  (forall s1 s2,
     (s1, s2) ∈ (semanticDuplicates oracle specTypes).2 <->
     exists l1 l2 l3, specTypes = l1 ++ s1 :: l2 ++ s2 :: l3) /\
  (semanticDuplicates oracle specTypes).1
    = omap (reportOf oracle) (pairs specTypes) /\
  ((forall s1 s2, oracle s1 s2 = None) ->
   (semanticDuplicates oracle specTypes).1 = []).
Proof.
  assert (semanticDuplicates oracle specTypes
          = (omap (reportOf oracle) (pairs specTypes), pairs specTypes)) as ->.
  { unfold semanticDuplicates, detectSemanticDuplicates.
    destruct (Nat.ltb_spec 1 (length specTypes)) as [|Hle].
    - by rewrite compareAll_eq.
    - destruct specTypes as [|a [|b l]]; [done|done|simpl in Hle; lia]. }
  cbn [fst snd]. split; [done|]. split; [apply pairs_length|].
  split; [apply pairs_elem|]. split; [done|].
  intros Hfail. induction (pairs specTypes) as [|p ps IH]; [done|].
  rewrite omap_cons_eq, IH. unfold reportOf. by rewrite Hfail.
Qed.

End ValidatorFacts.
